(** * OMERO user scripts: the colocalisation and correlation analysers

    A shallow embedding of [Colocalisation_Analyser.py] and
    [Correlation_Analyser.py]: the parsers of the ImageJ output
    ([extract_results]), channel resolution ([find_channel_index]),
    parameter validation ([check_parameters]), e-mail validation
    ([validate_email]), image export ([extract_images]), macro generation
    and process invocation ([run_imagej]) and the entry point ([run]).

    Python values are modelled as follows: [str] as [string], [long] as
    [Z], a [dict] keyed by image id as [gmap Z string], a list that may
    hold [None] as [list (option _)], and code with side effects in a
    small state-and-exception monad over the temporary directory and the
    trace of observable events. *)

From Stdlib Require Import ZArith Ascii String List Lia.
From stdpp Require Import base option list gmap strings pretty.

Open Scope Z_scope.

(** ** Strings *)

Module Str.

Definition LF : ascii := "010"%char.
Definition CR : ascii := "013"%char.

(** [s] followed by a newline. *)
Definition ln (s : string) : string := s +:+ String LF "".

Fixpoint drop (n : nat) (s : string) : string :=
  match n, s with
  | S n', String _ s' => drop n' s'
  | _, _ => s
  end.

(** Length of the longest prefix of [s] whose characters satisfy [p]. *)
Fixpoint span (p : ascii → bool) (s : string) : nat :=
  match s with
  | String c s' => if p c then S (span p s') else 0%nat
  | EmptyString => 0%nat
  end.

(** [s.startswith(p)] *)
Definition startswith (p s : string) : bool := String.prefix p s.

(** [sep.join(l)] *)
Fixpoint join (sep : string) (l : list string) : string :=
  match l with
  | [] => ""
  | [x] => x
  | x :: xs => x +:+ sep +:+ join sep xs
  end.

Definition is_digit (c : ascii) : bool :=
  (48 <=? nat_of_ascii c)%nat && (nat_of_ascii c <=? 57)%nat.

Definition is_alpha (c : ascii) : bool :=
  ((65 <=? nat_of_ascii c)%nat && (nat_of_ascii c <=? 90)%nat)
  || ((97 <=? nat_of_ascii c)%nat && (nat_of_ascii c <=? 122)%nat).

(** [long(s)] for a string of decimal digits. *)
Fixpoint long_go (acc : Z) (s : string) : Z :=
  match s with
  | String c s' => long_go (10 * acc + (Z.of_nat (nat_of_ascii c) - 48)) s'
  | EmptyString => acc
  end.
Definition long (s : string) : Z := long_go 0 s.

(** The lines a Python file object iterates over: each line keeps its
    terminating newline; the last line may lack one. *)
Fixpoint readlines_go (cur : string) (s : string) : list string :=
  match s with
  | EmptyString => match cur with EmptyString => [] | _ => [String.rev cur] end
  | String c s' =>
      if Ascii.eqb c LF then String.rev (String c cur) :: readlines_go "" s'
      else readlines_go (String c cur) s'
  end.
Definition readlines (content : string) : list string := readlines_go "" content.

End Str.

(** ** Regular expressions

    The patterns of the scripts are sequences of single characters,
    character classes with a greedy repetition, capture groups and an
    end anchor. [re_run] follows the backtracking search of Python's
    [re.match]: anchored at the start of the line, each repetition first
    takes as many characters as it can and gives them back one at a time
    until the rest of the pattern matches. *)

Module Re.

Inductive node : Type :=
| Chr (p : ascii → bool)                          (* one character of a class *)
| Rep (p : ascii → bool) (lo : nat) (hi : option nat)  (* greedy p{lo,hi} *)
| Mark                                            (* ( or ) of a group *)
| Eol.                                            (* $ *)

Definition regex := list node.

(** [.] matches any character except a newline. *)
Definition dot (c : ascii) : bool := negb (Ascii.eqb c Str.LF).

Definition chr (c : ascii) : node := Chr (Ascii.eqb c).

Fixpoint lit (s : string) : regex :=
  match s with
  | String c s' => chr c :: lit s'
  | EmptyString => []
  end.

(** [$]: at the end of the string or just before a newline that ends it. *)
Definition at_end (s : string) : bool :=
  match s with
  | EmptyString => true
  | String c EmptyString => Ascii.eqb c Str.LF
  | _ => false
  end.

Fixpoint first_some {A B} (f : A → option B) (l : list A) : option B :=
  match l with
  | [] => None
  | x :: xs => match f x with Some y => Some y | None => first_some f xs end
  end.

(** The repetition counts to try, greedy first: n, n-1, ..., lo. *)
Definition counts_down (lo n : nat) : list nat := rev (seq lo (S n - lo)).

(** Returns the positions of the group marks, in pattern order. *)
Fixpoint re_run (r : regex) (s : string) (pos : nat) : option (list nat) :=
  match r with
  | [] => Some []
  | Chr p :: r' =>
      match s with
      | String c s' => if p c then re_run r' s' (S pos) else None
      | EmptyString => None
      end
  | Rep p lo hi :: r' =>
      let n := match hi with
               | Some h => Nat.min h (Str.span p s)
               | None => Str.span p s
               end in
      first_some (λ k, re_run r' (Str.drop k s) (pos + k)) (counts_down lo n)
  | Mark :: r' => cons pos <$> re_run r' s pos
  | Eol :: r' => if at_end s then re_run r' s pos else None
  end.

(** [re.match(r, line)] *)
Definition re_match (r : regex) (line : string) : option (list nat) :=
  re_run r line 0.

(** [m.group(g)], for g = 1, 2, ... *)
Definition group (line : string) (m : list nat) (g : nat) : string :=
  let a := nth (2 * (g - 1)) m 0%nat in
  let b := nth (2 * (g - 1) + 1) m 0%nat in
  substring a (b - a) line.

End Re.

Import Str Re.

(** ** Images and channel selectors *)

Record Dataset := {
  ds_name : string;
  ds_project : option string        (* name of the parent project, if any *)
}.

Record Image := {
  getId : Z;
  getName : string;
  getChannels : list string;        (* the channel names, in order *)
  getSizeC : Z;
  getSizeZ : Z;
  getSizeT : Z;
  getParent : option Dataset
}.

(** Truth value of an optional string parameter: [None] and the empty
    string are false. *)
Definition truthy (o : option string) : bool :=
  match o with
  | Some s => negb (String.eqb s "")
  | None => false
  end.

Fixpoint find_channel_index_from (index : nat) (chs : list string) (c : string) : Z :=
  match chs with
  | [] => -1
  | ch :: rest =>
      if String.eqb ch c || String.eqb (pretty (index + 1)%nat) c
      then Z.of_nat index
      else find_channel_index_from (S index) rest c
  end.

(** [find_channel_index(img, c)] *)
Definition find_channel_index (img : Image) (c : string) : Z :=
  find_channel_index_from 0 (getChannels img) c.

(** ** E-mail validation *)

Module Email.

Definition pat_email : string :=
  "^[a-zA-Z0-9._%-]+@[a-zA-Z0-9._%-]+.[a-zA-Z]{2,6}$".

(** The class [a-zA-Z0-9._%-]. *)
Definition addr_char (c : ascii) : bool :=
  is_alpha c || is_digit c || Ascii.eqb c "." || Ascii.eqb c "_"
  || Ascii.eqb c "%" || Ascii.eqb c "-".

(** The pattern [pat_email]. *)
Definition re_email : regex :=
  [Rep addr_char 1 None; chr "@"; Rep addr_char 1 None; Chr dot;
   Rep is_alpha 2 (Some 6%nat); Eol].

(** [validate_email(conn, params)]: [param_email] is the e-mail
    parameter, [profile_email] the address of the user's profile.
    Returns the address stored back into the parameters and whether
    the pattern matched it. *)
Definition validate_email (profile_email param_email : option string)
  : string * bool :=
  let userEmail :=
    if truthy param_email then default "" param_email
    else if truthy profile_email then default "" profile_email
    else "" in
  (userEmail, bool_decide (is_Some (re_match re_email userEmail))).

(** Whether [s] contains the character [c]. *)
Fixpoint contains (c : ascii) (s : string) : bool :=
  match s with
  | String d s' => Ascii.eqb c d || contains c s'
  | EmptyString => false
  end.

End Email.

(** ** Observable effects *)

(** Lines printed on standard output. *)
Inductive msg : Type :=
| MsgParameters                              (* Parameters = ... *)
| MsgNoChannel (id : Z) (name c : string)    (* ERROR: Image id: name does not have channel: c *)
| MsgShift (max min : Z)                     (* ERROR: Maximum shift (max) is not greater than minimum shift (min) *)
| MsgNoOption                                (* ERROR: No results option selected *)
| MsgCommand (macro_file : string)           (* Script command = ... *)
| MsgLine (line : string)                    (* a line of the report *)
| MsgNoResults (n : nat).                    (* ERROR: No results generated for n images *)

(** Lines printed on standard error. *)
Inductive errmsg : Type :=
| ErrExitCode (code : Z)                     (* Execution failed with code: code *)
| ErrLaunch.                                 (* Execution failed: ... *)

Inductive event : Type :=
| Print (m : msg)
| PrintErr (m : errmsg)
| Mkdtemp (dir : string)
| ExporterOpen (id : Z)                      (* createExporter, addImage *)
| Export (id : Z) (file : string)            (* the TIFF written to file *)
| ExporterClose (id : Z)
| Write (file text : string)                 (* out.write(text) *)
| Call (macro_file : string)                 (* subprocess.call *)
| Remove (file : string)                     (* os.remove *)
| Attach (id : Z) (name text : string)       (* file annotation linked to the image *)
| Sendmail (recipient subject : string) (image_names parameters : list string)
           (attachment : option string)
| Rmdir (dir : string).                      (* os.rmdir *)

Inductive exn : Type :=
| AttributeError | IndexError | OSError | ExportError | AnnotationError | SMTPError.

#[global] Instance exn_eq_dec : EqDecision exn.
Proof. solve_decision. Defined.

Inductive export_outcome : Type :=
| Exported                                   (* the TIFF is generated and read *)
| GenerateFails                              (* generateTiff raises *)
| ReadFails.                                 (* a chunk read raises, the file is open *)

Inductive process_outcome : Type :=
| LaunchError                                (* subprocess.call raises OSError *)
| Exited (code : Z) (stdout : string).

(** The collaborators of a run: the OMERO connection, the file system,
    the ImageJ process and the mail server. *)
Record World := {
  tmp_dir : string;                                (* what mkdtemp returns *)
  getObjects : list Z → list (option Image);       (* conn.getObjects of Image *)
  getObject : Z → option Image;                    (* conn.getObject of Image *)
  getDataset : Z → option (list (option Image));   (* a dataset and its children *)
  export : Z → export_outcome;
  imagej : string → process_outcome;               (* from the macro text *)
  remove_ok : string → bool;                       (* whether os.remove succeeds *)
  mkstemp : Z → string;                            (* temporary file for a result *)
  attach_ok : Z → bool;                            (* whether the annotation calls succeed *)
  smtp_ok : bool
}.

(** What differs between the two scripts. *)
Record Variant := {
  v_params : Type;
  p_datatype : v_params → string;
  p_ids : v_params → list Z;
  p_upload : v_params → bool;
  p_email_results : v_params → bool;
  p_email : v_params → option string;
  macro_name : string;
  stdout_name : string;
  v_check_parameters : list (option Image) → v_params → list msg * bool;
  v_write_blocks : v_params → list (option Image) → list string → list string * option exn;
  v_extract_results : string → gmap Z string;
  v_create_result_name : v_params → string;
  report_header : string;
  subject : string;
  v_build_parameters : v_params → list string
}.

(** Accumulated error lines and the [result] flag of [check_parameters]. *)
Definition checked : Type := list msg * bool.

Definition report_error (m : msg) (r : checked) : checked := (r.1 ++ [m], false).

Definition DQ : string := String "034"%char "".

(** ** Colocalisation_Analyser.py *)

Module Colocalisation.

(** *** Grammar A: the colocalisation output *)

Definition pat_row : string := "(\d+).ome.tif,(.*)".
Definition pat_header : string := "Image,(p,Method.*)".

(** The pattern [pat_row]. *)
Definition re_row : regex :=
  [Mark; Rep is_digit 1 None; Mark; Chr dot] ++ lit "ome" ++ [Chr dot]
    ++ lit "tif," ++ [Mark; Rep dot 0 None; Mark].

(** The pattern [pat_header]. *)
Definition re_header : regex :=
  lit "Image," ++ [Mark] ++ lit "p,Method" ++ [Rep dot 0 None; Mark].

(** The variables of the loop of [extract_results]. *)
Record state := State {
  results : gmap Z string;
  extract_result : bool;
  image_id : Z;
  result : list string
}.

Definition init : state := State ∅ false 0 [].

(** A line matching [pat_row]: the image id [long(m.group(1))] and the
    rest of the row [m.group(2)]. *)
Definition row_of (line : string) : option (Z * string) :=
  match re_match re_row line with
  | Some m => Some (long (group line m 1), group line m 2)
  | None => None
  end.

(** A line matching [pat_header]: the column names [m.group(1)]. *)
Definition header_of (line : string) : option string :=
  match re_match re_header line with
  | Some m => Some (group line m 1)
  | None => None
  end.

(** The block stored for the accumulated lines. *)
Definition block (result : list string) : string := join (String LF "") result.

(** First [if] of the loop body: within an image result. *)
Definition step_inside (st : state) (line : string) : state :=
  if extract_result st then
    match row_of line with
    | Some (id, text) => State (results st) true id (result st ++ [text])
    | None => State (<[image_id st := block (result st)]> (results st))
                    false 0 (result st)
    end
  else st.

(** Second [if] of the loop body: look for a new result. *)
Definition step_outside (st : state) (line : string) : state :=
  if negb (extract_result st) then
    match header_of line with
    | Some columns => State (results st) true (image_id st) [columns]
    | None => st
    end
  else st.

Definition step (st : state) (line : string) : state :=
  step_outside (step_inside st line) line.

Definition loop (st : state) (lines : list string) : state :=
  foldl step st lines.

(** The code after the loop. *)
Definition finish (st : state) : gmap Z string :=
  if negb (image_id st =? 0)
  then <[image_id st := block (result st)]> (results st)
  else results st.

Definition extract_results_lines (lines : list string) : gmap Z string :=
  finish (loop init lines).

Definition extract_results (content : string) : gmap Z string :=
  extract_results_lines (readlines content).

(** Outside a result the image id is 0. *)
Definition outside_zero (st : state) : Prop :=
  extract_result st = false → image_id st = 0.

(** The accumulated lines [acc] kept under the id [k], for the lines [L]
    of the file: the column names of a header line followed by the
    texts of the rows read after it; [k] is the id of the last row, or
    0 when there is none. *)
Definition stored (L : list string) (k : Z) (acc : list string) : Prop :=
  ∃ hdr columns parsed,
    acc = columns :: parsed.*2 ∧ hdr ∈ L ∧ header_of hdr = Some columns
    ∧ Forall (λ p, ∃ l, l ∈ L ∧ row_of l = Some p) parsed
    ∧ k = default 0 (last parsed.*1).

(** The invariant of the loop of [extract_results]. *)
Definition inv (L : list string) (st : state) : Prop :=
  outside_zero st
  ∧ (∀ k v, results st !! k = Some v → ∃ acc, v = block acc ∧ stored L k acc)
  ∧ (extract_result st = true → stored L (image_id st) (result st)).

(** *** Parameters, validation and the macro *)

Record params := {
  Data_Type : string;
  IDs : list Z;
  Channel_1 : string;
  Channel_2 : string;
  Channel_3 : option string;
  Method : string;
  Permutations : Z;
  Minimum_shift : Z;
  Maximum_shift : Z;
  Significance : string;          (* the text of the p-value *)
  Upload_results : bool;
  Email_results : bool;
  Email : option string
}.

Definition build_parameters (p : params) : list string :=
  [ "Channel 1    " +:+ " : " +:+ Channel_1 p;
    "Channel 2    " +:+ " : " +:+ Channel_2 p;
    "Channel 3    " +:+ " : " +:+ default "None" (Channel_3 p);
    "Method       " +:+ " : " +:+ Method p;
    "Permutations " +:+ " : " +:+ pretty (Permutations p);
    "Minimum shift" +:+ " : " +:+ pretty (Minimum_shift p);
    "Maximum shift" +:+ " : " +:+ pretty (Maximum_shift p);
    "Significance " +:+ " : " +:+ Significance p ].

Definition create_result_name (p : params) : string :=
  let name := ["Colocalisation"; Method p; "Ch" +:+ Channel_1 p; "Ch" +:+ Channel_2 p]
                ++ (if truthy (Channel_3 p) then ["Ch" +:+ default "" (Channel_3 p)] else []) in
  join "_" name +:+ ".csv".

(** The channels to check: [C] of [check_parameters]. *)
Definition selectors (p : params) : list string :=
  [Channel_1 p; Channel_2 p]
    ++ (if truthy (Channel_3 p) then [default "" (Channel_3 p)] else []).

Definition check_channel (img : Image) (r : checked) (c : string) : checked :=
  if find_channel_index img c <? 0
  then report_error (MsgNoChannel (getId img) (getName img) c) r
  else r.

Definition check_image (C : list string) (r : checked) (img : option Image) : checked :=
  match img with
  | Some img => foldl (check_channel img) r C
  | None => r
  end.

Definition check_parameters (images : list (option Image)) (p : params) : checked :=
  let r : checked := ([], true) in
  let r := foldl (check_image (selectors p)) r images in
  let r := if Maximum_shift p <=? Minimum_shift p
           then report_error (MsgShift (Maximum_shift p) (Minimum_shift p)) r
           else r in
  let r := if negb (Upload_results p) && negb (Email_results p)
           then report_error MsgNoOption r
           else r in
  r.

(** The arguments shared by the blocks of the macro. *)
Definition macro_args (p : params) : string :=
  join " " [ "log_results";
             "method=" +:+ Method p;
             "permutations=" +:+ pretty (Permutations p);
             "minimum_shift=" +:+ pretty (Minimum_shift p);
             "maximum_shift=" +:+ pretty (Maximum_shift p);
             "significance=" +:+ Significance p ].

(** The text written for one image. *)
Definition macro_block (name : string) (sizeC sizeZ sizeT : Z) (args channels : string)
  : string :=
  ln "// Stack colocalisation analyser macro" +:+
  ln ("open(" +:+ DQ +:+ name +:+ DQ +:+ ");") +:+
  ln ("run(" +:+ DQ +:+ "Stack to Hyperstack..." +:+ DQ +:+ ", " +:+ DQ
        +:+ "order=xyzct channels=" +:+ pretty sizeC +:+ " slices=" +:+ pretty sizeZ
        +:+ " frames=" +:+ pretty sizeT +:+ DQ +:+ ");") +:+
  ln ("run(" +:+ DQ +:+ "Stack Colocalisation Analyser" +:+ DQ +:+ ", " +:+ DQ
        +:+ args +:+ " " +:+ channels +:+ DQ +:+ ");") +:+
  ln "close();".

Definition channels_arg (c1 c2 c3 : Z) : string :=
  "channel_1=" +:+ pretty (c1 + 1) +:+ " channel_2=" +:+ pretty (c2 + 1)
    +:+ " channel_3=" +:+ (if 0 <=? c3 then pretty (c3 + 1) else "[None]").

(** The value of [c3] after the body of the loop for [img]. *)
Definition next_c3 (p : params) (img : Image) (c3 : Z) : Z :=
  if truthy (Channel_3 p)
  then find_channel_index img (default "" (Channel_3 p))
  else c3.

Definition image_block (p : params) (name : string) (img : Image) (c3 : Z) : string :=
  let c1 := find_channel_index img (Channel_1 p) in
  let c2 := find_channel_index img (Channel_2 p) in
  macro_block name (getSizeC img) (getSizeZ img) (getSizeT img) (macro_args p)
              (channels_arg c1 c2 (next_c3 p img c3)).

(** The loop of [run_imagej] over [enumerate(image_names)], from index
    [i] with the current [c3]: the blocks written, and the exception
    that ended the loop, if any. *)
Fixpoint write_blocks_from (p : params) (images : list (option Image))
    (i : nat) (c3 : Z) (image_names : list string) : list string * option exn :=
  match image_names with
  | [] => ([], None)
  | name :: rest =>
      match images !! i with
      | None => ([], Some IndexError)
      | Some None => ([], Some AttributeError)
      | Some (Some img) =>
          let r := write_blocks_from p images (S i) (next_c3 p img c3) rest in
          (image_block p name img c3 :: r.1, r.2)
      end
  end.

Definition write_blocks (p : params) (images : list (option Image))
    (image_names : list string) : list string * option exn :=
  write_blocks_from p images 0 (-1) image_names.

(** The error lines of [check_parameters], by cause. *)
Definition ok_of (errs : list msg) : bool :=
  match errs with [] => true | _ => false end.

Definition channel_errors (img : Image) (C : list string) : list msg :=
  flat_map (λ c, if find_channel_index img c <? 0
                 then [MsgNoChannel (getId img) (getName img) c] else []) C.

Definition image_errors (C : list string) (images : list (option Image)) : list msg :=
  flat_map (λ o, match o with Some img => channel_errors img C | None => [] end) images.

Definition shift_errors (p : params) : list msg :=
  if Maximum_shift p <=? Minimum_shift p
  then [MsgShift (Maximum_shift p) (Minimum_shift p)] else [].

Definition option_errors (p : params) : list msg :=
  if negb (Upload_results p) && negb (Email_results p) then [MsgNoOption] else [].

(** Without a third channel, [c3] keeps its initial value. *)
Definition c3_initial (p : params) (c3 : Z) : Prop :=
  truthy (Channel_3 p) = false → c3 = -1.

(** The block of an image built from its own file, dimensions and
    channel indices. *)
Definition own_block (p : params) (name : string) (img : Image) : string :=
  macro_block name (getSizeC img) (getSizeZ img) (getSizeT img) (macro_args p)
    (channels_arg (find_channel_index img (Channel_1 p))
                  (find_channel_index img (Channel_2 p))
                  (if truthy (Channel_3 p)
                   then find_channel_index img (default "" (Channel_3 p))
                   else -1)).

Definition variant : Variant := {|
  v_params := params;
  p_datatype := Data_Type;
  p_ids := IDs;
  p_upload := Upload_results;
  p_email_results := Email_results;
  p_email := Email;
  macro_name := "colocalisation.ijm";
  stdout_name := "colocalisation.stdout";
  v_check_parameters := check_parameters;
  v_write_blocks := write_blocks;
  v_extract_results := extract_results;
  v_create_result_name := create_result_name;
  report_header :=
    "Project,Dataset,Image ID,Name,p,Method,Frame,Ch1,Ch2,Ch3,n,Area,M1,Sig,M2,Sig,R,Sig";
  subject := "[OMERO Job] Colocalisation analysis";
  v_build_parameters := build_parameters
|}.

End Colocalisation.

(** ** Correlation_Analyser.py *)

Module Correlation.

(** *** Grammar B: the correlation output *)

Definition pat_label : string := "Stack correlation [^ ]* : (\d+).ome.tif".

(** The pattern [pat_label]. *)
Definition re_label : regex :=
  lit "Stack correlation " ++ [Rep (λ c, negb (Ascii.eqb c " ")) 0 None]
    ++ lit " : " ++ [Mark; Rep is_digit 1 None; Mark; Chr dot]
    ++ lit "ome" ++ [Chr dot] ++ lit "tif".

Record state := State {
  results : gmap Z string;
  image_id : Z;
  result : list string
}.

Definition init : state := State ∅ 0 [].

(** A line matching [pat_label]: the image id [long(m.group(1))]. *)
Definition label_of (line : string) : option Z :=
  match re_match re_label line with
  | Some m => Some (long (group line m 1))
  | None => None
  end.

(** The block stored for the accumulated lines. *)
Definition block (result : list string) : string := join "" result.

(** First [if] of the loop body: within an image result. *)
Definition step_inside (st : state) (line : string) : state :=
  if negb (image_id st =? 0) then
    if startswith "t" line
    then State (results st) (image_id st) (result st ++ [line])
    else State (<[image_id st := block (result st)]> (results st)) 0 (result st)
  else st.

(** Second [if] of the loop body: look for a new result. *)
Definition step_outside (st : state) (line : string) : state :=
  if image_id st =? 0 then
    match label_of line with
    | Some id => State (results st) id [line]
    | None => st
    end
  else st.

Definition step (st : state) (line : string) : state :=
  step_outside (step_inside st line) line.

Definition loop (st : state) (lines : list string) : state :=
  foldl step st lines.

Definition finish (st : state) : gmap Z string :=
  if negb (image_id st =? 0)
  then <[image_id st := block (result st)]> (results st)
  else results st.

Definition extract_results_lines (lines : list string) : gmap Z string :=
  finish (loop init lines).

Definition extract_results (content : string) : gmap Z string :=
  extract_results_lines (readlines content).

(** The accumulated lines [acc] kept under the id [k], for the lines [L]
    of the file: a label line naming [k] followed by the rows read
    after it. *)
Definition stored (L : list string) (k : Z) (acc : list string) : Prop :=
  k ≠ 0 ∧ ∃ hdr rows, acc = hdr :: rows ∧ hdr ∈ L ∧ label_of hdr = Some k
    ∧ Forall (λ l, l ∈ L ∧ startswith "t" l = true) rows.

(** The invariant of the loop of [extract_results]. *)
Definition inv (L : list string) (st : state) : Prop :=
  (∀ k v, results st !! k = Some v → ∃ acc, v = block acc ∧ stored L k acc)
  ∧ (image_id st ≠ 0 → stored L (image_id st) (result st)).

(** *** Parameters, validation and the macro *)

Record params := {
  Data_Type : string;
  IDs : list Z;
  Method : string;
  Intersect : bool;
  Aggregate_stack : bool;
  Upload_results : bool;
  Email_results : bool;
  Email : option string
}.

Definition str_bool (b : bool) : string := if b then "True" else "False".

Definition build_parameters (p : params) : list string :=
  [ "Method           " +:+ " : " +:+ Method p;
    "Intersect        " +:+ " : " +:+ str_bool (Intersect p);
    "Aggregate z-stack" +:+ " : " +:+ str_bool (Aggregate_stack p) ].

Definition create_result_name (p : params) : string :=
  let name := ["Correlation"; Method p]
                ++ (if Intersect p then ["Intersect"] else [])
                ++ (if Aggregate_stack p then ["Aggregate"] else []) in
  join "_" name +:+ ".csv".

Definition check_parameters (images : list (option Image)) (p : params) : checked :=
  let r : checked := ([], true) in
  let r := foldl (λ r (img : option Image), r) r images in
  let r := if negb (Upload_results p) && negb (Email_results p)
           then report_error MsgNoOption r
           else r in
  r.

Definition macro_args (p : params) : string :=
  join " " (["method=" +:+ Method p]
              ++ (if Intersect p then ["intersect"] else [])
              ++ (if Aggregate_stack p then ["aggregate"] else [])).

(** The text written for one image. *)
Definition macro_block (name : string) (sizeC sizeZ sizeT : Z) (args : string) : string :=
  ln "// Stack correlation analyser macro" +:+
  ln ("open(" +:+ DQ +:+ name +:+ DQ +:+ ");") +:+
  ln ("run(" +:+ DQ +:+ "Stack to Hyperstack..." +:+ DQ +:+ ", " +:+ DQ
        +:+ "order=xyzct channels=" +:+ pretty sizeC +:+ " slices=" +:+ pretty sizeZ
        +:+ " frames=" +:+ pretty sizeT +:+ DQ +:+ ");") +:+
  ln ("run(" +:+ DQ +:+ "Stack Correlation Analyser" +:+ DQ +:+ ", " +:+ DQ
        +:+ args +:+ DQ +:+ ");") +:+
  ln "close();".

Definition image_block (p : params) (name : string) (img : Image) : string :=
  macro_block name (getSizeC img) (getSizeZ img) (getSizeT img) (macro_args p).

(** The loop of [run_imagej] over [enumerate(image_names)], from index
    [i]: the blocks written, and the exception that ended the loop, if
    any. *)
Fixpoint write_blocks_from (p : params) (images : list (option Image))
    (i : nat) (image_names : list string) : list string * option exn :=
  match image_names with
  | [] => ([], None)
  | name :: rest =>
      match images !! i with
      | None => ([], Some IndexError)
      | Some None => ([], Some AttributeError)
      | Some (Some img) =>
          let r := write_blocks_from p images (S i) rest in
          (image_block p name img :: r.1, r.2)
      end
  end.

Definition write_blocks (p : params) (images : list (option Image))
    (image_names : list string) : list string * option exn :=
  write_blocks_from p images 0 image_names.

Definition variant : Variant := {|
  v_params := params;
  p_datatype := Data_Type;
  p_ids := IDs;
  p_upload := Upload_results;
  p_email_results := Email_results;
  p_email := Email;
  macro_name := "correlate.ijm";
  stdout_name := "correlate.stdout";
  v_check_parameters := check_parameters;
  v_write_blocks := write_blocks;
  v_extract_results := extract_results;
  v_create_result_name := create_result_name;
  report_header :=
    "Project,Dataset,Image ID,Name,Frame,Channel A,Channel B,No of pixels,Overlap,Correlation";
  subject := "[OMERO Job] Correlation analysis";
  v_build_parameters := build_parameters
|}.

End Correlation.

(** The selector [c] names the channel [ch] at the 0-based index [i]:
    by its name or by its 1-based position. *)
Definition selects (c : string) (i : nat) (ch : string) : Prop :=
  ch = c ∨ pretty (i + 1)%nat = c.

(** The images of a selection that are not [None]. *)
Definition resolved (images : list (option Image)) : list Image := omap id images.

(** ** The pipeline shared by the two scripts

    [extract_images], [run_imagej], [upload_results], [create_report],
    [list_image_names], [email_results] and [run] are the same in both
    files up to the parts collected in [Variant]. *)

(** The temporary directory and the trace of events so far. *)
Record machine := Machine {
  dir_exists : bool;
  files : list string;
  trace : list event
}.

Definition start : machine := Machine false [] [].

(** Computations that change the machine and return or raise. *)
Definition M (A : Type) : Type := machine → machine * (exn + A).

Definition ret {A} (x : A) : M A := λ st, (st, inr x).
Definition raise {A} (e : exn) : M A := λ st, (st, inl e).
Definition bind {A B} (m : M A) (k : A → M B) : M B :=
  λ st, match m st with
        | (st', inr x) => k x st'
        | (st', inl e) => (st', inl e)
        end.

Notation "'let*' x ':=' m 'in' k" := (bind m (λ x, k))
  (at level 10, x name, m at level 100, k at level 200).
Notation "m >> k" := (bind m (λ _, k))
  (at level 90, right associativity).

Definition emit (e : event) : M unit :=
  λ st, (Machine (dir_exists st) (files st) (trace st ++ [e]), inr tt).

(** [open(name, 'wb')]: the file exists afterwards. *)
Definition create (name : string) : M unit :=
  λ st, (Machine (dir_exists st)
                 (if bool_decide (name ∈ files st) then files st else files st ++ [name])
                 (trace st), inr tt).

Definition unlink (name : string) : M unit :=
  λ st, (Machine (dir_exists st) (filter (λ f, f ≠ name) (files st)) (trace st), inr tt).

Definition set_dir (b : bool) : M unit :=
  λ st, (Machine b (files st) (trace st), inr tt).

Definition listdir : M (list string) := λ st, (st, inr (files st)).

(** [try: m finally: f] *)
Definition finally {A} (m : M A) (f : M unit) : M A :=
  λ st, match m st with
        | (st', r) =>
            match f st' with
            | (st'', inr _) => (st'', r)
            | (st'', inl e) => (st'', inl e)
            end
        end.

(** [try: m except e: h] *)
Definition catch {A} (e : exn) (m : M A) (h : M A) : M A :=
  λ st, match m st with
        | (st', inl e') => if bool_decide (e' = e) then h st' else (st', inl e')
        | r => r
        end.

(** [try: m except: pass] *)
Definition swallow (m : M unit) : M unit :=
  λ st, match m st with
        | (st', _) => (st', inr tt)
        end.

(** Events other than the removal of the directory. *)
Definition not_rmdir (e : event) : Prop :=
  match e with Rmdir _ => False | _ => True end.

(** A computation that leaves the directory in place and does not try to
    remove it. *)
Definition quiet {A} (m : M A) : Prop :=
  ∀ st st' r, m st = (st', r) →
    dir_exists st' = dir_exists st
    ∧ ∃ evs, trace st' = trace st ++ evs ∧ Forall not_rmdir evs.

(** A computation that, started with an empty directory, returns and
    leaves the directory empty. *)
Definition tidy {A} (m : M A) : Prop :=
  ∀ st, files st = [] → ∃ st' x, m st = (st', inr x) ∧ files st' = [].

(** A world in which no collaborator raises. *)
Definition faultless (W : World) : Prop :=
  (∀ id, export W id = Exported) ∧ (∀ f, remove_ok W f = true)
  ∧ (∀ id, attach_ok W id = true) ∧ smtp_ok W = true.

(** [result.splitlines()] *)
Fixpoint splitlines_go (cur : string) (s : string) : list string :=
  match s with
  | EmptyString => match cur with EmptyString => [] | _ => [String.rev cur] end
  | String c s' =>
      if Ascii.eqb c LF then String.rev cur :: splitlines_go "" s'
      else if Ascii.eqb c CR then
        match s' with
        | String d s'' =>
            if Ascii.eqb d LF then String.rev cur :: splitlines_go "" s''
            else String.rev cur :: splitlines_go "" s'
        | EmptyString => [String.rev cur]
        end
      else splitlines_go (String c cur) s'
  end.
Definition splitlines (s : string) : list string := splitlines_go "" s.

(** [os.path.basename(path)] *)
Fixpoint basename_go (cur : string) (s : string) : string :=
  match s with
  | EmptyString => String.rev cur
  | String c s' =>
      if Ascii.eqb c "/" then basename_go "" s' else basename_go (String c cur) s'
  end.
Definition basename (path : string) : string := basename_go "" path.

(** [x and x.getName() or '-'] *)
Definition name_or_dash (name : option string) : string :=
  if truthy name then default "" name else "-".

Definition dataset_name (img : Image) : option string := ds_name <$> getParent img.
Definition project_name (img : Image) : option string := getParent img ≫= ds_project.

Section Pipeline.

Variable V : Variant.
Variable W : World.

(** The local file of an image. *)
Definition image_file (img : Image) : string :=
  tmp_dir W +:+ "/" +:+ pretty (getId img) +:+ ".ome.tif".

(** The body of the loop of [extract_images] for an image that is not
    [None]: the export inside [try ... finally: e.close()]. The TIFF is
    read in chunks of 1000000 bytes until a chunk comes back short; the
    model keeps the outcome: the file is written, or [generateTiff]
    raises before the file is opened, or a read raises after it. *)
Definition export_image (img : Image) : M unit :=
  emit (ExporterOpen (getId img)) >>
  finally
    (match export W (getId img) with
     | Exported => create (image_file img) >> emit (Export (getId img) (image_file img))
     | GenerateFails => raise ExportError
     | ReadFails => create (image_file img) >> raise ExportError
     end)
    (emit (ExporterClose (getId img))).

(** The loop of [extract_images]; [names] are the files written so far. *)
Fixpoint export_loop (images : list (option Image)) (names : list string)
  : M (list string) :=
  match images with
  | [] => ret names
  | None :: rest => export_loop rest names
  | Some img :: rest =>
      export_image img >> export_loop rest (names ++ [image_file img])
  end.

(** [extract_images(conn, images)] *)
Definition extract_images (images : list (option Image)) : M (list string) :=
  emit (Mkdtemp (tmp_dir W)) >> set_dir true >> export_loop images [].

(** The calls of [out.write] for the blocks of the macro. *)
Fixpoint write_all (file : string) (blocks : list string) : M unit :=
  match blocks with
  | [] => ret tt
  | b :: rest => emit (Write file b) >> write_all file rest
  end.

(** [for name in names: os.remove(name)] *)
Fixpoint remove_loop (names : list string) : M unit :=
  match names with
  | [] => ret tt
  | name :: rest =>
      if remove_ok W name
      then emit (Remove name) >> unlink name >> remove_loop rest
      else raise OSError
  end.

(** The text of the macro file once the blocks are written. *)
Definition macro_text (blocks : list string) : string := foldr String.app "" blocks.

(** [run_imagej(conn, images, image_names, params)]: the macro is
    written block by block, the process is called inside
    [try ... except OSError], and the files of the directory are removed
    inside [try ... except: pass]. *)
Definition run_imagej (images : list (option Image)) (image_names : list string)
    (p : v_params V) : M (gmap Z string) :=
  match image_names with
  | [] => ret ∅
  | _ =>
      let macro_file := tmp_dir W +:+ "/" +:+ macro_name V in
      let result_file := tmp_dir W +:+ "/" +:+ stdout_name V in
      create macro_file >>
      let w := v_write_blocks V p images image_names in
      write_all macro_file w.1 >>
      match w.2 with
      | Some e => raise e
      | None =>
          let* results :=
            catch OSError
              (emit (Print (MsgCommand macro_file)) >>
               create result_file >>
               emit (Call macro_file) >>
               match imagej W (macro_text w.1) with
               | LaunchError => raise OSError
               | Exited code stdout =>
                   if negb (code =? 0)
                   then emit (PrintErr (ErrExitCode code)) >> ret ∅
                   else ret (v_extract_results V stdout)
               end)
              (emit (PrintErr ErrLaunch) >> ret ∅) in
          swallow (let* names := listdir in remove_loop names) >>
          ret results
      end
  end.

(** The body of the loop of [upload_results] for one entry of the map. *)
Definition upload_one (result_name : string) (r : Z * string) : M unit :=
  match getObject W r.1 with
  | None => ret tt
  | Some img =>
      let tmp_file := mkstemp W r.1 in
      create tmp_file >>
      if attach_ok W r.1
      then emit (Attach r.1 (pretty r.1 +:+ "." +:+ result_name) r.2) >>
           if remove_ok W tmp_file
           then emit (Remove tmp_file) >> unlink tmp_file
           else raise OSError
      else raise AnnotationError
  end.

Fixpoint upload_loop (result_name : string) (rs : list (Z * string)) : M unit :=
  match rs with
  | [] => ret tt
  | r :: rest => upload_one result_name r >> upload_loop result_name rest
  end.

(** [upload_results(conn, results, params)] *)
Definition upload_results (results : gmap Z string) (p : v_params V) : M unit :=
  if negb (p_upload V p) then ret tt
  else upload_loop (v_create_result_name V p) (map_to_list results).

(** The rows of the report for one entry of the map: the lines of the
    block after the first. *)
Definition report_rows (r : Z * string) : list string :=
  match getObject W r.1 with
  | None => []
  | Some img =>
      map (λ line,
             name_or_dash (project_name img) +:+ "," +:+
             name_or_dash (dataset_name img) +:+ "," +:+
             pretty r.1 +:+ "," +:+ basename (getName img) +:+ "," +:+ line)
          (tail (splitlines r.2))
  end.

(** [create_report(conn, results, params)] *)
Definition create_report (results : gmap Z string) : list string :=
  report_header V :: flat_map report_rows (map_to_list results).

Definition image_name_row (r : Z * string) : list string :=
  match getObject W r.1 with
  | None => []
  | Some img =>
      [ "[" +:+ name_or_dash (project_name img) +:+ "]["
          +:+ name_or_dash (dataset_name img) +:+ "] Image "
          +:+ pretty r.1 +:+ " : " +:+ basename (getName img) ]
  end.

(** [list_image_names(conn, results)] *)
Definition list_image_names (results : gmap Z string) : list string :=
  flat_map image_name_row (map_to_list results).

(** [email_results(conn, results, report, params)]: the report is
    attached when its text is not empty. *)
Definition email_results (results : gmap Z string) (report : list string)
    (p : v_params V) : M unit :=
  if negb (p_email_results V p) then ret tt
  else
    let attach_text := join (String LF "") report in
    if smtp_ok W
    then emit (Sendmail (default "" (p_email V p)) (subject V)
                        (list_image_names results) (v_build_parameters V p)
                        (if String.eqb attach_text "" then None else Some attach_text))
    else raise SMTPError.

Fixpoint print_lines (lines : list string) : M unit :=
  match lines with
  | [] => ret tt
  | l :: rest => emit (Print (MsgLine l)) >> print_lines rest
  end.

Fixpoint print_msgs (ms : list msg) : M unit :=
  match ms with
  | [] => ret tt
  | m :: rest => emit (Print m) >> print_msgs rest
  end.

(** [os.rmdir(tmp_dir)]: fails unless the directory is empty. *)
Definition rmdir : M unit :=
  emit (Rmdir (tmp_dir W)) >>
  let* names := listdir in
  match names with
  | [] => set_dir false
  | _ => raise OSError
  end.

(** The images selected by the parameters. *)
Definition select_images (p : v_params V) : list (option Image) :=
  if String.eqb (p_datatype V p) "Image"
  then getObjects W (p_ids V p)
  else flat_map (λ dsId, default [] (getDataset W dsId)) (p_ids V p).

(** The branch [if results: ... elif image_names: ...] of [run]. *)
Definition distribute (results : gmap Z string) (image_names : list string)
    (p : v_params V) : M unit :=
  if bool_decide (results ≠ ∅) then
    upload_results results p >>
    let report := create_report results in
    print_lines report >>
    email_results results report p
  else
    match image_names with
    | [] => ret tt
    | _ => emit (Print (MsgNoResults (length image_names)))
    end.

(** The steps of [run] once the parameters are accepted. *)
Definition analyse (images : list (option Image)) (p : v_params V) : M Z :=
  let* image_names := extract_images images in
  let* results := run_imagej images image_names p in
  distribute results image_names p >>
  rmdir >>
  ret (Z.of_nat (size results)).

(** [run(conn, params)] *)
Definition run (p : v_params V) : M Z :=
  emit (Print MsgParameters) >>
  match p_ids V p with
  | [] => ret (-1)
  | _ =>
      let images := select_images p in
      let c := v_check_parameters V images p in
      print_msgs c.1 >>
      if negb c.2 then ret (-1) else analyse images p
  end.

(** The events of a successful export of one image. *)
Definition export_events (img : Image) : list event :=
  [ExporterOpen (getId img); Export (getId img) (image_file img);
   ExporterClose (getId img)].

(** The files of the images that are not [None], in order. *)
Definition exported_names (images : list (option Image)) : list string :=
  image_file <$> resolved images.

(** The state in which validation ends. *)
Definition validated (p : v_params V) (st : machine) : machine :=
  Machine (dir_exists st) (files st)
    (trace st ++ Print MsgParameters
       :: (Print <$> (v_check_parameters V (select_images p) p).1)).

(** What the steps after validation leave behind: after a normal return
    the removal of the directory was the last event and the directory
    is gone; after an exception either the removal was not attempted,
    or it was the last event and it failed. *)
Definition torn_down (st' : machine) (r : exn + Z) : Prop :=
  match r with
  | inr n =>
      last (trace st') = Some (Rmdir (tmp_dir W)) ∧ dir_exists st' = false
      ∧ files st' = []
  | inl e =>
      (Forall not_rmdir (trace st') ∧ dir_exists st' = true)
      ∨ (last (trace st') = Some (Rmdir (tmp_dir W)) ∧ e = OSError
         ∧ dir_exists st' = true ∧ files st' ≠ [])
  end.

(** The map that [run_imagej] returns for the images [imgs] when no
    collaborator raises. *)
Definition expected_results (imgs : list Image) (p : v_params V) : gmap Z string :=
  match imgs with
  | [] => ∅
  | _ =>
      match imagej W (macro_text
               (v_write_blocks V p (Some <$> imgs) (image_file <$> imgs)).1) with
      | Exited code stdout => if code =? 0 then v_extract_results V stdout else ∅
      | LaunchError => ∅
      end
  end.

(** The loop that writes the macro ends without an exception when no
    image of the selection is [None]. *)
Definition macro_total : Prop :=
  ∀ (p : v_params V) (imgs : list Image),
    (v_write_blocks V p (Some <$> imgs) (image_file <$> imgs)).2 = None.

End Pipeline.

(** ** Sample data *)

Module Samples.

(** Captured output of the colocalisation plugin. *)
Definition header_a : string := ln "Image,p,Method,Frame,Ch1,Ch2,Ch3,n".
Definition row_a (id frame : string) : string :=
  ln (id +:+ ".ome.tif,0.0500,Otsu," +:+ frame +:+ ",c1,c2,None,6528").
Definition text_a (frame : string) : string :=
  "0.0500,Otsu," +:+ frame +:+ ",c1,c2,None,6528".

(** Captured output of the correlation plugin. *)
Definition label_b (id : string) : string :=
  ln ("Stack correlation (Otsu) : " +:+ id +:+ ".ome.tif").
Definition row_b (frame : string) : string :=
  ln ("t" +:+ frame +:+ ",c1,c2,21288,35.06%,0.0682").

Definition image (id : Z) (channels : list string) : Image :=
  {| getId := id; getName := "a.tif"; getChannels := channels;
     getSizeC := Z.of_nat (length channels); getSizeZ := 1; getSizeT := 1;
     getParent := Some {| ds_name := "D1"; ds_project := Some "P1" |} |}.

Definition dapi_gfp_rfp : Image := image 1 ["DAPI"; "GFP"; "RFP"].
Definition numbered : Image := image 2 ["0"; "1"; "2"].

Definition coloc_params (c1 c2 : string) : Colocalisation.params :=
  {| Colocalisation.Data_Type := "Image"; Colocalisation.IDs := [1];
     Colocalisation.Channel_1 := c1; Colocalisation.Channel_2 := c2;
     Colocalisation.Channel_3 := None; Colocalisation.Method := "Otsu";
     Colocalisation.Permutations := 100; Colocalisation.Minimum_shift := 9;
     Colocalisation.Maximum_shift := 16; Colocalisation.Significance := "0.05";
     Colocalisation.Upload_results := true; Colocalisation.Email_results := false;
     Colocalisation.Email := None |}.

Definition corr_params (ids : list Z) (upload email : bool) : Correlation.params :=
  {| Correlation.Data_Type := "Image"; Correlation.IDs := ids;
     Correlation.Method := "Otsu"; Correlation.Intersect := false;
     Correlation.Aggregate_stack := false; Correlation.Upload_results := upload;
     Correlation.Email_results := email; Correlation.Email := Some "user@example.org" |}.

(** A world holding the images [imgs]; the ImageJ process prints
    [stdout] and exits with [code]. *)
Definition world (imgs : list (option Image)) (code : Z) (stdout : string) : World :=
  {| tmp_dir := "/tmp/job";
     getObjects := λ _, imgs;
     getObject := λ id, head (filter (λ img, getId img = id) (resolved imgs));
     getDataset := λ _, None;
     export := λ _, Exported;
     imagej := λ _, Exited code stdout;
     remove_ok := λ _, true;
     mkstemp := λ id, "/tmp/job/tmp" +:+ pretty id;
     attach_ok := λ _, true;
     smtp_ok := true |}.

Definition two_images : World :=
  world [Some (image 1 ["c1"; "c2"]); Some (image 2 ["c1"; "c2"])] 0
        (label_b "1" +:+ row_b "1").

(** The same world with other failure behaviour. *)
Definition with_export (W : World) (f : Z → export_outcome) : World :=
  {| tmp_dir := tmp_dir W; getObjects := getObjects W; getObject := getObject W;
     getDataset := getDataset W; export := f; imagej := imagej W;
     remove_ok := remove_ok W; mkstemp := mkstemp W; attach_ok := attach_ok W;
     smtp_ok := smtp_ok W |}.

Definition with_remove (W : World) (f : string → bool) : World :=
  {| tmp_dir := tmp_dir W; getObjects := getObjects W; getObject := getObject W;
     getDataset := getDataset W; export := export W; imagej := imagej W;
     remove_ok := f; mkstemp := mkstemp W; attach_ok := attach_ok W;
     smtp_ok := smtp_ok W |}.

Definition with_smtp (W : World) (b : bool) : World :=
  {| tmp_dir := tmp_dir W; getObjects := getObjects W; getObject := getObject W;
     getDataset := getDataset W; export := export W; imagej := imagej W;
     remove_ok := remove_ok W; mkstemp := mkstemp W; attach_ok := attach_ok W;
     smtp_ok := b |}.

End Samples.

(** ** Notions used by the further properties *)

(** A well-formed block of Grammar B as it stands in a capture file: the
    label line of the image [cs_id], the rows, and the lines that follow
    them up to the next label line. *)
Record corr_segment := {
  cs_id : Z;
  cs_label : string;
  cs_rows : list string;
  cs_other : list string
}.

Definition cs_lines (b : corr_segment) : list string :=
  cs_label b :: cs_rows b ++ cs_other b.

Definition cs_block (b : corr_segment) : string :=
  Correlation.block (cs_label b :: cs_rows b).

Definition cs_ok (b : corr_segment) : Prop :=
  cs_id b ≠ 0 ∧ Correlation.label_of (cs_label b) = Some (cs_id b)
  ∧ Forall (λ l, startswith "t" l = true) (cs_rows b)
  ∧ Forall (λ l, Correlation.label_of l = None) (cs_other b)
  ∧ (∀ l, head (cs_other b) = Some l → startswith "t" l = false).

(** A well-formed block of Grammar A as it stands in a capture file: the
    header line with its column names, the rows with what [row_of] reads
    from them, and the lines that follow them up to the next header
    line. *)
Record coloc_segment := {
  as_header : string;
  as_columns : string;
  as_rows : list string;
  as_parsed : list (Z * string);
  as_other : list string
}.

Definition as_lines (b : coloc_segment) : list string :=
  as_header b :: as_rows b ++ as_other b.

(** The id of the last row. *)
Definition as_id (b : coloc_segment) : Z := default 0 (last (as_parsed b).*1).

Definition as_block (b : coloc_segment) : string :=
  Colocalisation.block (as_columns b :: (as_parsed b).*2).

Definition as_ok (b : coloc_segment) : Prop :=
  Colocalisation.header_of (as_header b) = Some (as_columns b)
  ∧ Forall2 (λ l p, Colocalisation.row_of l = Some p) (as_rows b) (as_parsed b)
  ∧ as_id b ≠ 0
  ∧ Forall (λ l, Colocalisation.header_of l = None) (as_other b)
  ∧ (∀ l, head (as_other b) = Some l → Colocalisation.row_of l = None).

(** Between two blocks the loop is outside a result with the id 0, or
    inside one whose last row named an image. *)
Definition as_settled (st : Colocalisation.state) : Prop :=
  if Colocalisation.extract_result st then Colocalisation.image_id st ≠ 0
  else Colocalisation.image_id st = 0.

(** A text without line breaks. *)
Fixpoint no_break (s : string) : bool :=
  match s with
  | String c s' => negb (Ascii.eqb c LF) && negb (Ascii.eqb c CR) && no_break s'
  | EmptyString => true
  end.

(** All characters of [s] satisfy [p]. *)
Fixpoint all_chars (p : ascii → bool) (s : string) : bool :=
  match s with
  | String c s' => p c && all_chars p s'
  | EmptyString => true
  end.

(** The first [n] characters of [s]. *)
Fixpoint take_chars (n : nat) (s : string) : string :=
  match n, s with
  | S n', String c s' => String c (take_chars n' s')
  | _, _ => ""
  end.

(** The least number of characters a match of [r] takes. *)
Fixpoint min_length (r : regex) : nat :=
  match r with
  | [] => 0
  | Chr _ :: r' => S (min_length r')
  | Rep _ lo _ :: r' => lo + min_length r'
  | Mark :: r' | Eol :: r' => min_length r'
  end.

(** A computation all of whose events satisfy [P]. *)
Definition emits {A} (P : event → Prop) (m : M A) : Prop :=
  ∀ st st' r, m st = (st', r) → ∃ evs, trace st' = trace st ++ evs ∧ Forall P evs.

(** The events a run with the parameters [p] may leave: results are
    attached and mailed only when asked for, an attachment goes to an
    image that exists and is named after the image id and the result
    name, mail goes to the address of the parameters, and the directory
    made and removed is the temporary one. *)
Definition permitted (V : Variant) (W : World) (p : v_params V) (e : event) : Prop :=
  match e with
  | Attach id name text =>
      p_upload V p = true ∧ is_Some (getObject W id)
      ∧ name = pretty id +:+ "." +:+ v_create_result_name V p
  | Sendmail recipient subj names parameters attachment =>
      p_email_results V p = true ∧ recipient = default "" (p_email V p)
      ∧ subj = subject V ∧ parameters = v_build_parameters V p
  | Mkdtemp dir | Rmdir dir => dir = tmp_dir W
  | _ => True
  end.

(** The events of the upload of one entry of the map when no call
    fails. *)
Definition upload_events (W : World) (result_name : string) (r : Z * string)
  : list event :=
  match getObject W r.1 with
  | Some _ => [Attach r.1 (pretty r.1 +:+ "." +:+ result_name) r.2;
               Remove (mkstemp W r.1)]
  | None => []
  end.

(** ** The entry point [run_as_script]

    The parameters [p] are the defaults of the script with the inputs of
    the client stored over them; [profile_email] is the address of the
    profile of the user, if any. What the script does with the client is
    kept as a list of events. *)

Inductive client_event : Type :=
| SetOutput (message : string)     (* client.setOutput("Message", rstring(message)) *)
| CloseSession.                    (* client.closeSession() *)

#[global] Instance client_event_eq_dec : EqDecision client_event.
Proof. solve_decision. Defined.

(** ["Processed %d image%s" % (count, count != 1 and 's' or '')] *)
Definition processed_message (count : Z) : string :=
  "Processed " +:+ pretty count +:+ " image"
    +:+ (if bool_decide (count ≠ 1) then "s" else "").

Definition errors_message : string :=
  "Errors found in the input parameters. Check the Info file.".

Definition no_email_message : string := "No valid email address".

Section Script.

Variable V : Variant.
Variable W : World.
(** [params[PARAM_EMAIL] = userEmail] *)
Variable set_email : string → v_params V → v_params V.
Variable profile_email : option string.

(** The parameters that reach [run]: [validate_email] is called when the
    results are to be mailed, and only then, and it stores the address it
    checked in the parameters. *)
Definition script_params (p : v_params V) : v_params V :=
  if p_email_results V p
  then set_email (Email.validate_email profile_email (p_email V p)).1 p
  else p.

(** The body of the [try] of [run_as_script]. *)
Definition script_body (p : v_params V) (st : machine)
  : machine * list client_event * (exn + unit) :=
  if p_email_results V p && negb (Email.validate_email profile_email (p_email V p)).2
  then (st, [SetOutput no_email_message], inr tt)
  else
    match run V W (script_params p) st with
    | (st', inr count) =>
        (st', [SetOutput (if 0 <=? count then processed_message count
                          else errors_message)], inr tt)
    | (st', inl e) => (st', [], inl e)
    end.

(** [run_as_script()]: the body, and the session closed in the
    [finally]. *)
Definition run_as_script (p : v_params V) (st : machine)
  : machine * list client_event * (exn + unit) :=
  let r := script_body p st in
  (r.1.1, r.1.2 ++ [CloseSession], r.2).

(** Every mail the script sends goes to an address that
    [validate_email] accepted for the parameters [p]. *)
Definition mails_validated (p : v_params V) (st : machine) : Prop :=
  ∀ evs, trace (run_as_script p st).1.1 = trace st ++ evs →
    ∀ recipient subj names parameters attachment,
      Sendmail recipient subj names parameters attachment ∈ evs →
      p_email_results V p = true
      ∧ Email.validate_email profile_email (p_email V p) = (recipient, true).

End Script.

Definition coloc_set_email (a : string) (p : Colocalisation.params)
  : Colocalisation.params :=
  {| Colocalisation.Data_Type := Colocalisation.Data_Type p;
     Colocalisation.IDs := Colocalisation.IDs p;
     Colocalisation.Channel_1 := Colocalisation.Channel_1 p;
     Colocalisation.Channel_2 := Colocalisation.Channel_2 p;
     Colocalisation.Channel_3 := Colocalisation.Channel_3 p;
     Colocalisation.Method := Colocalisation.Method p;
     Colocalisation.Permutations := Colocalisation.Permutations p;
     Colocalisation.Minimum_shift := Colocalisation.Minimum_shift p;
     Colocalisation.Maximum_shift := Colocalisation.Maximum_shift p;
     Colocalisation.Significance := Colocalisation.Significance p;
     Colocalisation.Upload_results := Colocalisation.Upload_results p;
     Colocalisation.Email_results := Colocalisation.Email_results p;
     Colocalisation.Email := Some a |}.

Definition corr_set_email (a : string) (p : Correlation.params) : Correlation.params :=
  {| Correlation.Data_Type := Correlation.Data_Type p;
     Correlation.IDs := Correlation.IDs p;
     Correlation.Method := Correlation.Method p;
     Correlation.Intersect := Correlation.Intersect p;
     Correlation.Aggregate_stack := Correlation.Aggregate_stack p;
     Correlation.Upload_results := Correlation.Upload_results p;
     Correlation.Email_results := Correlation.Email_results p;
     Correlation.Email := Some a |}.

(** [run_as_script] of Colocalisation_Analyser.py and of
    Correlation_Analyser.py. *)
Definition coloc_run_as_script (W : World) (profile_email : option string) :=
  run_as_script Colocalisation.variant W coloc_set_email profile_email.

Definition corr_run_as_script (W : World) (profile_email : option string) :=
  run_as_script Correlation.variant W corr_set_email profile_email.

(** ** Image_Size.py and Check_Images.py: byte counts in words

    The two scripts share [bytes_per_pixel], [convert_readable],
    [partition_number], [format_bytes] and [format_suffix]. A Python
    exception is a value of [failure]. *)

Module Bytes.

Inductive failure : Type :=
| UnknownPixelType (pixel_type : string)   (* Exception("Unknown pixel type: ...") *)
| AssertionError                           (* assert ..., 'number out of range' *)
| PrefixIndexError.                        (* PREFIX[power]: list index out of range *)

(** [bytes_per_pixel(pixel_type)] *)
Definition bytes_per_pixel (pixel_type : string) : failure + Z :=
  if String.eqb pixel_type "int8" || String.eqb pixel_type "uint8" then inr 1
  else if String.eqb pixel_type "int16" || String.eqb pixel_type "uint16" then inr 2
  else if String.eqb pixel_type "int32" || String.eqb pixel_type "uint32"
          || String.eqb pixel_type "float" then inr 4
  else if String.eqb pixel_type "double" then inr 8
  else inl (UnknownPixelType pixel_type).

(** The loop [while div: div, mod = divmod(div, base); yield mod] of
    [partition_number]: the values it yields. For a quotient that is not
    negative and a base of 2 or more the loop halves the quotient at
    least, so it ends within as many rounds as the quotient has binary
    digits; [fuel] is that bound. *)
Fixpoint partition_loop (fuel : nat) (div base : Z) : list Z :=
  match fuel with
  | O => []
  | S fuel' =>
      if div =? 0 then []
      else (div mod base) :: partition_loop fuel' (div / base) base
  end.

(** [partition_number(number, base)]: the values the generator yields,
    the remainder of the lowest power first. *)
Definition partition_number (number base : Z) : list Z :=
  (number mod base) :: partition_loop (Z.to_nat (Z.log2 number)) (number / base) base.

(** [' kilo mega giga tera peta exa zetta yotta bronto geop'.split(' ')] *)
Definition PREFIX : list string :=
  [""; "kilo"; "mega"; "giga"; "tera"; "peta"; "exa"; "zetta"; "yotta"; "bronto"; "geop"].

Definition upper (c : ascii) : ascii :=
  let n := nat_of_ascii c in
  if (97 <=? n)%nat && (n <=? 122)%nat then ascii_of_nat (n - 32) else c.

Definition lower (c : ascii) : ascii :=
  let n := nat_of_ascii c in
  if (65 <=? n)%nat && (n <=? 90)%nat then ascii_of_nat (n + 32) else c.

Fixpoint lower_all (s : string) : string :=
  match s with
  | String c s' => String (lower c) (lower_all s')
  | EmptyString => EmptyString
  end.

(** [s.capitalize()] *)
Definition capitalize (s : string) : string :=
  match s with
  | String c s' => String (upper c) (lower_all s')
  | EmptyString => EmptyString
  end.

(** [format_suffix(power, number)] *)
Definition format_suffix (power : nat) (number : Z) : failure + string :=
  match PREFIX !! power with
  | None => inl PrefixIndexError
  | Some prefix =>
      inr (capitalize (prefix +:+ "byte") +:+ (if number =? 1 then "" else "s"))
  end.

(** [format_bytes(parts)], for the parts from the index [power] on:
    the texts the generator yields when it is run to its end. *)
Fixpoint format_bytes_from (power : nat) (parts : list Z) : failure + list string :=
  match parts with
  | [] => inr []
  | number :: rest =>
      match format_suffix power number with
      | inl e => inl e
      | inr suffix =>
          match format_bytes_from (S power) rest with
          | inl e => inl e
          | inr items => inr ((pretty number +:+ " " +:+ suffix) :: items)
          end
      end
  end.

Definition format_bytes (parts : list Z) : failure + list string :=
  format_bytes_from 0 parts.

(** [item[0] != '0'] *)
Definition starts_nonzero (item : string) : bool :=
  match item with
  | String c _ => negb (Ascii.eqb c "0")
  | EmptyString => false
  end.

(** The loop of [convert_readable] over [ordered], with the current
    [count]: the items appended to [data]. *)
Fixpoint select_items (verbosity count : Z) (ordered : list string) : list string :=
  match ordered with
  | [] => []
  | item :: rest =>
      if starts_nonzero item
      then item :: (if verbosity <=? count then []
                    else select_items verbosity (count + 1) rest)
      else select_items verbosity count rest
  end.

(** [convert_readable(number, verbosity, raw_bytes)] *)
Definition convert_readable (number verbosity : Z) (raw_bytes : bool) : failure + string :=
  if raw_bytes
  then inr (pretty number +:+ " Byte" +:+ (if number =? 1 then "" else "s"))
  else if number =? 0 then inr "0 Bytes"
  else
    let negative := if number <? 0 then "-" else "" in
    let number := if number <? 0 then - number else number in
    if (0 <? number) && (number <? 2 ^ 110) then
      match format_bytes (partition_number number (2 ^ 10)) with
      | inl e => inl e
      | inr items =>
          inr (negative +:+ join ", " (select_items verbosity 0 (rev items)))
      end
    else inl AssertionError.

(** The number the parts stand for: the part of index [i] counts
    [base ^ i]. *)
Definition unpartition (base : Z) (parts : list Z) : Z :=
  foldr (λ part acc, part + base * acc) 0 parts.

(** Whether the decimal text of [n] starts with the digit 0 exactly when
    [n] is 0. *)
Definition head_check (n : nat) : bool :=
  match pretty (Z.of_nat n) with
  | String c _ => Bool.eqb (negb (Ascii.eqb c "0")) (negb (Z.of_nat n =? 0))
  | EmptyString => false
  end.

End Bytes.

(** ** Image_Size.py: the byte size of the selected images

    [conn.getObjects] yields wrappers of the objects found, never
    [None]; the model takes the images as they come from the server. The
    rows of [PixelsOriginalFileMap] that the query of [process_image]
    finds for an image are kept with the image, as the id and the size of
    the original file of each row. *)

Module ImageSize.

Import Bytes.

Record SizedImage := {
  image : Image;
  getSizeX : Z;
  getSizeY : Z;
  getPixelsType : string;
  getArchived : bool;
  original_files : list (Z * Z)      (* id and size of the parent of each row *)
}.

Record params := {
  Data_Type : string;
  IDs : option (list Z);             (* absent: [params.get(PARAM_IDS, [0])] *)
  All_Images : bool;
  Readable_Bytes : bool;
  Include_Archived : bool
}.

Record Server := {
  all_images : list SizedImage;                   (* conn.getObjects('Image') *)
  images_of : list Z → list SizedImage;           (* conn.getObjects('Image', ids) *)
  datasets_of : list Z → list (list SizedImage);  (* the children of each dataset found *)
  grouped : Z → string                            (* locale.format('%d', number, True) *)
}.

(** [number != 1 and 's' or ''] *)
Definition plural (number : Z) : string := if number =? 1 then "" else "s".

(** [convert_raw(number)] *)
Definition convert_raw (S : Server) (number : Z) : string :=
  grouped S number +:+ " Byte" +:+ plural number.

(** The global [convert] that [run] sets. *)
Definition convert (S : Server) (p : params) (number : Z) : failure + string :=
  if Readable_Bytes p then convert_readable number 100 false
  else inr (convert_raw S number).

(** The raw byte size of an image. *)
Definition image_bytes (img : SizedImage) : failure + Z :=
  match bytes_per_pixel (getPixelsType img) with
  | inl e => inl e
  | inr b =>
      inr (getSizeX img * getSizeY img * getSizeC (image img) * getSizeZ (image img)
           * getSizeT (image img) * b)
  end.

(** The sum of the sizes of the original files: [archive_bytes] after the
    loop over the rows. *)
Definition archive_size (img : SizedImage) : Z :=
  foldl (λ acc r, acc + r.2) 0 (original_files img).

(** What [process_image] hands back: the line it prints, the byte
    counts, and the global dictionary [original_ids]. *)
Record processed := {
  line : string;
  bytes : Z;
  archive_bytes : Z;
  ids_after : gset Z
}.

(** [process_image(conn, img, params)] with the global [original_ids]. *)
Definition process_image (S : Server) (p : params) (img : SizedImage)
    (original_ids : gset Z) : failure + processed :=
  match image_bytes img with
  | inl e => inl e
  | inr size =>
      match convert S p size with
      | inl e => inl e
      | inr text =>
          let msg := "Image " +:+ pretty (getId (image img)) +:+ " : ["
                       +:+ name_or_dash (project_name (image img)) +:+ "]["
                       +:+ name_or_dash (dataset_name (image img)) +:+ "] "
                       +:+ getName (image img) +:+ " : " +:+ text in
          if Include_Archived p && getArchived img then
            match last (original_files img) with
            | Some origFile =>
                match convert S p (archive_size img) with
                | inl e => inl e
                | inr archive_text =>
                    let msg := msg +:+ " : Archive ID [" +:+ pretty origFile.1 +:+ "] "
                                 +:+ archive_text in
                    if bool_decide (origFile.1 ∈ original_ids)
                    then inr {| line := msg; bytes := size; archive_bytes := 0;
                                ids_after := original_ids |}
                    else inr {| line := msg; bytes := size;
                                archive_bytes := archive_size img;
                                ids_after := {[ origFile.1 ]} ∪ original_ids |}
                end
            | None =>
                inr {| line := msg +:+ " : Archive unknown"; bytes := size;
                       archive_bytes := 0; ids_after := original_ids |}
            end
          else inr {| line := msg; bytes := size; archive_bytes := 0;
                      ids_after := original_ids |}
      end
  end.

(** [[x for x in images if x.id not in seen and not seen.add(x.id)]] *)
Fixpoint remove_duplicates (seen : gset Z) (images : list SizedImage)
  : list SizedImage :=
  match images with
  | [] => []
  | x :: rest =>
      if bool_decide (getId (image x) ∈ seen) then remove_duplicates seen rest
      else x :: remove_duplicates ({[ getId (image x) ]} ∪ seen) rest
  end.

(** The images [run] works on. *)
Definition selected (S : Server) (p : params) : list SizedImage :=
  if All_Images p then all_images S
  else
    let ids := default [0] (IDs p) in
    remove_duplicates ∅
      (if String.eqb (Data_Type p) "Dataset" then concat (datasets_of S ids)
       else images_of S ids).

(** The counters of the loop of [run]. *)
Record totals := {
  count : Z;
  total : Z;
  total_archived : Z
}.

(** The loop of [run] over the images: the lines printed, and the
    counters at its end or the exception that ended it. *)
Fixpoint size_loop (S : Server) (p : params) (images : list SizedImage)
    (original_ids : gset Z) (t : totals) : list string * (failure + totals) :=
  match images with
  | [] => ([], inr t)
  | img :: rest =>
      match process_image S p img original_ids with
      | inl e => ([], inl e)
      | inr r =>
          let t' := if 0 <? bytes r
                    then {| count := count t + 1; total := total t + bytes r;
                            total_archived := total_archived t + archive_bytes r |}
                    else t in
          let out := size_loop S p rest (ids_after r) t' in
          (line r :: out.1, out.2)
      end
  end.

Definition rule : string := "-=-=-=-".

(** [run(conn, params)]: the lines printed and the result. *)
Definition run (S : Server) (p : params) : list string * (failure + totals) :=
  let images := selected S p in
  let n := Z.of_nat (length images) in
  let out := size_loop S p images ∅ {| count := 0; total := 0; total_archived := 0 |} in
  (("Processing " +:+ pretty n +:+ " image" +:+ plural n) :: rule :: out.1
     ++ match out.2 with
        | inr t => if count t =? 0 then [] else [rule]
        | inl _ => []
        end,
   out.2).

(** The bytes of the images that count: those above 0. *)
Definition counted (sizes : list Z) : list Z := filter (λ b, 0 < b) sizes.

Definition sum_sizes (l : list Z) : Z := foldr Z.add 0 l.

(** The sum of [size] over the ids of a set. *)
Definition sum_over (size : Z → Z) (ids : gset Z) : Z :=
  sum_sizes (size <$> elements ids).

(** An image with a positive byte size that was archived from the one
    original file [file], of the size [size file]. *)
Definition single_source (size : Z → Z) (img : SizedImage) (file : Z) : Prop :=
  getArchived img = true ∧ original_files img = [(file, size file)]
  ∧ ∃ b, image_bytes img = inr b ∧ 0 < b.

End ImageSize.

(** Sample data: two images archived from the same original file, the
    first of which is selected twice. *)
Module SizeSamples.

Import ImageSize.

Definition plane (id : Z) (pixels : string) : SizedImage :=
  {| image := Samples.image id ["c1"];
     getSizeX := 512; getSizeY := 512; getPixelsType := pixels;
     getArchived := true; original_files := [(5, 1000)] |}.

Definition server : Server :=
  {| all_images := [plane 1 "uint8"; plane 2 "uint16"];
     images_of := λ ids, (λ id, plane id (if id =? 1 then "uint8" else "uint16")) <$> ids;
     datasets_of := λ _, [];
     grouped := pretty |}.

Definition by_ids (ids : list Z) : params :=
  {| Data_Type := "Image"; IDs := Some ids; All_Images := false;
     Readable_Bytes := true; Include_Archived := true |}.

(** The image 1 is selected twice. *)
Definition twice : params := by_ids [1; 2; 1].

End SizeSamples.


(** * Properties *)

(** ** The patterns *)

Lemma re_run_first_char c r s pos m :
  re_run (chr c :: r) s pos = Some m → ∃ s', s = String c s'.
Proof.
  destruct s as [|d s']; simpl; [done|].
  destruct (Ascii.eqb c d) eqn:E; [|done].
  apply Ascii.eqb_eq in E as ->. eauto.
Qed.

Lemma coloc_header_not_row line columns :
  Colocalisation.header_of line = Some columns → Colocalisation.row_of line = None.
Proof.
  unfold Colocalisation.header_of, Colocalisation.row_of, re_match.
  destruct (re_run Colocalisation.re_header line 0) as [m|] eqn:E; [|done].
  intros _. apply re_run_first_char in E as [s' ->]. reflexivity.
Qed.

Lemma corr_label_not_row line id :
  Correlation.label_of line = Some id → startswith "t" line = false.
Proof.
  unfold Correlation.label_of, re_match.
  destruct (re_run Correlation.re_label line 0) as [m|] eqn:E; [|done].
  intros _. apply re_run_first_char in E as [s' ->]. reflexivity.
Qed.

(** ** Grammar A *)

Module GrammarA.
Import Colocalisation.

Lemma a_step_append st line id text :
  extract_result st = true → row_of line = Some (id, text) →
  step st line = State (results st) true id (result st ++ [text]).
Proof.
  intros Hin Hrow. unfold step, step_inside. by rewrite Hin, Hrow.
Qed.

Lemma a_step_flush st line :
  extract_result st = true → row_of line = None →
  step st line =
    match header_of line with
    | Some columns =>
        State (<[image_id st := block (result st)]> (results st)) true 0 [columns]
    | None =>
        State (<[image_id st := block (result st)]> (results st)) false 0 (result st)
    end.
Proof.
  intros Hin Hrow. unfold step, step_inside. rewrite Hin, Hrow.
  unfold step_outside. simpl. by destruct (header_of line).
Qed.

Lemma a_step_scan st line :
  extract_result st = false →
  step st line =
    match header_of line with
    | Some columns => State (results st) true (image_id st) [columns]
    | None => st
    end.
Proof.
  intros Hout. unfold step, step_inside. rewrite Hout.
  unfold step_outside. by rewrite Hout.
Qed.

Lemma a_loop_app st l1 l2 : loop st (l1 ++ l2) = loop (loop st l1) l2.
Proof. apply foldl_app. Qed.

Lemma a_loop_cons st l ls : loop st (l :: ls) = loop (step st l) ls.
Proof. done. Qed.

Lemma a_outside_zero_step st line : outside_zero st → outside_zero (step st line).
Proof.
  intros Hz. destruct (extract_result st) eqn:Hin.
  - destruct (row_of line) as [[id text]|] eqn:Hrow.
    + by rewrite (a_step_append _ _ id text).
    + rewrite a_step_flush by done. by destruct (header_of line).
  - rewrite a_step_scan by done. destruct (header_of line); [done|].
    by intros _; apply Hz.
Qed.

Lemma a_outside_zero_loop ls : ∀ st, outside_zero st → outside_zero (loop st ls).
Proof.
  induction ls as [|l ls IH]; intros st Hz; [done|].
  rewrite a_loop_cons. auto using a_outside_zero_step.
Qed.

Lemma a_outside_zero_init : outside_zero init.
Proof. done. Qed.

(** A header line opens a block whatever the state before it. *)
Lemma a_step_header st line columns :
  outside_zero st → header_of line = Some columns →
  ∃ r, step st line = State r true 0 [columns].
Proof.
  intros Hz Hh. destruct (extract_result st) eqn:Hin.
  - rewrite a_step_flush, Hh by eauto using coloc_header_not_row. eauto.
  - rewrite a_step_scan, Hh by done. rewrite Hz by done. eauto.
Qed.

Lemma a_loop_rows rows : ∀ parsed r id acc,
  Forall2 (λ l p, row_of l = Some p) rows parsed →
  loop (State r true id acc) rows
  = State r true (default id (last parsed.*1)) (acc ++ parsed.*2).
Proof.
  induction rows as [|l rows IH]; intros parsed r id acc Hrows.
  - apply Forall2_nil_inv_l in Hrows as ->. simpl. by rewrite app_nil_r.
  - apply Forall2_cons_inv_l in Hrows as ([id' text] & parsed' & Hrow & Hrows & ->).
    rewrite a_loop_cons, (a_step_append _ _ id' text) by done. simpl.
    rewrite (IH parsed') by done. rewrite <- app_assoc. simpl.
    rewrite last_cons. by destruct (last _).
Qed.

(** Lines that carry no row of [id] leave the entry of [id] alone. *)
Lemma a_step_keeps id v st line :
  id ≠ 0 → (∀ text, row_of line ≠ Some (id, text)) →
  results st !! id = Some v → image_id st ≠ id →
  results (step st line) !! id = Some v ∧ image_id (step st line) ≠ id.
Proof.
  intros Hnz Hl Hv Hid. destruct (extract_result st) eqn:Hin.
  - destruct (row_of line) as [[id' text]|] eqn:Hrow.
    + rewrite (a_step_append _ _ id' text) by done. simpl. split; [done|].
      intros ->. by eapply Hl.
    + rewrite a_step_flush by done.
      destruct (header_of line); simpl; by rewrite lookup_insert_ne.
  - rewrite a_step_scan by done. by destruct (header_of line).
Qed.

Lemma a_loop_keeps id v lines : ∀ st,
  id ≠ 0 → Forall (λ l, ∀ text, row_of l ≠ Some (id, text)) lines →
  results st !! id = Some v → image_id st ≠ id →
  finish (loop st lines) !! id = Some v.
Proof.
  induction lines as [|l ls IH]; intros st Hnz Hls Hv Hid.
  - simpl. unfold finish. destruct (image_id st =? 0); simpl; [done|].
    by rewrite lookup_insert_ne.
  - rewrite a_loop_cons. inversion Hls; subst.
    destruct (a_step_keeps id v st l) as [? ?]; auto.
Qed.

(** The last block whose final row names [id] is the one stored for [id]. *)
Lemma a_last_block_wins pre hdr columns rows parsed rest id :
  id ≠ 0 →
  header_of hdr = Some columns →
  Forall2 (λ l p, row_of l = Some p) rows parsed →
  last parsed.*1 = Some id →
  head rest ≫= row_of = None →
  Forall (λ l, ∀ text, row_of l ≠ Some (id, text)) rest →
  extract_results_lines (pre ++ hdr :: rows ++ rest) !! id
  = Some (block (columns :: parsed.*2)).
Proof.
  intros Hnz Hh Hrows Hlast Hhead Hrest. unfold extract_results_lines.
  rewrite a_loop_app, a_loop_cons.
  destruct (a_step_header (loop init pre) hdr columns) as [r ->];
    [apply a_outside_zero_loop, a_outside_zero_init|done|].
  rewrite a_loop_app, (a_loop_rows rows parsed) by done. rewrite Hlast. simpl.
  destruct rest as [|l rest'].
  - simpl. unfold finish. simpl. apply Z.eqb_neq in Hnz as ->. simpl.
    by rewrite lookup_insert_eq.
  - simpl in Hhead. rewrite a_loop_cons.
    inversion Hrest as [|? ? Hl1 Hl2]; subst.
    rewrite a_step_flush by done. simpl.
    destruct (header_of l) as [k|] eqn:E;
      (apply a_loop_keeps; simpl; [done|done|apply lookup_insert_eq|done]).
Qed.

Lemma a_inv_init L : inv L init.
Proof. split_and!; [done| |done]. intros k v. simpl. by rewrite lookup_empty. Qed.

Lemma a_inv_step L st line : line ∈ L → inv L st → inv L (step st line).
Proof.
  intros HL (Hz & Hres & Hopen).
  split; [by apply a_outside_zero_step|].
  destruct (extract_result st) eqn:Hin.
  - specialize (Hopen eq_refl).
    assert (∀ k v, <[image_id st:=block (result st)]> (results st) !! k = Some v →
                   ∃ acc, v = block acc ∧ stored L k acc) as Hres'.
    { intros k v. rewrite lookup_insert. case_decide; subst; [|by auto].
      intros [= <-]. eauto. }
    destruct (row_of line) as [[id text]|] eqn:Hrow.
    + rewrite (a_step_append _ _ id text) by done. split; [done|]. simpl. intros _.
      destruct Hopen as (hdr & columns & parsed & -> & ? & ? & ? & ?).
      exists hdr, columns, (parsed ++ [(id, text)]).
      rewrite !fmap_app. simpl. rewrite last_snoc. split_and!; try done.
      apply Forall_app. split; [done|]. constructor; [|done]. eauto.
    + rewrite a_step_flush by done. destruct (header_of line) as [c|] eqn:E.
      * split; [done|]. simpl. intros _. exists line, c, []. by split_and!.
      * split; [done|]. done.
  - rewrite a_step_scan by done. destruct (header_of line) as [c|] eqn:E.
    + split; [done|]. simpl. intros _. rewrite Hz by done.
      exists line, c, []. by split_and!.
    + split; [done|]. simpl. by rewrite Hin.
Qed.

Lemma a_inv_loop L ls : ∀ st, (∀ l, l ∈ ls → l ∈ L) → inv L st → inv L (loop st ls).
Proof.
  induction ls as [|l ls IH]; intros st Hsub Hinv; [done|].
  rewrite a_loop_cons. apply IH.
  - intros l' ?. apply Hsub. by right.
  - apply a_inv_step; [|done]. apply Hsub. by left.
Qed.

Lemma a_extract_stored lines k v :
  extract_results_lines lines !! k = Some v →
  ∃ acc, v = block acc ∧ stored lines k acc.
Proof.
  unfold extract_results_lines, finish.
  destruct (a_inv_loop lines lines init) as (Hz & Hres & Hopen); [done|apply a_inv_init|].
  destruct (image_id (loop init lines) =? 0) eqn:E; simpl; [by auto|].
  apply Z.eqb_neq in E. rewrite lookup_insert. case_decide; subst; [|by auto].
  intros [= <-]. eexists; split; [done|]. apply Hopen.
  destruct (extract_result (loop init lines)) eqn:Hin; [done|].
  by specialize (Hz Hin).
Qed.

(** At the end of the file a known image id means an open accumulator. *)
Lemma a_eof_open lines :
  image_id (loop init lines) ≠ 0 → extract_result (loop init lines) = true.
Proof.
  intros Hid. pose proof (a_outside_zero_loop lines init a_outside_zero_init) as Hz.
  destruct (extract_result (loop init lines)) eqn:Hin; [done|]. by specialize (Hz Hin).
Qed.
End GrammarA.

(** ** Grammar B *)

Module GrammarB.
Import Correlation.

Lemma b_step_append st line :
  image_id st ≠ 0 → startswith "t" line = true →
  step st line = State (results st) (image_id st) (result st ++ [line]).
Proof.
  intros Hid Ht. unfold step, step_inside.
  apply Z.eqb_neq in Hid. rewrite Hid, Ht. simpl.
  unfold step_outside. simpl. by rewrite Hid.
Qed.

Lemma b_step_flush st line :
  image_id st ≠ 0 → startswith "t" line = false →
  step st line =
    match label_of line with
    | Some id => State (<[image_id st := block (result st)]> (results st)) id [line]
    | None => State (<[image_id st := block (result st)]> (results st)) 0 (result st)
    end.
Proof.
  intros Hid Ht. unfold step, step_inside.
  apply Z.eqb_neq in Hid. rewrite Hid, Ht. simpl.
  unfold step_outside. simpl. by destruct (label_of line).
Qed.

Lemma b_step_scan st line :
  image_id st = 0 →
  step st line =
    match label_of line with
    | Some id => State (results st) id [line]
    | None => st
    end.
Proof.
  intros Hid. unfold step, step_inside. rewrite Hid. simpl.
  unfold step_outside. by rewrite Hid.
Qed.

Lemma b_loop_app st l1 l2 : loop st (l1 ++ l2) = loop (loop st l1) l2.
Proof. apply foldl_app. Qed.

Lemma b_loop_cons st l ls : loop st (l :: ls) = loop (step st l) ls.
Proof. done. Qed.

(** A label line opens a block whatever the state before it. *)
Lemma b_step_label st line id :
  label_of line = Some id →
  ∃ r, step st line = State r id [line].
Proof.
  intros Hl. destruct (decide (image_id st = 0)) as [H0|H0].
  - rewrite b_step_scan, Hl by done. eauto.
  - rewrite b_step_flush, Hl by eauto using corr_label_not_row. eauto.
Qed.

Lemma b_loop_rows r id acc rows :
  id ≠ 0 → Forall (λ l, startswith "t" l = true) rows →
  loop (State r id acc) rows = State r id (acc ++ rows).
Proof.
  intros Hid Hrows. revert acc.
  induction Hrows as [|l rows Hl _ IH]; intros acc.
  - simpl. by rewrite app_nil_r.
  - rewrite b_loop_cons, b_step_append by done. simpl.
    rewrite IH. by rewrite <- app_assoc.
Qed.

(** Lines that carry no label for [id] leave the entry of [id] alone. *)
Lemma b_step_keeps id v st line :
  id ≠ 0 → label_of line ≠ Some id →
  results st !! id = Some v → image_id st ≠ id →
  results (step st line) !! id = Some v ∧ image_id (step st line) ≠ id.
Proof.
  intros Hnz Hl Hv Hid.
  destruct (decide (image_id st = 0)) as [H0|H0].
  - rewrite b_step_scan by done. destruct (label_of line) as [k|] eqn:E; simpl; [|done].
    split; [done|]. congruence.
  - destruct (startswith "t" line) eqn:Ht.
    + rewrite b_step_append by done. done.
    + rewrite b_step_flush by done.
      destruct (label_of line) as [k|] eqn:E; simpl;
        rewrite lookup_insert_ne by done; split; try done; congruence.
Qed.

Lemma b_loop_keeps id v lines : ∀ st,
  id ≠ 0 → Forall (λ l, label_of l ≠ Some id) lines →
  results st !! id = Some v → image_id st ≠ id →
  finish (loop st lines) !! id = Some v.
Proof.
  induction lines as [|l ls IH]; intros st Hnz Hls Hv Hid.
  - simpl. unfold finish. destruct (image_id st =? 0); simpl; [done|].
    by rewrite lookup_insert_ne.
  - rewrite b_loop_cons. inversion Hls; subst.
    destruct (b_step_keeps id v st l) as [? ?]; auto.
Qed.

(** The last block labelled [id] is the one stored for [id]. *)
Lemma b_last_block_wins pre hdr rows rest id :
  id ≠ 0 →
  label_of hdr = Some id →
  Forall (λ l, startswith "t" l = true) rows →
  head rest ≫= (λ l, if startswith "t" l then Some l else None) = None →
  Forall (λ l, label_of l ≠ Some id) rest →
  extract_results_lines (pre ++ hdr :: rows ++ rest) !! id = Some (block (hdr :: rows)).
Proof.
  intros Hnz Hl Hrows Hhead Hrest. unfold extract_results_lines.
  rewrite b_loop_app, b_loop_cons.
  destruct (b_step_label (loop init pre) hdr id Hl) as [r ->].
  rewrite b_loop_app, b_loop_rows by done. simpl app.
  destruct rest as [|l rest'].
  - simpl. unfold finish. simpl. apply Z.eqb_neq in Hnz as ->. simpl.
    by rewrite lookup_insert_eq.
  - simpl in Hhead. destruct (startswith "t" l) eqn:Ht; [done|].
    rewrite b_loop_cons. inversion Hrest as [|? ? Hl1 Hl2]; subst.
    rewrite b_step_flush by done. simpl.
    destruct (label_of l) as [k|] eqn:E.
    + apply b_loop_keeps; simpl; [done|done|apply lookup_insert_eq|congruence].
    + apply b_loop_keeps; simpl; [done|done|apply lookup_insert_eq|done].
Qed.

Lemma b_inv_init L : inv L init.
Proof. split; [|done]. intros k v. simpl. by rewrite lookup_empty. Qed.

Lemma b_inv_step L st line : line ∈ L → inv L st → inv L (step st line).
Proof.
  intros HL [Hres Hopen].
  destruct (decide (image_id st = 0)) as [H0|H0].
  - rewrite b_step_scan by done. destruct (label_of line) as [k|] eqn:E; [|done].
    split; [done|]. simpl. intros Hk. split; [done|]. exists line, []. eauto.
  - specialize (Hopen H0).
    assert (∀ k v, <[image_id st:=block (result st)]> (results st) !! k = Some v →
                   ∃ acc, v = block acc ∧ stored L k acc) as Hres'.
    { intros k v. rewrite lookup_insert. case_decide; subst; [|by auto].
      intros [= <-]. eauto. }
    destruct (startswith "t" line) eqn:Ht.
    + rewrite b_step_append by done. split; [done|]. simpl. intros _.
      destruct Hopen as (? & hdr & rows & -> & ? & ? & ?).
      split; [done|]. exists hdr, (rows ++ [line]). split_and!; try done.
      apply Forall_app. split; [done|]. by constructor.
    + rewrite b_step_flush by done. destruct (label_of line) as [k|] eqn:E.
      * split; [done|]. simpl. intros Hk. split; [done|]. exists line, []. eauto.
      * split; [done|]. done.
Qed.

Lemma b_inv_loop L ls : ∀ st, (∀ l, l ∈ ls → l ∈ L) → inv L st → inv L (loop st ls).
Proof.
  induction ls as [|l ls IH]; intros st Hsub Hinv; [done|].
  rewrite b_loop_cons. apply IH.
  - intros l' ?. apply Hsub. by right.
  - apply b_inv_step; [|done]. apply Hsub. by left.
Qed.

Lemma b_extract_stored lines k v :
  extract_results_lines lines !! k = Some v →
  ∃ acc, v = block acc ∧ stored lines k acc.
Proof.
  unfold extract_results_lines, finish.
  destruct (b_inv_loop lines lines init) as [Hres Hopen]; [done|apply b_inv_init|].
  destruct (image_id (loop init lines) =? 0) eqn:E; simpl; [by auto|].
  apply Z.eqb_neq in E. rewrite lookup_insert. case_decide; subst; [|by auto].
  intros [= <-]. eauto.
Qed.
End GrammarB.

(** ** Blocks that follow each other *)

Lemma corr_row_not_label line : startswith "t" line = true → Correlation.label_of line = None.
Proof.
  intros Ht. destruct (Correlation.label_of line) as [id|] eqn:E; [|done].
  apply corr_label_not_row in E. congruence.
Qed.

(** Two blocks that follow each other without a line between them are
    both stored: the label line that ends the first opens the second. *)
Lemma corr_adjacent_blocks pre hdrA rowsA hdrB rowsB idA idB :
  idA ≠ 0 → idB ≠ 0 → idA ≠ idB →
  Correlation.label_of hdrA = Some idA → Correlation.label_of hdrB = Some idB →
  Forall (λ l, startswith "t" l = true) rowsA →
  Forall (λ l, startswith "t" l = true) rowsB →
  let m := Correlation.extract_results_lines (pre ++ hdrA :: rowsA ++ hdrB :: rowsB) in
  m !! idA = Some (Correlation.block (hdrA :: rowsA))
  ∧ m !! idB = Some (Correlation.block (hdrB :: rowsB)).
Proof.
  intros HA HB Hne HlA HlB HrA HrB m. split.
  - apply GrammarB.b_last_block_wins; try done.
    + simpl. by rewrite (corr_label_not_row hdrB idB).
    + constructor; [congruence|].
      eapply Forall_impl; [exact HrB|]. intros l Hl. by rewrite corr_row_not_label.
  - unfold m.
    replace (pre ++ hdrA :: rowsA ++ hdrB :: rowsB)
      with ((pre ++ hdrA :: rowsA) ++ hdrB :: rowsB ++ [])
      by by rewrite app_nil_r, <- app_assoc.
    by apply GrammarB.b_last_block_wins.
Qed.

Lemma coloc_adjacent_blocks pre hdrA colsA rowsA parsedA hdrB colsB rowsB parsedB idA idB :
  idA ≠ 0 → idB ≠ 0 →
  Colocalisation.header_of hdrA = Some colsA → Colocalisation.header_of hdrB = Some colsB →
  Forall2 (λ l p, Colocalisation.row_of l = Some p) rowsA parsedA →
  Forall2 (λ l p, Colocalisation.row_of l = Some p) rowsB parsedB →
  last parsedA.*1 = Some idA → last parsedB.*1 = Some idB →
  Forall (λ p, p.1 ≠ idA) parsedB →
  let m := Colocalisation.extract_results_lines (pre ++ hdrA :: rowsA ++ hdrB :: rowsB) in
  m !! idA = Some (Colocalisation.block (colsA :: parsedA.*2))
  ∧ m !! idB = Some (Colocalisation.block (colsB :: parsedB.*2)).
Proof.
  intros HA HB HhA HhB HrA HrB HlA HlB Hne m. split.
  - eapply GrammarA.a_last_block_wins; try done.
    + simpl. by rewrite (coloc_header_not_row hdrB colsB).
    + constructor.
      * intros text. by rewrite (coloc_header_not_row hdrB colsB).
      * clear HlB. induction HrB as [|l p ? ? Hl ? IH]; [done|].
        inversion Hne; subst. constructor; [|by apply IH].
        intros text. rewrite Hl. intros [= ->]. done.
  - unfold m.
    replace (pre ++ hdrA :: rowsA ++ hdrB :: rowsB)
      with ((pre ++ hdrA :: rowsA) ++ hdrB :: rowsB ++ [])
      by by rewrite app_nil_r, <- app_assoc.
    by eapply GrammarA.a_last_block_wins.
Qed.

(** *** Channel resolution *)

Lemma find_channel_index_from_spec chs c : ∀ index,
  (find_channel_index_from index chs c = -1
   ∧ ∀ i ch, chs !! i = Some ch → ¬ selects c (index + i) ch)
  ∨ (∃ i ch, find_channel_index_from index chs c = Z.of_nat (index + i)
       ∧ chs !! i = Some ch ∧ selects c (index + i) ch
       ∧ ∀ j chj, (j < i)%nat → chs !! j = Some chj → ¬ selects c (index + j) chj).
Proof.
  induction chs as [|ch chs IH]; intros index; simpl.
  - left. split; [done|]. intros i ch'. by rewrite lookup_nil.
  - destruct (String.eqb ch c || String.eqb (pretty (index + 1)%nat) c) eqn:E.
    + right. exists 0%nat, ch. rewrite Nat.add_0_r. split_and!; [done|done| |lia].
      apply orb_true_iff in E as [E|E]; apply String.eqb_eq in E; [by left|by right].
    + apply orb_false_iff in E as [E1 E2].
      apply String.eqb_neq in E1, E2.
      destruct (IH (S index)) as [[Hr Hno]|(i & ch' & Hr & Hl & Hsel & Hmin)].
      * left. split; [done|]. intros [|i] ch'; simpl.
        -- intros [= <-]. rewrite Nat.add_0_r. by intros [?|?].
        -- intros Hl. replace (index + S i)%nat with (S index + i)%nat by lia. eauto.
      * right. exists (S i), ch'.
        replace (index + S i)%nat with (S index + i)%nat by lia.
        split_and!; try done. intros [|j] chj Hj; simpl.
        -- intros [= <-]. rewrite Nat.add_0_r. by intros [?|?].
        -- intros Hlj. replace (index + S j)%nat with (S index + j)%nat by lia.
           apply Hmin; [lia|done].
Qed.

(** *** Validation of the colocalisation parameters *)

Module Validation.
Import Colocalisation.

Lemma ok_of_app e1 e2 : ok_of (e1 ++ e2) = ok_of e1 && ok_of e2.
Proof. by destruct e1, e2. Qed.

Lemma check_channels img C : ∀ r,
  foldl (check_channel img) r C
  = (r.1 ++ channel_errors img C, r.2 && ok_of (channel_errors img C)).
Proof.
  induction C as [|c C IH]; intros [e b]; simpl.
  - by rewrite app_nil_r, andb_true_r.
  - rewrite IH. unfold check_channel, channel_errors. simpl.
    destruct (find_channel_index img c <? 0); simpl.
    + by rewrite <- app_assoc, andb_false_r.
    + done.
Qed.

Lemma check_images C images : ∀ r,
  foldl (check_image C) r images
  = (r.1 ++ image_errors C images, r.2 && ok_of (image_errors C images)).
Proof.
  induction images as [|[img|] images IH]; intros [e b]; simpl.
  - by rewrite app_nil_r, andb_true_r.
  - rewrite IH, check_channels. simpl. unfold image_errors. simpl.
    by rewrite <- app_assoc, ok_of_app, andb_assoc.
  - by rewrite IH.
Qed.

Lemma check_parameters_eq images p :
  let errs := image_errors (selectors p) images ++ shift_errors p ++ option_errors p in
  check_parameters images p = (errs, ok_of errs).
Proof.
  unfold check_parameters. rewrite check_images. simpl.
  unfold shift_errors, option_errors, report_error.
  destruct (Maximum_shift p <=? Minimum_shift p),
    (negb (Upload_results p) && negb (Email_results p)); simpl;
    rewrite ?app_nil_r, <- ?app_assoc, ?ok_of_app; simpl;
    rewrite ?andb_false_r, ?andb_true_r; done.
Qed.

Lemma channel_error_reported images p img c :
  Some img ∈ images → c ∈ selectors p → find_channel_index img c < 0 →
  MsgNoChannel (getId img) (getName img) c ∈ (check_parameters images p).1.
Proof.
  intros Himg Hc Hlt. rewrite check_parameters_eq. simpl.
  apply elem_of_app. left. unfold image_errors.
  apply list_elem_of_In, in_flat_map. exists (Some img).
  split; [by apply list_elem_of_In|].
  unfold channel_errors. apply in_flat_map. exists c.
  split; [by apply list_elem_of_In|].
  apply Z.ltb_lt in Hlt as ->. by left.
Qed.

Lemma shift_error_reported images p :
  Maximum_shift p ≤ Minimum_shift p →
  MsgShift (Maximum_shift p) (Minimum_shift p) ∈ (check_parameters images p).1.
Proof.
  intros H. rewrite check_parameters_eq. simpl.
  apply elem_of_app. right. apply elem_of_app. left.
  unfold shift_errors. apply Z.leb_le in H as ->. by left.
Qed.

Lemma option_error_reported images p :
  Upload_results p = false → Email_results p = false →
  MsgNoOption ∈ (check_parameters images p).1.
Proof.
  intros H1 H2. rewrite check_parameters_eq. simpl.
  apply elem_of_app. right. apply elem_of_app. right.
  unfold option_errors. rewrite H1, H2. by left.
Qed.

Lemma rejected_of_error images p m :
  m ∈ (check_parameters images p).1 → (check_parameters images p).2 = false.
Proof.
  rewrite check_parameters_eq. simpl.
  by destruct (image_errors _ _ ++ _ ++ _); [intros ?%elem_of_nil|].
Qed.
End Validation.

Lemma corr_check_parameters_eq images p :
  Correlation.check_parameters images p
  = if negb (Correlation.Upload_results p) && negb (Correlation.Email_results p)
    then ([MsgNoOption], false) else ([], true).
Proof.
  unfold Correlation.check_parameters.
  assert (∀ r : checked, foldl (λ r (_ : option Image), r) r images = r) as ->.
  { induction images; simpl; auto. }
  by destruct (negb _ && negb _).
Qed.

(** ** Effects of the pipeline *)

Section Quiet.
Context {A B : Type}.

Lemma quiet_ret (x : A) : quiet (ret x).
Proof. intros st st' r [= <- <-]. split; [done|]. exists []. by rewrite app_nil_r. Qed.

Lemma quiet_raise (e : exn) : quiet (raise (A:=A) e).
Proof. intros st st' r [= <- <-]. split; [done|]. exists []. by rewrite app_nil_r. Qed.

Lemma quiet_bind (m : M A) (k : A → M B) :
  quiet m → (∀ x, quiet (k x)) → quiet (bind m k).
Proof.
  intros Hm Hk st st' r. unfold bind.
  destruct (m st) as [st1 [e|x]] eqn:E1.
  - intros [= <- <-]. destruct (Hm _ _ _ E1) as (? & evs & ? & ?). eauto.
  - intros E2. destruct (Hm _ _ _ E1) as (Hd1 & evs1 & Ht1 & ?).
    destruct (Hk x _ _ _ E2) as (Hd2 & evs2 & Ht2 & ?).
    split; [congruence|]. exists (evs1 ++ evs2).
    rewrite Ht2, Ht1, app_assoc. split; [done|]. by apply Forall_app.
Qed.

Lemma quiet_finally (m : M A) (f : M unit) :
  quiet m → quiet f → quiet (finally m f).
Proof.
  intros Hm Hf st st' r. unfold finally.
  destruct (m st) as [st1 r1] eqn:E1. destruct (f st1) as [st2 [e|[]]] eqn:E2;
    intros [= <- <-];
    destruct (Hm _ _ _ E1) as (Hd1 & evs1 & Ht1 & ?);
    destruct (Hf _ _ _ E2) as (Hd2 & evs2 & Ht2 & ?);
    (split; [congruence|]); exists (evs1 ++ evs2);
    rewrite Ht2, Ht1, app_assoc; (split; [done|]); by apply Forall_app.
Qed.

Lemma quiet_catch (e : exn) (m h : M A) :
  quiet m → quiet h → quiet (catch e m h).
Proof.
  intros Hm Hh st st' r. unfold catch.
  destruct (m st) as [st1 [e'|x]] eqn:E1.
  - case_bool_decide.
    + intros E2. destruct (Hm _ _ _ E1) as (Hd1 & evs1 & Ht1 & ?).
      destruct (Hh _ _ _ E2) as (Hd2 & evs2 & Ht2 & ?).
      split; [congruence|]. exists (evs1 ++ evs2).
      rewrite Ht2, Ht1, app_assoc. split; [done|]. by apply Forall_app.
    + intros [= <- <-]. eauto.
  - intros [= <- <-]. eauto.
Qed.
End Quiet.

Lemma quiet_swallow (m : M unit) : quiet m → quiet (swallow m).
Proof.
  intros Hm st st' r. unfold swallow. destruct (m st) as [st1 r1] eqn:E1.
  intros [= <- <-]. eauto.
Qed.

Lemma quiet_emit (e : event) : not_rmdir e → quiet (emit e).
Proof.
  intros He st st' r [= <- <-]. split; [done|]. exists [e]. split; [done|]. by constructor.
Qed.

Lemma quiet_create name : quiet (create name).
Proof. intros st st' r [= <- <-]. split; [done|]. exists []. by rewrite app_nil_r. Qed.

Lemma quiet_unlink name : quiet (unlink name).
Proof. intros st st' r [= <- <-]. split; [done|]. exists []. by rewrite app_nil_r. Qed.

Lemma quiet_listdir : quiet listdir.
Proof. intros st st' r [= <- <-]. split; [done|]. exists []. by rewrite app_nil_r. Qed.

Ltac quiet_tac :=
  repeat first
    [ apply quiet_ret | apply quiet_raise | apply quiet_create | apply quiet_unlink
    | apply quiet_listdir
    | apply quiet_emit; exact I
    | apply quiet_bind; [|intro]
    | apply quiet_finally | apply quiet_catch | apply quiet_swallow
    | match goal with
      | |- quiet (match ?x with _ => _ end) => destruct x
      | |- quiet (let (_, _) := ?x in _) => destruct x
      end
    | assumption ].

Section PipelineQuiet.
Variable V : Variant.
Variable W : World.

Lemma quiet_export_image img : quiet (export_image W img).
Proof. unfold export_image. quiet_tac. Qed.

Lemma quiet_export_loop images : ∀ names, quiet (export_loop W images names).
Proof.
  induction images as [|[img|] rest IH]; intros names; simpl; quiet_tac; auto.
Qed.

Lemma quiet_write_all file blocks : quiet (write_all file blocks).
Proof. induction blocks; simpl; quiet_tac. Qed.

Lemma quiet_remove_loop names : quiet (remove_loop W names).
Proof. induction names; simpl; quiet_tac. Qed.

Lemma quiet_print_lines ls : quiet (print_lines ls).
Proof. induction ls; simpl; quiet_tac. Qed.

Lemma quiet_print_msgs ms : quiet (print_msgs ms).
Proof. induction ms; simpl; quiet_tac. Qed.

Lemma quiet_run_imagej images names p : quiet (run_imagej V W images names p).
Proof.
  unfold run_imagej. destruct names; [quiet_tac|].
  apply quiet_bind; [quiet_tac|intros _].
  apply quiet_bind; [apply quiet_write_all|intros _].
  destruct (v_write_blocks V p images _).2; [quiet_tac|].
  quiet_tac; try apply quiet_remove_loop.
Qed.

Lemma quiet_upload_one name r : quiet (upload_one W name r).
Proof. unfold upload_one. quiet_tac. Qed.

Lemma quiet_upload_loop name rs : quiet (upload_loop W name rs).
Proof. induction rs; simpl; quiet_tac; try apply quiet_upload_one. Qed.

Lemma quiet_upload_results results p : quiet (upload_results V W results p).
Proof. unfold upload_results. quiet_tac; try apply quiet_upload_loop. Qed.

Lemma quiet_email_results results report p : quiet (email_results V W results report p).
Proof. unfold email_results. quiet_tac. Qed.
End PipelineQuiet.

Lemma Forall_not_rmdir_last evs d : Forall not_rmdir evs → last evs ≠ Some (Rmdir d).
Proof.
  intros H Hl. apply last_Some in Hl as [l' ->].
  apply Forall_app in H as [_ H]. by inversion H.
Qed.

Lemma quiet_run {A} (m : M A) st st' r :
  quiet m → m st = (st', r) → Forall not_rmdir (trace st) →
  dir_exists st' = dir_exists st ∧ Forall not_rmdir (trace st').
Proof.
  intros Hq E Hst. destruct (Hq _ _ _ E) as (Hd & evs & -> & Hevs).
  split; [done|]. by apply Forall_app.
Qed.

Section RunFacts.
Variable V : Variant.
Variable W : World.

Lemma print_msgs_run ms : ∀ st,
  print_msgs ms st
  = (Machine (dir_exists st) (files st) (trace st ++ (Print <$> ms)), inr tt).
Proof.
  induction ms as [|m ms IH]; intros [d f t]; simpl.
  - by rewrite app_nil_r.
  - unfold bind, emit. simpl. rewrite IH. simpl. by rewrite <- app_assoc.
Qed.

Lemma run_no_ids p st :
  p_ids V p = [] →
  run V W p st
  = (Machine (dir_exists st) (files st) (trace st ++ [Print MsgParameters]), inr (-1)).
Proof. intros H. unfold run, bind, emit. simpl. by rewrite H. Qed.

Lemma run_rejected p st :
  p_ids V p ≠ [] → (v_check_parameters V (select_images V W p) p).2 = false →
  run V W p st = (validated V W p st, inr (-1)).
Proof.
  intros Hids Hc. unfold run, bind, emit. simpl.
  destruct (p_ids V p) eqn:E; [done|]. rewrite print_msgs_run. simpl.
  rewrite Hc. simpl. unfold validated. by rewrite <- app_assoc.
Qed.

Lemma run_accepted p st :
  p_ids V p ≠ [] → (v_check_parameters V (select_images V W p) p).2 = true →
  run V W p st = analyse V W (select_images V W p) p (validated V W p st).
Proof.
  intros Hids Hc. unfold run, bind, emit. simpl.
  destruct (p_ids V p) eqn:E; [done|]. rewrite print_msgs_run. simpl.
  rewrite Hc. simpl. unfold validated. by rewrite <- app_assoc.
Qed.

Lemma extract_images_run images st st' r :
  extract_images W images st = (st', r) → Forall not_rmdir (trace st) →
  dir_exists st' = true ∧ Forall not_rmdir (trace st').
Proof.
  unfold extract_images, bind, emit, set_dir. simpl. intros E Hst.
  eapply quiet_run in E as [? ?]; [done|apply quiet_export_loop|].
  simpl. apply Forall_app. split; [done|]. by repeat constructor.
Qed.

Lemma quiet_distribute results names p : quiet (distribute V W results names p).
Proof.
  unfold distribute. case_bool_decide.
  - quiet_tac; auto using quiet_upload_results, quiet_print_lines, quiet_email_results.
  - quiet_tac.
Qed.

Lemma rmdir_run st :
  rmdir W st =
    match files st with
    | [] => (Machine false [] (trace st ++ [Rmdir (tmp_dir W)]), inr tt)
    | _ => (Machine (dir_exists st) (files st) (trace st ++ [Rmdir (tmp_dir W)]),
            inl OSError)
    end.
Proof. unfold rmdir, bind, emit, listdir, set_dir, raise. simpl. by destruct (files st). Qed.

Lemma analyse_torn_down images p st :
  Forall not_rmdir (trace st) →
  torn_down W (analyse V W images p st).1 (analyse V W images p st).2.
Proof.
  intros Hst. unfold analyse, bind.
  destruct (extract_images W images st) as [st1 [e|names]] eqn:E1;
    apply extract_images_run in E1 as [Hd1 Ht1]; try done.
  { simpl. by left. }
  destruct (run_imagej V W images names p st1) as [st2 [e|results]] eqn:E2;
    eapply quiet_run in E2 as [Hd2 Ht2]; eauto using quiet_run_imagej.
  { simpl. left. split; [done|congruence]. }
  destruct (distribute V W results names p st2) as [st3 [e|[]]] eqn:E3;
    eapply quiet_run in E3 as [Hd3 Ht3]; eauto using quiet_distribute.
  { simpl. left. split; [done|congruence]. }
  rewrite rmdir_run. destruct (files st3) eqn:Ef; simpl.
  - by rewrite last_snoc.
  - right. rewrite last_snoc. split_and!; try done. congruence.
Qed.

(** The count that [run] returns is the size of the map that
    [run_imagej] returned. *)
Lemma analyse_returns images p st st' n :
  analyse V W images p st = (st', inr n) →
  ∃ st1 names st2 results,
    extract_images W images st = (st1, inr names)
    ∧ run_imagej V W images names p st1 = (st2, inr results)
    ∧ n = Z.of_nat (size results).
Proof.
  unfold analyse, bind.
  destruct (extract_images W images st) as [st1 [e|names]] eqn:E1; [done|].
  destruct (run_imagej V W images names p st1) as [st2 [e|results]] eqn:E2; [done|].
  destruct (distribute V W results names p st2) as [st3 [e|[]]] eqn:E3; [done|].
  destruct (rmdir W st3) as [st4 [e|[]]] eqn:E4; [done|].
  intros [= <- <-]. eauto 10.
Qed.
End RunFacts.

(** ** Export and the macro *)

Section ExportFacts.
Variable W : World.

Lemma export_image_ok img st :
  export W (getId img) = Exported →
  ∃ st', export_image W img st = (st', inr tt)
         ∧ trace st' = trace st ++ export_events W img.
Proof.
  intros H. unfold export_image, finally, bind, emit, create. rewrite H. simpl.
  eexists; split; [done|]. simpl. by rewrite <- !app_assoc.
Qed.

Lemma export_image_fails img st :
  export W (getId img) ≠ Exported →
  ∃ st', export_image W img st = (st', inl ExportError)
         ∧ trace st' = trace st ++ [ExporterOpen (getId img); ExporterClose (getId img)].
Proof.
  intros H. unfold export_image, finally, bind, emit, create, raise.
  destruct (export W (getId img)); [done| |]; simpl;
    (eexists; split; [done|]); simpl; by rewrite <- !app_assoc.
Qed.

Lemma export_loop_ok images : ∀ names st,
  (∀ img, Some img ∈ images → export W (getId img) = Exported) →
  ∃ st', export_loop W images names st = (st', inr (names ++ exported_names W images))
         ∧ trace st' = trace st ++ flat_map (export_events W) (resolved images).
Proof.
  induction images as [|[img|] images IH]; intros names st Hok.
  - simpl. exists st. by rewrite !app_nil_r.
  - destruct (export_image_ok img st) as (st1 & E1 & T1); [apply Hok; by left|].
    destruct (IH (names ++ [image_file W img]) st1) as (st2 & E2 & T2).
    { intros img' ?. apply Hok. by right. }
    exists st2. simpl. unfold bind. rewrite E1, E2. split.
    + unfold exported_names, resolved. simpl. by rewrite <- app_assoc.
    + rewrite T2, T1. unfold resolved. simpl. by rewrite <- !app_assoc.
  - apply IH. intros img' ?. apply Hok. by right.
Qed.

Lemma export_loop_fails pre img rest : ∀ names st,
  (∀ img', Some img' ∈ pre → export W (getId img') = Exported) →
  export W (getId img) ≠ Exported →
  ∃ st', export_loop W (pre ++ Some img :: rest) names st = (st', inl ExportError)
         ∧ trace st' = trace st ++ flat_map (export_events W) (resolved pre)
                         ++ [ExporterOpen (getId img); ExporterClose (getId img)].
Proof.
  induction pre as [|[img'|] pre IH]; intros names st Hok Hbad.
  - destruct (export_image_fails img st Hbad) as (st1 & E1 & T1).
    exists st1. simpl. unfold bind. by rewrite E1.
  - destruct (export_image_ok img' st) as (st1 & E1 & T1); [apply Hok; by left|].
    destruct (IH (names ++ [image_file W img']) st1) as (st2 & E2 & T2); [|done|].
    { intros i ?. apply Hok. by right. }
    exists st2. simpl. unfold bind. rewrite E1, E2. split; [done|].
    rewrite T2, T1. unfold resolved. simpl. by rewrite <- !app_assoc.
  - apply IH; [|done]. intros i ?. apply Hok. by right.
Qed.

Lemma extract_images_unfold images st :
  extract_images W images st
  = export_loop W images []
      (Machine true (files st) (trace st ++ [Mkdtemp (tmp_dir W)])).
Proof. done. Qed.

(** When [extract_images] returns, it returns the files of the resolved
    images, in order. *)
Lemma export_loop_names images : ∀ names st st' names',
  export_loop W images names st = (st', inr names') →
  names' = names ++ exported_names W images.
Proof.
  induction images as [|[img|] images IH]; intros names st st' names'; simpl.
  - intros [= <- <-]. by rewrite app_nil_r.
  - unfold bind. destruct (export_image W img st) as [st1 [e|[]]]; [done|].
    intros E%IH. rewrite E. unfold exported_names, resolved. simpl.
    by rewrite <- app_assoc.
  - apply IH.
Qed.
End ExportFacts.

Lemma resolved_lookup (images : list (option Image)) : ∀ k img,
  (∀ j, (j ≤ k)%nat → ∃ x, images !! j = Some (Some x)) →
  images !! k = Some (Some img) →
  resolved images !! k = Some img.
Proof.
  induction images as [|o images IH]; intros k img Hpre Hk; [done|].
  destruct (Hpre 0%nat) as [x Hx]; [lia|]. simpl in Hx. injection Hx as ->.
  unfold resolved. simpl. destruct k as [|k]; simpl in *; [congruence|].
  apply IH; [|done]. intros j Hj. apply (Hpre (S j)). lia.
Qed.

Module CorrelationMacro.
Import Correlation.

Lemma corr_write_blocks_from_lookup p images names : ∀ i k blk,
  (write_blocks_from p images i names).1 !! k = Some blk →
  ∃ img name, images !! (i + k)%nat = Some (Some img) ∧ names !! k = Some name
              ∧ blk = image_block p name img.
Proof.
  induction names as [|name names IH]; intros i k blk; simpl; [done|].
  destruct (images !! i) as [[img|]|] eqn:E; simpl; try done.
  destruct k as [|k]; simpl.
  - intros [= <-]. rewrite Nat.add_0_r. eauto.
  - intros H. apply IH in H as (img' & name' & ? & ? & ?).
    exists img', name'. by replace (i + S k)%nat with (S i + k)%nat by lia.
Qed.

Lemma corr_write_blocks_from_all p imgs0 imgs names : ∀ i,
  i = length imgs0 → length names = length imgs →
  write_blocks_from p (Some <$> (imgs0 ++ imgs)) i names
  = (zip_with (λ name img, image_block p name img) names imgs, None).
Proof.
  revert imgs0 names.
  induction imgs as [|img imgs IH]; intros imgs0 [|name names] i Hi Hlen;
    simpl in *; try done.
  rewrite list_lookup_fmap, lookup_app_r, Hi, Nat.sub_diag by lia. simpl.
  replace (imgs0 ++ img :: imgs) with ((imgs0 ++ [img]) ++ imgs)
    by by rewrite <- app_assoc.
  rewrite (IH (imgs0 ++ [img])); [done| |lia].
  rewrite length_app. simpl. lia.
Qed.
End CorrelationMacro.

Module ColocalisationMacro.
Import Colocalisation.

Lemma coloc_next_c3_initial p img c3 : c3_initial p c3 → c3_initial p (next_c3 p img c3).
Proof. unfold c3_initial, next_c3. intros H Ht. rewrite Ht. auto. Qed.

Lemma coloc_image_block_initial p name img c3 :
  c3_initial p c3 → image_block p name img c3 = image_block p name img (-1).
Proof.
  unfold c3_initial, image_block, next_c3. intros H.
  destruct (truthy (Channel_3 p)); [done|]. by rewrite H.
Qed.

Lemma coloc_write_blocks_from_lookup p images names : ∀ i c3 k blk,
  c3_initial p c3 →
  (write_blocks_from p images i c3 names).1 !! k = Some blk →
  ∃ img name, images !! (i + k)%nat = Some (Some img) ∧ names !! k = Some name
              ∧ blk = image_block p name img (-1).
Proof.
  induction names as [|name names IH]; intros i c3 k blk Hc3; simpl; [done|].
  destruct (images !! i) as [[img|]|] eqn:E; simpl; try done.
  destruct k as [|k]; simpl.
  - intros [= <-]. rewrite Nat.add_0_r. exists img, name.
    split_and!; try done. by apply coloc_image_block_initial.
  - intros H. apply IH in H as (img' & name' & ? & ? & ?); [|by apply coloc_next_c3_initial].
    exists img', name'. by replace (i + S k)%nat with (S i + k)%nat by lia.
Qed.

Lemma coloc_write_blocks_from_all p imgs0 imgs names : ∀ i c3,
  c3_initial p c3 →
  i = length imgs0 → length names = length imgs →
  write_blocks_from p (Some <$> (imgs0 ++ imgs)) i c3 names
  = (zip_with (λ name img, image_block p name img (-1)) names imgs, None).
Proof.
  revert imgs0 names.
  induction imgs as [|img imgs IH]; intros imgs0 [|name names] i c3 Hc3 Hi Hlen;
    simpl in *; try done.
  rewrite list_lookup_fmap, lookup_app_r, Hi, Nat.sub_diag by lia. simpl.
  replace (imgs0 ++ img :: imgs) with ((imgs0 ++ [img]) ++ imgs)
    by by rewrite <- app_assoc.
  rewrite (IH (imgs0 ++ [img])); [|by apply coloc_next_c3_initial| |lia].
  - by rewrite coloc_image_block_initial.
  - rewrite length_app. simpl. lia.
Qed.
End ColocalisationMacro.

Lemma corr_macro_total W : macro_total Correlation.variant W.
Proof.
  intros p imgs. simpl. unfold Correlation.write_blocks.
  rewrite (CorrelationMacro.corr_write_blocks_from_all p [] imgs); [done|done|].
  by rewrite length_fmap.
Qed.

Lemma coloc_macro_total W : macro_total Colocalisation.variant W.
Proof.
  intros p imgs. simpl. unfold Colocalisation.write_blocks.
  rewrite (ColocalisationMacro.coloc_write_blocks_from_all p [] imgs); [done|done|done|].
  by rewrite length_fmap.
Qed.

(** ** Runs in which nothing fails *)

Lemma tidy_ret {A} (x : A) : tidy (ret x).
Proof. intros st ?. by exists st, x. Qed.

Lemma tidy_bind {A B} (m : M A) (k : A → M B) :
  tidy m → (∀ x, tidy (k x)) → tidy (bind m k).
Proof.
  intros Hm Hk st Hst. destruct (Hm st Hst) as (st1 & x & E1 & H1).
  destruct (Hk x st1 H1) as (st2 & y & E2 & H2).
  exists st2, y. unfold bind. by rewrite E1.
Qed.

Lemma tidy_emit e : tidy (emit e).
Proof. intros st ?. by eexists _, tt. Qed.

Section Faultless.
Variable V : Variant.
Variable W : World.
Hypothesis HW : faultless W.

Lemma remove_loop_ok names : ∀ st,
  (∀ f, f ∈ files st → f ∈ names) →
  ∃ st', remove_loop W names st = (st', inr tt) ∧ files st' = [].
Proof.
  destruct HW as (_ & Hrm & _).
  induction names as [|name names IH]; intros st Hsub; simpl.
  - exists st. split; [done|]. destruct (files st) as [|f fs]; [done|].
    specialize (Hsub f ltac:(by left)). by apply elem_of_nil in Hsub.
  - rewrite Hrm. unfold bind, emit, unlink. simpl. apply IH. simpl.
    intros f [Hne Hf]%list_elem_of_filter.
    apply Hsub in Hf. by apply elem_of_cons in Hf as [->|?].
Qed.

Lemma tidy_print_lines ls : tidy (print_lines ls).
Proof. induction ls; simpl; auto using tidy_ret, tidy_bind, tidy_emit. Qed.

Lemma tidy_upload_one name r : tidy (upload_one W name r).
Proof.
  destruct HW as (_ & Hrm & Hat & _). unfold upload_one.
  destruct (getObject W r.1); [|apply tidy_ret].
  intros st Hst. unfold bind, create, emit, unlink. simpl.
  rewrite Hst, Hat, Hrm. simpl. eexists _, tt. split; [done|]. simpl.
  rewrite filter_cons. case_decide; [done|]. by rewrite filter_nil.
Qed.

Lemma tidy_upload_loop name rs : tidy (upload_loop W name rs).
Proof. induction rs; simpl; auto using tidy_ret, tidy_bind, tidy_upload_one. Qed.

Lemma tidy_distribute results names p : tidy (distribute V W results names p).
Proof.
  destruct HW as (_ & _ & _ & Hsmtp). unfold distribute. case_bool_decide.
  - apply tidy_bind; [|intros _; apply tidy_bind; [apply tidy_print_lines|intros _]].
    + unfold upload_results. destruct (negb _); auto using tidy_ret, tidy_upload_loop.
    + unfold email_results. rewrite Hsmtp.
      destruct (negb _); auto using tidy_ret, tidy_emit.
  - destruct names; auto using tidy_ret, tidy_emit.
Qed.

Lemma write_all_run file blocks : ∀ st,
  write_all file blocks st
  = (Machine (dir_exists st) (files st) (trace st ++ (Write file <$> blocks)), inr tt).
Proof.
  induction blocks as [|b bs IH]; intros [d f t]; simpl.
  - by rewrite app_nil_r.
  - unfold bind, emit. simpl. rewrite IH. simpl. by rewrite <- app_assoc.
Qed.

Lemma resolved_fmap_Some (imgs : list Image) : resolved (Some <$> imgs) = imgs.
Proof. unfold resolved. induction imgs; simpl; [done|]. by f_equal. Qed.

Lemma run_imagej_faultless imgs p st :
  imgs ≠ [] →
  (v_write_blocks V p (Some <$> imgs) (image_file W <$> imgs)).2 = None →
  ∃ st', run_imagej V W (Some <$> imgs) (image_file W <$> imgs) p st
         = (st', inr (expected_results V W imgs p))
         ∧ files st' = [].
Proof.
  intros Hne Hw. unfold run_imagej, expected_results.
  destruct imgs as [|img imgs]; [done|]. clear Hne.
  change (image_file W <$> img :: imgs)
    with (image_file W img :: (image_file W <$> imgs)) in *.
  cbv beta iota zeta.
  change (image_file W img :: (image_file W <$> imgs))
    with (image_file W <$> img :: imgs) in *.
  set (names := image_file W <$> img :: imgs) in *.
  set (w := v_write_blocks V p (Some <$> img :: imgs) names) in *.
  unfold bind at 1. unfold create at 1. simpl.
  unfold bind at 1. rewrite write_all_run. simpl. rewrite Hw.
  unfold bind at 1.
  match goal with
  | |- context [catch OSError ?m ?h ?s] =>
      assert (∃ s', catch OSError m h s
                    = (s', inr (match imagej W (macro_text w.1) with
                                | Exited code stdout =>
                                    if code =? 0 then v_extract_results V stdout else ∅
                                | LaunchError => ∅
                                end))) as [s' ->]
  end.
  { unfold catch, bind, emit, create, raise. simpl.
    destruct (imagej W (macro_text w.1)) as [|code out]; simpl; [eauto|].
    destruct (code =? 0); simpl; eauto. }
  unfold bind at 1. unfold swallow, bind at 1, listdir.
  destruct (remove_loop_ok (files s') s') as (s'' & -> & Hf); [done|].
  unfold ret. eauto.
Qed.

Lemma analyse_faultless imgs p st :
  files st = [] →
  (v_write_blocks V p (Some <$> imgs) (image_file W <$> imgs)).2 = None →
  ∃ st', analyse V W (Some <$> imgs) p st
         = (st', inr (Z.of_nat (size (expected_results V W imgs p))))
         ∧ last (trace st') = Some (Rmdir (tmp_dir W)) ∧ dir_exists st' = false
         ∧ files st' = [].
Proof.
  intros Hst Hw. unfold analyse.
  destruct (export_loop_ok W (Some <$> imgs) []
              (Machine true (files st) (trace st ++ [Mkdtemp (tmp_dir W)])))
    as (st1 & E1 & _).
  { intros img _. apply HW. }
  unfold bind at 1. rewrite extract_images_unfold, E1. simpl.
  unfold exported_names. rewrite resolved_fmap_Some.
  assert (∃ st2, run_imagej V W (Some <$> imgs) (image_file W <$> imgs) p st1
                 = (st2, inr (expected_results V W imgs p)) ∧ files st2 = [])
    as (st2 & E2 & F2).
  { destruct imgs as [|img imgs].
    - simpl in E1. injection E1 as <-. eexists. split; [reflexivity|done].
    - by apply run_imagej_faultless. }
  unfold bind at 1. rewrite E2.
  destruct (tidy_distribute (expected_results V W imgs p) (image_file W <$> imgs) p st2 F2)
    as (st3 & [] & E3 & F3).
  unfold bind at 1. rewrite E3. unfold bind at 1.
  rewrite rmdir_run, F3. unfold ret. eexists; split; [done|]. simpl.
  by rewrite last_snoc.
Qed.
End Faultless.

(** ** A [None] before an exported image *)

Lemma resolved_app (l1 l2 : list (option Image)) :
  resolved (l1 ++ l2) = resolved l1 ++ resolved l2.
Proof. unfold resolved. apply omap_app. Qed.

Lemma corr_write_blocks_from_none p imgs rest name more : ∀ imgs0 names i,
  i = length imgs0 → length names = length imgs →
  Correlation.write_blocks_from p ((Some <$> (imgs0 ++ imgs)) ++ None :: rest) i
    (names ++ name :: more)
  = (zip_with (λ name img, Correlation.image_block p name img) names imgs,
     Some AttributeError).
Proof.
  induction imgs as [|img imgs IH]; intros imgs0 [|n names] i Hi Hlen;
    simpl in *; try done.
  - rewrite app_nil_r, lookup_app_r, length_fmap, Hi, Nat.sub_diag
      by (rewrite length_fmap; lia).
    done.
  - rewrite lookup_app_l by (rewrite length_fmap, length_app; simpl; lia).
    rewrite list_lookup_fmap, lookup_app_r, Hi, Nat.sub_diag by lia. simpl.
    replace (imgs0 ++ img :: imgs) with ((imgs0 ++ [img]) ++ imgs)
      by by rewrite <- app_assoc.
    rewrite (IH (imgs0 ++ [img])); [done| |lia].
    rewrite length_app. simpl. lia.
Qed.

Lemma coloc_write_blocks_from_none p imgs rest name more : ∀ imgs0 names i c3,
  Colocalisation.c3_initial p c3 →
  i = length imgs0 → length names = length imgs →
  Colocalisation.write_blocks_from p ((Some <$> (imgs0 ++ imgs)) ++ None :: rest) i c3
    (names ++ name :: more)
  = (zip_with (λ name img, Colocalisation.own_block p name img) names imgs,
     Some AttributeError).
Proof.
  induction imgs as [|img imgs IH]; intros imgs0 [|n names] i c3 Hc3 Hi Hlen;
    simpl in *; try done.
  - rewrite app_nil_r, lookup_app_r, length_fmap, Hi, Nat.sub_diag
      by (rewrite length_fmap; lia).
    done.
  - rewrite lookup_app_l by (rewrite length_fmap, length_app; simpl; lia).
    rewrite list_lookup_fmap, lookup_app_r, Hi, Nat.sub_diag by lia. simpl.
    replace (imgs0 ++ img :: imgs) with ((imgs0 ++ [img]) ++ imgs)
      by by rewrite <- app_assoc.
    rewrite (IH (imgs0 ++ [img]));
      [|by apply ColocalisationMacro.coloc_next_c3_initial| |lia].
    + by rewrite ColocalisationMacro.coloc_image_block_initial.
    + rewrite length_app. simpl. lia.
Qed.

(** A [None] before an exported image ends the loop with an exception. *)
Lemma exported_names_none W imgs rest img rest' :
  exported_names W ((Some <$> imgs) ++ None :: rest ++ Some img :: rest')
  = (image_file W <$> imgs)
      ++ (image_file W <$> (resolved rest ++ img :: resolved rest')).
Proof.
  unfold exported_names. rewrite resolved_app, resolved_fmap_Some.
  rewrite fmap_app. f_equal. f_equal.
  change (None :: rest ++ Some img :: rest') with ([None] ++ rest ++ [Some img] ++ rest').
  by rewrite !resolved_app.
Qed.

Lemma zip_with_fmap_diag {A B C} (f : B → A → C) (g : A → B) (l : list A) :
  zip_with f (g <$> l) l = (λ x, f (g x) x) <$> l.
Proof. induction l as [|x l IH]; [done|]. rewrite !fmap_cons. simpl. by f_equal. Qed.

Lemma corr_none_before_exported (W : World) p imgs rest img rest' :
  let images := (Some <$> imgs) ++ None :: rest ++ Some img :: rest' in
  Correlation.write_blocks p images (exported_names W images)
  = ((λ img, Correlation.image_block p (image_file W img) img) <$> imgs,
     Some AttributeError).
Proof.
  intros images. unfold images. rewrite exported_names_none.
  destruct (resolved rest ++ img :: resolved rest') as [|x xs] eqn:E.
  { by destruct (resolved rest). }
  rewrite fmap_cons. unfold Correlation.write_blocks.
  rewrite (corr_write_blocks_from_none p imgs _ _ _ [] (image_file W <$> imgs) 0%nat);
    [|done|by rewrite length_fmap].
  f_equal. apply zip_with_fmap_diag.
Qed.

Lemma coloc_none_before_exported (W : World) p imgs rest img rest' :
  let images := (Some <$> imgs) ++ None :: rest ++ Some img :: rest' in
  Colocalisation.write_blocks p images (exported_names W images)
  = ((λ img, Colocalisation.own_block p (image_file W img) img) <$> imgs,
     Some AttributeError).
Proof.
  intros images. unfold images. rewrite exported_names_none.
  destruct (resolved rest ++ img :: resolved rest') as [|x xs] eqn:E.
  { by destruct (resolved rest). }
  rewrite fmap_cons. unfold Colocalisation.write_blocks.
  rewrite (coloc_write_blocks_from_none p imgs _ _ _ [] (image_file W <$> imgs) 0%nat);
    [|done|done|by rewrite length_fmap].
  f_equal. apply zip_with_fmap_diag.
Qed.

(** * The claims *)

Import Samples.

(** ** The claims about the parsers *)

(** C1, as stated, fails: at the end of a file that ends right after a
    header line of Grammar A the accumulator is open (the state is inside
    a result and holds the column names), yet nothing is stored. *)
Lemma eof_header_only_not_flushed :
  let st := Colocalisation.loop Colocalisation.init (readlines header_a) in
  Colocalisation.extract_result st = true
  ∧ Colocalisation.result st = ["p,Method,Frame,Ch1,Ch2,Ch3,n"]
  ∧ Colocalisation.extract_results header_a = ∅.
Proof. vm_compute. done. Qed.

(** C1 (amended). In both grammars a line that ends a result block
    stores the accumulated block under the last-known image id, leaves
    the result, and the same line is then tried as the start of a new
    block; at the end of the file the open accumulator is stored when the
    last-known image id is not 0: always in Grammar B, and in Grammar A
    once a row with a non-zero id has been read. With the image id 0 the
    end of the file stores nothing. As no line is skipped, two blocks
    that follow each other without a line between them are both
    stored. *)
Theorem block_end_flushes_and_reevaluates :
  (∀ (st : Colocalisation.state) (line : string),
     Colocalisation.extract_result st = true →
     Colocalisation.row_of line = None →
     let flushed := <[Colocalisation.image_id st
                      := Colocalisation.block (Colocalisation.result st)]>
                      (Colocalisation.results st) in
     Colocalisation.step st line =
       match Colocalisation.header_of line with
       | Some columns => Colocalisation.State flushed true 0 [columns]
       | None => Colocalisation.State flushed false 0 (Colocalisation.result st)
       end)
  ∧ (∀ (st : Correlation.state) (line : string),
       Correlation.image_id st ≠ 0 →
       startswith "t" line = false →
       let flushed := <[Correlation.image_id st
                        := Correlation.block (Correlation.result st)]>
                        (Correlation.results st) in
       Correlation.step st line =
         match Correlation.label_of line with
         | Some id => Correlation.State flushed id [line]
         | None => Correlation.State flushed 0 (Correlation.result st)
         end)
  ∧ (∀ lines : list string,
       let st := Colocalisation.loop Colocalisation.init lines in
       (Colocalisation.image_id st ≠ 0 →
        Colocalisation.extract_result st = true
        ∧ Colocalisation.extract_results_lines lines
          = <[Colocalisation.image_id st
              := Colocalisation.block (Colocalisation.result st)]>
              (Colocalisation.results st))
       ∧ (Colocalisation.image_id st = 0 →
          Colocalisation.extract_results_lines lines = Colocalisation.results st))
  ∧ (∀ lines : list string,
       let st := Correlation.loop Correlation.init lines in
       (Correlation.image_id st ≠ 0 →
        Correlation.extract_results_lines lines
        = <[Correlation.image_id st := Correlation.block (Correlation.result st)]>
            (Correlation.results st))
       ∧ (Correlation.image_id st = 0 →
          Correlation.extract_results_lines lines = Correlation.results st))
  ∧ (∀ (pre rowsA rowsB : list string) (hdrA hdrB colsA colsB : string)
       (parsedA parsedB : list (Z * string)) (idA idB : Z),
       idA ≠ 0 → idB ≠ 0 →
       Colocalisation.header_of hdrA = Some colsA →
       Colocalisation.header_of hdrB = Some colsB →
       Forall2 (λ l p, Colocalisation.row_of l = Some p) rowsA parsedA →
       Forall2 (λ l p, Colocalisation.row_of l = Some p) rowsB parsedB →
       last parsedA.*1 = Some idA → last parsedB.*1 = Some idB →
       Forall (λ p, p.1 ≠ idA) parsedB →
       let m := Colocalisation.extract_results_lines
                  (pre ++ hdrA :: rowsA ++ hdrB :: rowsB) in
       m !! idA = Some (Colocalisation.block (colsA :: parsedA.*2))
       ∧ m !! idB = Some (Colocalisation.block (colsB :: parsedB.*2)))
  ∧ (∀ (pre rowsA rowsB : list string) (hdrA hdrB : string) (idA idB : Z),
       idA ≠ 0 → idB ≠ 0 → idA ≠ idB →
       Correlation.label_of hdrA = Some idA → Correlation.label_of hdrB = Some idB →
       Forall (λ l, startswith "t" l = true) rowsA →
       Forall (λ l, startswith "t" l = true) rowsB →
       let m := Correlation.extract_results_lines
                  (pre ++ hdrA :: rowsA ++ hdrB :: rowsB) in
       m !! idA = Some (Correlation.block (hdrA :: rowsA))
       ∧ m !! idB = Some (Correlation.block (hdrB :: rowsB))).
Proof.
  split_and!; [| | | |by intros; eapply coloc_adjacent_blocks
                     |by intros; apply corr_adjacent_blocks].
  - intros st line Hin Hrow. by apply GrammarA.a_step_flush.
  - intros st line Hid Ht. by apply GrammarB.b_step_flush.
  - intros lines st. split.
    + intros Hid. split; [by apply GrammarA.a_eof_open|].
      unfold Colocalisation.extract_results_lines, Colocalisation.finish. fold st.
      by apply Z.eqb_neq in Hid as ->.
    + intros Hid. unfold Colocalisation.extract_results_lines, Colocalisation.finish.
      fold st. by rewrite Hid.
  - intros lines st. split.
    + intros Hid. unfold Correlation.extract_results_lines, Correlation.finish. fold st.
      by apply Z.eqb_neq in Hid as ->.
    + intros Hid. unfold Correlation.extract_results_lines, Correlation.finish.
      fold st. by rewrite Hid.
Qed.

(** Instances: a header line and a label line that end a block, files that
    end inside a block, and files with two blocks one after the other. *)
Lemma block_end_flushes_and_reevaluates_witness :
  Colocalisation.step
    (Colocalisation.State ∅ true 7 ["p,Method"; text_a "1"]) header_a
  = Colocalisation.State
      {[ 7 := Colocalisation.block ["p,Method"; text_a "1"] ]} true 0
      ["p,Method,Frame,Ch1,Ch2,Ch3,n"]
  ∧ Correlation.step (Correlation.State ∅ 7 [label_b "7"; row_b "1"]) (label_b "8")
    = Correlation.State
        {[ 7 := Correlation.block [label_b "7"; row_b "1"] ]} 8 [label_b "8"]
  ∧ Colocalisation.extract_results_lines [header_a; row_a "7" "1"]
    = {[ 7 := Colocalisation.block ["p,Method,Frame,Ch1,Ch2,Ch3,n"; text_a "1"] ]}
  ∧ Correlation.extract_results_lines [label_b "7"; row_b "1"]
    = {[ 7 := Correlation.block [label_b "7"; row_b "1"] ]}
  ∧ (let m := Colocalisation.extract_results_lines
                ([] ++ header_a :: [row_a "7" "1"] ++ header_a :: [row_a "8" "1"]) in
     m !! 7 = Some (Colocalisation.block
                      ("p,Method,Frame,Ch1,Ch2,Ch3,n" :: [(7, text_a "1")].*2))
     ∧ m !! 8 = Some (Colocalisation.block
                        ("p,Method,Frame,Ch1,Ch2,Ch3,n" :: [(8, text_a "1")].*2)))
  ∧ (let m := Correlation.extract_results_lines
                ([] ++ label_b "7" :: [row_b "1"] ++ label_b "8" :: [row_b "2"]) in
     m !! 7 = Some (Correlation.block [label_b "7"; row_b "1"])
     ∧ m !! 8 = Some (Correlation.block [label_b "8"; row_b "2"])).
Proof.
  destruct block_end_flushes_and_reevaluates as (HA & HB & HEA & HEB & HAA & HBB).
  split_and!;
    [| | |
     |apply HAA; try discriminate; try reflexivity; by repeat constructor
     |apply HBB; try discriminate; try reflexivity; by repeat constructor].
  - rewrite HA; [|reflexivity|reflexivity]. vm_compute. reflexivity.
  - rewrite HB; [|vm_compute; discriminate|reflexivity]. vm_compute. reflexivity.
  - destruct (HEA [header_a; row_a "7" "1"]) as [H _].
    destruct H as [_ ->]; [vm_compute; discriminate|]. vm_compute. reflexivity.
  - destruct (HEB [label_b "7"; row_b "1"]) as [H _].
    rewrite H; [|vm_compute; discriminate]. vm_compute. reflexivity.
Defined.

(** C4, as stated, fails: a label line of Grammar B that is followed by
    no row is stored as a block of its own, with no data row in it. *)
Lemma label_only_block_is_stored :
  Correlation.extract_results (label_b "5" +:+ ln "done") !! 5 = Some (label_b "5")
  ∧ tail (splitlines (label_b "5")) = [].
Proof. vm_compute. done. Qed.

(** C4 (amended). In the map that extraction returns each image id is a
    key at most once, and every stored block is the header followed by
    the rows read after it: in Grammar B the label line that names the
    key, which is not 0, followed by lines that start with "t"; in
    Grammar A the column names of a header line followed by the texts of
    the rows. The rows may be missing: a block can hold the header alone.
    In Grammar A a block stored under a non-zero id holds at least one
    row. *)
Theorem extracted_blocks :
  (∀ content : string,
     NoDup (map_to_list (Colocalisation.extract_results content)).*1
     ∧ NoDup (map_to_list (Correlation.extract_results content)).*1)
  ∧ (∀ (content : string) (k : Z) (v : string),
       Correlation.extract_results content !! k = Some v →
       ∃ acc, v = Correlation.block acc
              ∧ Correlation.stored (readlines content) k acc)
  ∧ (∀ (content : string) (k : Z) (v : string),
       Colocalisation.extract_results content !! k = Some v →
       ∃ acc, v = Colocalisation.block acc
              ∧ Colocalisation.stored (readlines content) k acc
              ∧ (k ≠ 0 → ∃ columns text rows, acc = columns :: text :: rows)).
Proof.
  split_and!.
  - intros content. split; apply NoDup_fst_map_to_list.
  - intros content k v. apply GrammarB.b_extract_stored.
  - intros content k v Hv.
    destruct (GrammarA.a_extract_stored _ _ _ Hv) as (acc & -> & Hst).
    exists acc. split_and!; [done|done|].
    destruct Hst as (hdr & columns & parsed & -> & _ & _ & _ & ->).
    intros Hk. destruct parsed as [|[id text] parsed]; [done|].
    by exists columns, text, parsed.*2.
Qed.

(** Instances: the label-only block of image 5, and the block of image 7
    with one row. *)
Lemma extracted_blocks_witness :
  (∃ acc, label_b "5" = Correlation.block acc
          ∧ Correlation.stored (readlines (label_b "5" +:+ ln "done")) 5 acc)
  ∧ (∃ acc, Colocalisation.block ["p,Method,Frame,Ch1,Ch2,Ch3,n"; text_a "1"]
            = Colocalisation.block acc
            ∧ Colocalisation.stored (readlines (header_a +:+ row_a "7" "1")) 7 acc
            ∧ (7 ≠ 0 → ∃ columns text rows, acc = columns :: text :: rows)).
Proof.
  destruct extracted_blocks as (_ & HB & HA). split.
  - apply (HB (label_b "5" +:+ ln "done") 5 (label_b "5")).
    vm_compute. reflexivity.
  - apply (HA (header_a +:+ row_a "7" "1") 7).
    vm_compute. reflexivity.
Defined.

(** C10. When a capture file holds several blocks for the same image id,
    the entry of that id is the last of them alone: whatever comes before
    the last block (also an earlier block for the same id) leaves no
    trace in the entry. Grammar B: a label line naming [id], rows that
    start with "t", then the rest of the file, which starts with no row
    and holds no further label for [id]. Grammar A: a header line, rows
    the last of which names [id], then the rest of the file, which starts
    with no row and holds no further row for [id]. *)
Theorem later_block_replaces_earlier :
  (∀ (pre rows rest : list string) (hdr : string) (id : Z),
     id ≠ 0 →
     Correlation.label_of hdr = Some id →
     Forall (λ l, startswith "t" l = true) rows →
     head rest ≫= (λ l, if startswith "t" l then Some l else None) = None →
     Forall (λ l, Correlation.label_of l ≠ Some id) rest →
     Correlation.extract_results_lines (pre ++ hdr :: rows ++ rest) !! id
     = Some (Correlation.block (hdr :: rows)))
  ∧ (∀ (pre rows rest : list string) (hdr columns : string)
       (parsed : list (Z * string)) (id : Z),
       id ≠ 0 →
       Colocalisation.header_of hdr = Some columns →
       Forall2 (λ l p, Colocalisation.row_of l = Some p) rows parsed →
       last parsed.*1 = Some id →
       head rest ≫= Colocalisation.row_of = None →
       Forall (λ l, ∀ text, Colocalisation.row_of l ≠ Some (id, text)) rest →
       Colocalisation.extract_results_lines (pre ++ hdr :: rows ++ rest) !! id
       = Some (Colocalisation.block (columns :: parsed.*2))).
Proof.
  split.
  - intros. by apply GrammarB.b_last_block_wins.
  - intros. by eapply GrammarA.a_last_block_wins.
Qed.

(** Instances: two blocks for image 7 in one file, in each grammar. *)
Lemma later_block_replaces_earlier_witness :
  Correlation.extract_results_lines
    ([label_b "7"; row_b "1"; ln "done"] ++ label_b "7" :: [row_b "2"; row_b "3"] ++ [ln "done"])
    !! 7
  = Some (Correlation.block [label_b "7"; row_b "2"; row_b "3"])
  ∧ Colocalisation.extract_results_lines
      ([header_a; row_a "7" "1"; ln "done"]
         ++ header_a :: [row_a "7" "2"; row_a "7" "3"] ++ [ln "done"])
      !! 7
    = Some (Colocalisation.block
              ("p,Method,Frame,Ch1,Ch2,Ch3,n" :: [(7, text_a "2"); (7, text_a "3")].*2)).
Proof.
  destruct later_block_replaces_earlier as [HB HA]. split.
  - apply HB.
    + discriminate.
    + reflexivity.
    + repeat constructor.
    + reflexivity.
    + repeat constructor. vm_compute. discriminate.
  - apply HA.
    + discriminate.
    + reflexivity.
    + repeat constructor.
    + reflexivity.
    + reflexivity.
    + repeat constructor. intros text. vm_compute. discriminate.
Defined.

(** ** The claims about channels and e-mail addresses *)

(** C5, as stated, fails: with channels named 0, 1 and 2 the selector 1
    names a channel exactly, at index 1, yet it resolves to index 0, by
    its position. *)
Lemma position_before_name :
  getChannels numbered !! 1%nat = Some "1"
  ∧ find_channel_index numbered "1" = 0.
Proof. vm_compute. done. Qed.

(** C5 (amended). Channel resolution returns the first 0-based index at
    which the channel name equals the selector or the decimal text of
    the 1-based position equals it, and -1 when no index does; a name
    match wins over the positional reading only when it does not come
    after it. For the channels DAPI, GFP, RFP the selector GFP resolves
    to 1, the selector 3 to 2, and Cy5 to nothing, upon which validation
    fails and reports the channel. *)
Theorem find_channel_index_first_hit :
  (∀ (img : Image) (c : string),
     (find_channel_index img c = -1
      ∧ ∀ i ch, getChannels img !! i = Some ch → ¬ selects c i ch)
     ∨ (∃ i ch, find_channel_index img c = Z.of_nat i
          ∧ getChannels img !! i = Some ch ∧ selects c i ch
          ∧ ∀ j chj, (j < i)%nat → getChannels img !! j = Some chj → ¬ selects c j chj))
  ∧ find_channel_index dapi_gfp_rfp "GFP" = 1
  ∧ find_channel_index dapi_gfp_rfp "3" = 2
  ∧ find_channel_index dapi_gfp_rfp "Cy5" = -1
  ∧ Colocalisation.check_parameters [Some dapi_gfp_rfp] (coloc_params "GFP" "Cy5")
    = ([MsgNoChannel 1 "a.tif" "Cy5"], false).
Proof.
  split_and!; try (vm_compute; reflexivity).
  intros img c. apply (find_channel_index_from_spec (getChannels img) c 0).
Qed.

(** C6 fails on the code: the pattern holds an unescaped dot before the
    last letters, which matches any character, so an address without any
    dot is accepted. *)
Theorem validate_email_accepts_dotless :
  Email.validate_email None (Some "a@bcde") = ("a@bcde", true)
  ∧ Email.contains "." "a@bcde" = false.
Proof. vm_compute. done. Qed.

(** ** The claims about the run *)

(** C2. When the ids are given and a check of [check_parameters] fails
    (a selector that resolves to no channel of a selected image, a
    maximum shift not above the minimum shift, neither upload nor e-mail
    chosen), [run] returns -1, every failed check has its error line
    among the lines printed, and nothing else happens: the events added
    to the trace are the printed lines only and the temporary directory
    and its files are untouched, so no image is exported, no process is
    called and no result is attached or mailed. The correlation script
    has the last check only. Without ids [run] returns -1 at once, with
    no check made and nothing done. *)
Theorem rejected_run_reports_and_stops :
  (∀ (W : World) (p : Colocalisation.params) (st : machine),
     let images := select_images Colocalisation.variant W p in
     let errs := (Colocalisation.check_parameters images p).1 in
     Colocalisation.IDs p ≠ [] →
     (∃ img c, Some img ∈ images ∧ c ∈ Colocalisation.selectors p
               ∧ find_channel_index img c < 0)
     ∨ Colocalisation.Maximum_shift p ≤ Colocalisation.Minimum_shift p
     ∨ (Colocalisation.Upload_results p = false
        ∧ Colocalisation.Email_results p = false) →
     run Colocalisation.variant W p st
     = (Machine (dir_exists st) (files st)
          (trace st ++ Print MsgParameters :: (Print <$> errs)), inr (-1))
     ∧ (∀ img c, Some img ∈ images → c ∈ Colocalisation.selectors p →
          find_channel_index img c < 0 →
          MsgNoChannel (getId img) (getName img) c ∈ errs)
     ∧ (Colocalisation.Maximum_shift p ≤ Colocalisation.Minimum_shift p →
        MsgShift (Colocalisation.Maximum_shift p) (Colocalisation.Minimum_shift p) ∈ errs)
     ∧ (Colocalisation.Upload_results p = false →
        Colocalisation.Email_results p = false → MsgNoOption ∈ errs))
  ∧ (∀ (W : World) (p : Correlation.params) (st : machine),
       Correlation.IDs p ≠ [] →
       Correlation.Upload_results p = false → Correlation.Email_results p = false →
       run Correlation.variant W p st
       = (Machine (dir_exists st) (files st)
            (trace st ++ [Print MsgParameters; Print MsgNoOption]), inr (-1)))
  ∧ (∀ (V : Variant) (W : World) (p : v_params V) (st : machine),
       p_ids V p = [] →
       run V W p st
       = (Machine (dir_exists st) (files st) (trace st ++ [Print MsgParameters]),
          inr (-1))).
Proof.
  split_and!; [| |by intros; apply run_no_ids].
  - intros W p st images errs Hids Hbad.
    assert ((Colocalisation.check_parameters images p).2 = false) as Hrej.
    { destruct Hbad as [(img & c & ? & ? & ?)|[?|[? ?]]].
      - eapply Validation.rejected_of_error, Validation.channel_error_reported; eauto.
      - eapply Validation.rejected_of_error, Validation.shift_error_reported; eauto.
      - eapply Validation.rejected_of_error, Validation.option_error_reported; eauto. }
    split_and!.
    + by rewrite (run_rejected Colocalisation.variant W p st).
    + intros. by apply Validation.channel_error_reported.
    + intros. by apply Validation.shift_error_reported.
    + intros. by apply Validation.option_error_reported.
  - intros W p st Hids Hup Hem.
    rewrite (run_rejected Correlation.variant W p st); [|done|].
    + unfold validated. simpl. rewrite corr_check_parameters_eq, Hup, Hem. done.
    + simpl. rewrite corr_check_parameters_eq, Hup, Hem. done.
Qed.

(** Instances: an unknown channel, and no way chosen to hand out the
    results. *)
Lemma rejected_run_reports_and_stops_witness :
  run Colocalisation.variant (world [Some dapi_gfp_rfp] 0 "") (coloc_params "GFP" "Cy5") start
  = (Machine false [] [Print MsgParameters; Print (MsgNoChannel 1 "a.tif" "Cy5")], inr (-1))
  ∧ run Correlation.variant (world [Some dapi_gfp_rfp] 0 "") (corr_params [1] false false) start
    = (Machine false [] [Print MsgParameters; Print MsgNoOption], inr (-1)).
Proof.
  destruct rejected_run_reports_and_stops as (HA & HB & _). split.
  - destruct (HA (world [Some dapi_gfp_rfp] 0 "") (coloc_params "GFP" "Cy5") start)
      as [-> _].
    + discriminate.
    + left. exists dapi_gfp_rfp, "Cy5". split_and!.
      * by left.
      * right. by left.
      * reflexivity.
    + reflexivity.
  - apply (HB (world [Some dapi_gfp_rfp] 0 "") (corr_params [1] false false) start).
    + discriminate.
    + reflexivity.
    + reflexivity.
Defined.

(** C3. [run] returns -1 when the id list is empty or [check_parameters]
    rejects the parameters, and only then: otherwise whatever it returns
    is the number of entries of the map that [run_imagej] returned for
    the exported images, which is not negative and can be 0; and it does
    return that number when the selected images are all resolved and no
    collaborator raises. This holds for both scripts. *)
Theorem run_returns_count :
  ∀ (V : Variant) (W : World) (p : v_params V) (st : machine),
    let images := select_images V W p in
    let accepted := (v_check_parameters V images p).2 in
    (p_ids V p = [] ∨ accepted = false → (run V W p st).2 = inr (-1))
    ∧ ((run V W p st).2 = inr (-1) → p_ids V p = [] ∨ accepted = false)
    ∧ (p_ids V p ≠ [] → accepted = true →
       ∀ n, (run V W p st).2 = inr n →
         0 ≤ n
         ∧ ∃ st1 names st2 results,
             extract_images W images (validated V W p st) = (st1, inr names)
             ∧ run_imagej V W images names p st1 = (st2, inr results)
             ∧ n = Z.of_nat (size results))
    ∧ (p_ids V p ≠ [] → accepted = true → faultless W → files st = [] →
       macro_total V W →
       ∀ imgs, images = Some <$> imgs →
         (run V W p st).2 = inr (Z.of_nat (size (expected_results V W imgs p))))
    ∧ macro_total Colocalisation.variant W
    ∧ macro_total Correlation.variant W.
Proof.
  intros V W p st images accepted.
  split_and!; [| | | |apply coloc_macro_total|apply corr_macro_total].
  - intros [Hids|Hrej].
    + by rewrite run_no_ids.
    + destruct (decide (p_ids V p = [])) as [Hids|Hids].
      * by rewrite run_no_ids.
      * by rewrite run_rejected.
  - intros Hret. destruct (decide (p_ids V p = [])) as [Hids|Hids]; [by left|].
    destruct accepted eqn:Hacc; [|by right]. exfalso.
    rewrite run_accepted in Hret by done.
    destruct (analyse V W (select_images V W p) p (validated V W p st))
      as [st' r] eqn:E. simpl in Hret. subst r.
    apply analyse_returns in E as (_ & _ & _ & results & _ & _ & E). lia.
  - intros Hids Hacc n. rewrite run_accepted by done.
    destruct (analyse V W (select_images V W p) p (validated V W p st))
      as [st' r] eqn:E. simpl. intros ->.
    apply analyse_returns in E as (st1 & names & st2 & results & ? & ? & ->).
    split; [lia|]. eauto 10.
  - intros Hids Hacc HW Hst Hw imgs Himgs. rewrite run_accepted by done.
    fold images. rewrite Himgs in *.
    destruct (analyse_faultless V W HW imgs p (validated V W p st)) as (st' & -> & _);
      done.
Qed.

(** Instances: one result block, no matching output, and no ids. *)
Lemma run_returns_count_witness :
  (run Correlation.variant (world [Some (image 7 ["c1"; "c2"])] 0 (label_b "7" +:+ row_b "1"))
     (corr_params [7] true false) start).2 = inr 1
  ∧ (run Correlation.variant (world [Some (image 7 ["c1"; "c2"])] 0 (ln "no output"))
       (corr_params [7] true false) start).2 = inr 0
  ∧ (run Correlation.variant (world [Some (image 7 ["c1"; "c2"])] 0 "")
       (corr_params [] true false) start).2 = inr (-1).
Proof.
  split_and!.
  - destruct (run_returns_count Correlation.variant
                (world [Some (image 7 ["c1"; "c2"])] 0 (label_b "7" +:+ row_b "1"))
                (corr_params [7] true false) start) as (_ & _ & _ & H).
    destruct H as (H & _ & Hw).
    rewrite (H ltac:(discriminate) eq_refl
               ltac:(by split_and!) eq_refl Hw [image 7 ["c1"; "c2"]] eq_refl).
    vm_compute. reflexivity.
  - destruct (run_returns_count Correlation.variant
                (world [Some (image 7 ["c1"; "c2"])] 0 (ln "no output"))
                (corr_params [7] true false) start) as (_ & _ & _ & H).
    destruct H as (H & _ & Hw).
    rewrite (H ltac:(discriminate) eq_refl
               ltac:(by split_and!) eq_refl Hw [image 7 ["c1"; "c2"]] eq_refl).
    vm_compute. reflexivity.
  - destruct (run_returns_count Correlation.variant
                (world [Some (image 7 ["c1"; "c2"])] 0 "")
                (corr_params [] true false) start) as (H & _).
    apply H. by left.
Defined.

(** C7, as stated, fails: when the export of the first of two images
    raises, the exporter is closed and the exception leaves [run]; the
    second image is never exported. *)
Lemma export_failure_aborts_run :
  run Correlation.variant
      (with_export two_images (λ id, if id =? 1 then GenerateFails else Exported))
      (corr_params [1; 2] true false) start
  = (Machine true []
       [Print MsgParameters; Mkdtemp "/tmp/job"; ExporterOpen 1; ExporterClose 1],
     inl ExportError).
Proof. vm_compute. reflexivity. Qed.

(** C7 (amended). [extract_images] skips the entries of the selection
    that are [None] and exports the other images, in the order of the
    selection, when none of these exports raises. An exception raised
    while an image is exported is not handled per image: the exporter is
    closed, the exception leaves [run], and the images after it are not
    exported. *)
Theorem export_skips_none_and_propagates :
  (∀ (W : World) (images : list (option Image)) (st : machine),
     (∀ img, Some img ∈ images → export W (getId img) = Exported) →
     ∃ st', extract_images W images st = (st', inr (exported_names W images))
            ∧ trace st' = trace st ++ Mkdtemp (tmp_dir W)
                            :: flat_map (export_events W) (resolved images))
  ∧ (∀ (V : Variant) (W : World) (p : v_params V) (st : machine)
       (pre rest : list (option Image)) (img : Image),
       p_ids V p ≠ [] →
       (v_check_parameters V (select_images V W p) p).2 = true →
       select_images V W p = pre ++ Some img :: rest →
       (∀ img', Some img' ∈ pre → export W (getId img') = Exported) →
       export W (getId img) ≠ Exported →
       ∃ st', run V W p st = (st', inl ExportError)
              ∧ trace st' = trace (validated V W p st) ++ Mkdtemp (tmp_dir W)
                              :: flat_map (export_events W) (resolved pre)
                              ++ [ExporterOpen (getId img); ExporterClose (getId img)]).
Proof.
  split.
  - intros W images st Hok. rewrite extract_images_unfold.
    destruct (export_loop_ok W images []
                (Machine true (files st) (trace st ++ [Mkdtemp (tmp_dir W)])) Hok)
      as (st' & E & T).
    exists st'. split; [done|]. rewrite T. simpl. by rewrite <- app_assoc.
  - intros V W p st pre rest img Hids Hacc Hsel Hok Hbad.
    rewrite run_accepted, Hsel by done. unfold analyse, bind.
    rewrite extract_images_unfold.
    destruct (export_loop_fails W pre img rest []
                (Machine true (files (validated V W p st))
                   (trace (validated V W p st) ++ [Mkdtemp (tmp_dir W)])) Hok Hbad)
      as (st' & -> & T).
    exists st'. split; [done|]. rewrite T. simpl. by rewrite <- !app_assoc.
Qed.

(** Instances: a selection with two [None] entries, and an export that
    fails at the second of two images. *)
Lemma export_skips_none_and_propagates_witness :
  (∃ st', extract_images two_images [None; Some (image 1 ["c1"; "c2"]); None;
                                    Some (image 2 ["c1"; "c2"])] start
          = (st', inr ["/tmp/job/1.ome.tif"; "/tmp/job/2.ome.tif"])
          ∧ trace st' = [Mkdtemp "/tmp/job";
                         ExporterOpen 1; Export 1 "/tmp/job/1.ome.tif"; ExporterClose 1;
                         ExporterOpen 2; Export 2 "/tmp/job/2.ome.tif"; ExporterClose 2])
  ∧ (∃ st', run Correlation.variant
                (with_export two_images (λ id, if id =? 2 then ReadFails else Exported))
                (corr_params [1; 2] true false) start
            = (st', inl ExportError)
            ∧ trace st' = [Print MsgParameters; Mkdtemp "/tmp/job";
                           ExporterOpen 1; Export 1 "/tmp/job/1.ome.tif"; ExporterClose 1;
                           ExporterOpen 2; ExporterClose 2]).
Proof.
  destruct export_skips_none_and_propagates as [H1 H2]. split.
  - apply (H1 two_images [None; Some (image 1 ["c1"; "c2"]); None;
                          Some (image 2 ["c1"; "c2"])] start).
    intros img _. reflexivity.
  - apply (H2 Correlation.variant
              (with_export two_images (λ id, if id =? 2 then ReadFails else Exported))
              (corr_params [1; 2] true false) start
              [Some (image 1 ["c1"; "c2"])] [] (image 2 ["c1"; "c2"])).
    + discriminate.
    + reflexivity.
    + reflexivity.
    + intros img' ->%list_elem_of_singleton%(inj Some). reflexivity.
    + discriminate.
Defined.

(** C8, as stated, fails: when the mail server refuses the report, the
    exception leaves [run] and the directory is neither emptied further
    nor removed; and when a temporary file cannot be removed, the failure
    to remove the directory, which is not empty, reaches the caller. *)
Lemma teardown_skipped_or_escalated :
  let r1 := run Correlation.variant (with_smtp two_images false)
                (corr_params [1; 2] true true) start in
  let r2 := run Correlation.variant
                (with_remove two_images (λ f, negb (String.eqb f "/tmp/job/2.ome.tif")))
                (corr_params [1; 2] true false) start in
  (r1.2 = inl SMTPError ∧ Forall not_rmdir (trace r1.1) ∧ dir_exists r1.1 = true)
  ∧ (r2.2 = inl OSError ∧ last (trace r2.1) = Some (Rmdir "/tmp/job")
     ∧ dir_exists r2.1 = true).
Proof. vm_compute. split_and!; try done. repeat constructor. Qed.

(** C8 (amended). For a run that passes validation: when it returns, the
    removal of the temporary directory was its last step, and the
    directory and its files are gone; when it raises, either a step
    before the removal of the directory raised, and then the removal was
    not attempted and the directory is still there, or the removal itself
    failed on a directory that is not empty, and that failure is what the
    caller gets. When no collaborator raises and the selected images are
    all resolved, the run returns and the directory is removed, also when
    the ImageJ process could not be started or exited with a non-zero
    code, in which case the count is 0. *)
Theorem teardown_after_validation :
  ∀ (V : Variant) (W : World) (p : v_params V) (st : machine),
    let images := select_images V W p in
    p_ids V p ≠ [] →
    (v_check_parameters V images p).2 = true →
    Forall not_rmdir (trace st) →
    torn_down W (run V W p st).1 (run V W p st).2
    ∧ (faultless W → files st = [] → macro_total V W →
       ∀ imgs, images = Some <$> imgs →
         ∃ st', run V W p st
                = (st', inr (Z.of_nat (size (expected_results V W imgs p))))
                ∧ last (trace st') = Some (Rmdir (tmp_dir W))
                ∧ dir_exists st' = false ∧ files st' = []
                ∧ ((∀ m, imagej W m = LaunchError
                         ∨ ∃ code out, imagej W m = Exited code out ∧ code ≠ 0) →
                   expected_results V W imgs p = ∅)).
Proof.
  intros V W p st images Hids Hacc Hst. split.
  - rewrite run_accepted by done. apply analyse_torn_down.
    unfold validated. simpl. apply Forall_app. split; [done|].
    constructor; [done|]. apply Forall_fmap. by apply Forall_true.
  - intros HW Hf Hw imgs Himgs. rewrite run_accepted by done. fold images.
    rewrite Himgs in *.
    destruct (analyse_faultless V W HW imgs p (validated V W p st))
      as (st' & E & ? & ? & ?); [done|done|].
    exists st'. split_and!; try done.
    intros Hfail. unfold expected_results. destruct imgs; [done|].
    destruct (Hfail (macro_text
                (v_write_blocks V p (Some <$> i :: imgs) (image_file W <$> i :: imgs)).1))
      as [->|(code & out & -> & Hcode)]; [done|].
    by apply Z.eqb_neq in Hcode as ->.
Qed.

(** Instance: a run on two images in which nothing fails. *)
Lemma teardown_after_validation_witness :
  torn_down two_images
    (run Correlation.variant two_images (corr_params [1; 2] true false) start).1
    (run Correlation.variant two_images (corr_params [1; 2] true false) start).2
  ∧ ∃ st', run Correlation.variant two_images (corr_params [1; 2] true false) start
           = (st', inr 1)
           ∧ last (trace st') = Some (Rmdir "/tmp/job")
           ∧ dir_exists st' = false ∧ files st' = [].
Proof.
  destruct (teardown_after_validation Correlation.variant two_images
              (corr_params [1; 2] true false) start) as [H1 H2].
  - discriminate.
  - reflexivity.
  - constructor.
  - split; [exact H1|].
    destruct (H2 ltac:(by split_and!) eq_refl (corr_macro_total two_images)
                 [image 1 ["c1"; "c2"]; image 2 ["c1"; "c2"]] eq_refl)
      as (st' & E & ? & ? & ? & _).
    exists st'. by split_and!.
Defined.

(** C9 fails on the code: [extract_images] skips a [None] of the
    selection, but [run_imagej] pairs the i-th exported file with the
    i-th entry of the unfiltered selection. With a [None] before an
    exported image the loop that writes the macro takes the [None] for
    the image of the first file and raises before any block is written:
    the exported image gets no block, and the run ends there. In general
    the loop writes the blocks of the images before the first [None] and
    then raises, whenever an exported image follows that [None]. *)
Theorem macro_loop_hits_skipped_none :
  let images := [None; Some (image 7 ["c1"; "c2"])] in
  let W := world images 0 (label_b "7" +:+ row_b "1") in
  exported_names W images = ["/tmp/job/7.ome.tif"]
  ∧ Correlation.write_blocks (corr_params [7] true false) images (exported_names W images)
    = ([], Some AttributeError)
  ∧ Colocalisation.write_blocks (coloc_params "c1" "c2") images (exported_names W images)
    = ([], Some AttributeError)
  ∧ (run Correlation.variant W (corr_params [7] true false) start).2
    = inl AttributeError
  ∧ (run Colocalisation.variant W (coloc_params "c1" "c2") start).2
    = inl AttributeError
  ∧ (∀ (W : World) (imgs : list Image) (rest rest' : list (option Image)) (img : Image),
       let images := (Some <$> imgs) ++ None :: rest ++ Some img :: rest' in
       (∀ p, Correlation.write_blocks p images (exported_names W images)
             = ((λ img, Correlation.image_block p (image_file W img) img) <$> imgs,
                Some AttributeError))
       ∧ (∀ p, Colocalisation.write_blocks p images (exported_names W images)
               = ((λ img, Colocalisation.own_block p (image_file W img) img) <$> imgs,
                  Some AttributeError))).
Proof.
  split_and!; try (vm_compute; reflexivity).
  intros W imgs rest rest' img images. split; intros p.
  - apply corr_none_before_exported.
  - apply coloc_none_before_exported.
Qed.

(** The blocks that the loop does write pair each file with the image it
    was exported from, and without a [None] in the selection every image
    gets its block. *)
Lemma corr_written_blocks_own (W : World) p images k blk :
  (Correlation.write_blocks p images (exported_names W images)).1 !! k = Some blk →
  ∃ img, images !! k = Some (Some img)
         ∧ blk = Correlation.image_block p (image_file W img) img.
Proof.
  intros H.
  assert (∀ j, (j ≤ k)%nat → ∃ x, images !! j = Some (Some x)) as Hpre.
  { intros j Hj.
    destruct (lookup_lt_is_Some_2
                (Correlation.write_blocks p images (exported_names W images)).1 j)
      as [b Hb].
    { apply lookup_lt_Some in H. lia. }
    apply CorrelationMacro.corr_write_blocks_from_lookup in Hb as (x & _ & Hx & _).
    eauto. }
  apply CorrelationMacro.corr_write_blocks_from_lookup in H as (img & name & Hi & Hn & ->).
  simpl in Hi. exists img. split; [done|].
  unfold exported_names in Hn. rewrite list_lookup_fmap in Hn.
  rewrite (resolved_lookup images k img Hpre Hi) in Hn. by injection Hn as <-.
Qed.

Lemma coloc_written_blocks_own (W : World) p images k blk :
  (Colocalisation.write_blocks p images (exported_names W images)).1 !! k = Some blk →
  ∃ img, images !! k = Some (Some img)
         ∧ blk = Colocalisation.own_block p (image_file W img) img.
Proof.
  intros H.
  assert (∀ j, (j ≤ k)%nat → ∃ x, images !! j = Some (Some x)) as Hpre.
  { intros j Hj.
    destruct (lookup_lt_is_Some_2
                (Colocalisation.write_blocks p images (exported_names W images)).1 j)
      as [b Hb].
    { apply lookup_lt_Some in H. lia. }
    apply ColocalisationMacro.coloc_write_blocks_from_lookup in Hb as (x & _ & Hx & _);
      [eauto|done]. }
  apply ColocalisationMacro.coloc_write_blocks_from_lookup in H
    as (img & name & Hi & Hn & ->); [|done].
  simpl in Hi. exists img. split; [done|].
  unfold exported_names in Hn. rewrite list_lookup_fmap in Hn.
  rewrite (resolved_lookup images k img Hpre Hi) in Hn. by injection Hn as <-.
Qed.

(** * Further properties *)

(** ** Capture files made of well-formed blocks *)

Lemma corr_loop_other ls : ∀ st,
  Correlation.image_id st = 0 → Forall (λ l, Correlation.label_of l = None) ls →
  Correlation.loop st ls = st.
Proof.
  induction ls as [|l ls IH]; intros st H0 Hls; [done|].
  inversion Hls as [|?? Hl Hls']; subst.
  rewrite GrammarB.b_loop_cons, GrammarB.b_step_scan, Hl by done. by apply IH.
Qed.

(** A label line closes the block before it, if any, and opens its own. *)
Lemma corr_step_label_finish st line id :
  Correlation.label_of line = Some id →
  Correlation.step st line = Correlation.State (Correlation.finish st) id [line].
Proof.
  intros Hl. unfold Correlation.finish.
  destruct (decide (Correlation.image_id st = 0)) as [H0|H0].
  - rewrite GrammarB.b_step_scan, Hl by done.
    by rewrite H0.
  - rewrite GrammarB.b_step_flush, Hl; [|done|by eapply corr_label_not_row].
    by rewrite (proj2 (Z.eqb_neq _ _) H0).
Qed.

Lemma corr_loop_segment st b :
  cs_ok b →
  Correlation.finish (Correlation.loop st (cs_lines b))
  = <[cs_id b := cs_block b]> (Correlation.finish st).
Proof.
  intros (Hid & Hl & Hrows & Hother & Hhead). unfold cs_lines, cs_block.
  rewrite GrammarB.b_loop_cons, (corr_step_label_finish _ _ _ Hl), GrammarB.b_loop_app.
  rewrite GrammarB.b_loop_rows by done. simpl.
  destruct (cs_other b) as [|o os] eqn:Ho.
  - simpl. unfold Correlation.finish. simpl.
    by rewrite (proj2 (Z.eqb_neq _ _) Hid).
  - inversion Hother as [|?? Ho1 Ho2]; subst.
    rewrite GrammarB.b_loop_cons, GrammarB.b_step_flush, Ho1; [|done|by apply Hhead].
    rewrite corr_loop_other by done. done.
Qed.

Lemma corr_loop_segments bs : ∀ st,
  Forall cs_ok bs →
  Correlation.finish (Correlation.loop st (flat_map cs_lines bs))
  = foldl (λ m b, <[cs_id b := cs_block b]> m) (Correlation.finish st) bs.
Proof.
  induction bs as [|b bs IH]; intros st Hbs; [done|].
  inversion Hbs; subst.
  change (flat_map cs_lines (b :: bs)) with (cs_lines b ++ flat_map cs_lines bs).
  rewrite GrammarB.b_loop_app, IH, corr_loop_segment by done. done.
Qed.

Lemma coloc_loop_other ls : ∀ st,
  Colocalisation.extract_result st = false →
  Forall (λ l, Colocalisation.header_of l = None) ls →
  Colocalisation.loop st ls = st.
Proof.
  induction ls as [|l ls IH]; intros st H0 Hls; [done|].
  inversion Hls as [|?? Hl Hls']; subst.
  rewrite GrammarA.a_loop_cons, GrammarA.a_step_scan, Hl by done. by apply IH.
Qed.

(** A header line closes the block before it, if any, and opens its own. *)
Lemma coloc_step_header_finish st line columns :
  as_settled st →
  Colocalisation.header_of line = Some columns →
  Colocalisation.step st line
  = Colocalisation.State (Colocalisation.finish st) true 0 [columns].
Proof.
  unfold as_settled. intros Hs Hl. unfold Colocalisation.finish.
  destruct (Colocalisation.extract_result st) eqn:He.
  - rewrite GrammarA.a_step_flush, Hl; [|done|by eapply coloc_header_not_row].
    by rewrite (proj2 (Z.eqb_neq _ _) Hs).
  - rewrite GrammarA.a_step_scan, Hl by done. by rewrite Hs.
Qed.

Lemma coloc_loop_segment st b :
  as_ok b → as_settled st →
  Colocalisation.finish (Colocalisation.loop st (as_lines b))
  = <[as_id b := as_block b]> (Colocalisation.finish st)
  ∧ as_settled (Colocalisation.loop st (as_lines b)).
Proof.
  intros (Hl & Hrows & Hid & Hother & Hhead) Hs. unfold as_lines, as_block.
  rewrite GrammarA.a_loop_cons, (coloc_step_header_finish _ _ _ Hs Hl), GrammarA.a_loop_app.
  rewrite (GrammarA.a_loop_rows _ _ _ _ _ Hrows). fold (as_id b). simpl.
  destruct (as_other b) as [|o os] eqn:Ho.
  - simpl. unfold Colocalisation.finish, as_settled. simpl.
    by rewrite (proj2 (Z.eqb_neq _ _) Hid).
  - inversion Hother as [|?? Ho1 Ho2]; subst.
    rewrite GrammarA.a_loop_cons, GrammarA.a_step_flush, Ho1; [|done|by apply Hhead].
    rewrite coloc_loop_other by done. done.
Qed.

Lemma coloc_loop_segments bs : ∀ st,
  Forall as_ok bs → as_settled st →
  Colocalisation.finish (Colocalisation.loop st (flat_map as_lines bs))
  = foldl (λ m b, <[as_id b := as_block b]> m) (Colocalisation.finish st) bs.
Proof.
  induction bs as [|b bs IH]; intros st Hbs Hs; [done|].
  inversion Hbs; subst.
  change (flat_map as_lines (b :: bs)) with (as_lines b ++ flat_map as_lines bs).
  destruct (coloc_loop_segment st b) as [E Hs']; [done..|].
  rewrite GrammarA.a_loop_app, IH, E by done. done.
Qed.

(** Entries stored one after the other under distinct keys. *)
Lemma foldl_insert_lookup {B} (key : B → Z) (val : B → string) bs :
  ∀ (m : gmap Z string) b,
    b ∈ bs → NoDup (key <$> bs) →
    foldl (λ m b, <[key b := val b]> m) m bs !! key b = Some (val b).
Proof.
  induction bs as [|a bs IH]; intros m b Hb Hnd; [by apply elem_of_nil in Hb|].
  simpl in *. apply NoDup_cons in Hnd as [Hna Hnd].
  apply elem_of_cons in Hb as [->|Hb]; [|by apply IH].
  clear IH. revert m. induction bs as [|c bs IH]; intros m; simpl.
  - by rewrite lookup_insert_eq.
  - rewrite fmap_cons in Hna, Hnd. apply not_elem_of_cons in Hna as [Hne Hna].
    apply NoDup_cons in Hnd as [_ Hnd].
    rewrite insert_insert_ne by done. by apply IH.
Qed.

Lemma foldl_insert_dom {B} (key : B → Z) (val : B → string) bs :
  ∀ (m : gmap Z string),
    dom (foldl (λ m b, <[key b := val b]> m) m bs) = dom m ∪ list_to_set (key <$> bs).
Proof.
  induction bs as [|a bs IH]; intros m; simpl.
  - by rewrite (right_id_L ∅ (∪)).
  - rewrite IH, dom_insert_L.
    by rewrite (comm_L (∪) {[key a]} (dom m)), (assoc_L (∪)).
Qed.

Lemma foldl_insert_size {B} (key : B → Z) (val : B → string) bs :
  NoDup (key <$> bs) →
  size (foldl (λ m b, <[key b := val b]> m) (∅ : gmap Z string) bs) = length bs.
Proof.
  intros Hnd. rewrite <- size_dom, foldl_insert_dom, dom_empty_L, (left_id_L ∅ (∪)).
  rewrite size_list_to_set by done. by rewrite length_fmap.
Qed.

(** The correlation parser on a well-formed capture file: lines that are
    no label line, then blocks, each a label line naming an image other
    than 0, rows that start with "t", and further lines none of which is
    a label line and the first of which is no row. The map is what
    storing the blocks one by one, in the order of the file, gives: no
    block is lost, nothing else is stored, a later block for an id
    replaces an earlier one, and a file without a label line gives the
    empty map. When the ids are distinct there is one entry per block. *)
Theorem corr_blocks_in_file_order (before : list string) (bs : list corr_segment) :
  Forall (λ l, Correlation.label_of l = None) before →
  Forall cs_ok bs →
  let m := Correlation.extract_results_lines (before ++ flat_map cs_lines bs) in
  m = foldl (λ m b, <[cs_id b := cs_block b]> m) ∅ bs
  ∧ (NoDup (cs_id <$> bs) →
     size m = length bs ∧ ∀ b, b ∈ bs → m !! cs_id b = Some (cs_block b)).
Proof.
  intros Hb Hbs m.
  assert (Hm : m = foldl (λ m b, <[cs_id b := cs_block b]> m) ∅ bs).
  { unfold m, Correlation.extract_results_lines.
    rewrite GrammarB.b_loop_app, (corr_loop_other before) by done.
    by rewrite corr_loop_segments. }
  split; [done|]. intros Hnd. rewrite Hm. split.
  - by apply (foldl_insert_size cs_id cs_block).
  - intros b Hb'. by apply (foldl_insert_lookup cs_id cs_block).
Qed.

(** Instance: a banner line, the block of image 7 with two rows followed
    by a blank line, and the block of image 8 at the end of the file. *)
Lemma corr_blocks_in_file_order_witness :
  let bs := [ {| cs_id := 7; cs_label := label_b "7";
                 cs_rows := [row_b "1"; row_b "2"]; cs_other := [ln ""] |};
              {| cs_id := 8; cs_label := label_b "8";
                 cs_rows := [row_b "1"]; cs_other := [] |} ] in
  let m := Correlation.extract_results_lines ([ln "ImageJ 1.47"] ++ flat_map cs_lines bs) in
  m = foldl (λ m b, <[cs_id b := cs_block b]> m) ∅ bs
  ∧ (NoDup (cs_id <$> bs) →
     size m = length bs ∧ ∀ b, b ∈ bs → m !! cs_id b = Some (cs_block b)).
Proof.
  intros bs. apply (corr_blocks_in_file_order [ln "ImageJ 1.47"] bs).
  - repeat constructor.
  - repeat constructor; try discriminate; by intros l [= <-].
Defined.

(** The colocalisation parser on a well-formed capture file: lines that
    are no header line, then blocks, each a header line, rows the last of
    which names an image other than 0, and further lines none of which is
    a header line and the first of which is no row. The map is what
    storing the blocks one by one, in the order of the file, each under
    the id of its last row, gives; rows before the first header line are
    ignored, and a file without a header line gives the empty map. When
    the ids are distinct there is one entry per block. *)
Theorem coloc_blocks_in_file_order (before : list string) (bs : list coloc_segment) :
  Forall (λ l, Colocalisation.header_of l = None) before →
  Forall as_ok bs →
  let m := Colocalisation.extract_results_lines (before ++ flat_map as_lines bs) in
  m = foldl (λ m b, <[as_id b := as_block b]> m) ∅ bs
  ∧ (NoDup (as_id <$> bs) →
     size m = length bs ∧ ∀ b, b ∈ bs → m !! as_id b = Some (as_block b)).
Proof.
  intros Hb Hbs m.
  assert (Hm : m = foldl (λ m b, <[as_id b := as_block b]> m) ∅ bs).
  { unfold m, Colocalisation.extract_results_lines.
    rewrite GrammarA.a_loop_app, (coloc_loop_other before) by done.
    by rewrite coloc_loop_segments. }
  split; [done|]. intros Hnd. rewrite Hm. split.
  - by apply (foldl_insert_size as_id as_block).
  - intros b Hb'. by apply (foldl_insert_lookup as_id as_block).
Qed.

(** Instance: a row outside any block, the block of image 7 with two rows
    followed by a blank line, and the block of image 8 at the end of the
    file. *)
Lemma coloc_blocks_in_file_order_witness :
  let columns := "p,Method,Frame,Ch1,Ch2,Ch3,n" in
  let bs := [ {| as_header := header_a; as_columns := columns;
                 as_rows := [row_a "7" "1"; row_a "7" "2"];
                 as_parsed := [(7, text_a "1"); (7, text_a "2")];
                 as_other := [ln ""] |};
              {| as_header := header_a; as_columns := columns;
                 as_rows := [row_a "8" "1"]; as_parsed := [(8, text_a "1")];
                 as_other := [] |} ] in
  let m := Colocalisation.extract_results_lines ([row_a "3" "1"] ++ flat_map as_lines bs) in
  m = foldl (λ m b, <[as_id b := as_block b]> m) ∅ bs
  ∧ (NoDup (as_id <$> bs) →
     size m = length bs ∧ ∀ b, b ∈ bs → m !! as_id b = Some (as_block b)).
Proof.
  intros columns bs. apply (coloc_blocks_in_file_order [row_a "3" "1"] bs).
  - repeat constructor.
  - repeat constructor; try discriminate; by intros l [= <-].
Defined.

(** ** The report *)

Lemma string_app_nil_r (s : string) : s +:+ "" = s.
Proof.
  induction s as [|c s IH]; [done|].
  change (String c (s +:+ "") = String c s). by rewrite IH.
Qed.

Lemma string_app_assoc (a b c : string) : (a +:+ b) +:+ c = a +:+ (b +:+ c).
Proof.
  induction a as [|x a IH]; [done|].
  change (String x ((a +:+ b) +:+ c) = String x (a +:+ (b +:+ c))). by rewrite IH.
Qed.

Lemma rev_app_rev_app (t a b : string) :
  String.rev_app (String.rev_app t a) b = String.rev_app a (t +:+ b).
Proof.
  revert a b. induction t as [|c t IH]; intros a b; [done|].
  change (String.rev_app (String.rev_app t (String c a)) b
          = String.rev_app a (String c (t +:+ b))).
  by rewrite IH.
Qed.

Lemma rev_rev_app (t : string) : String.rev (String.rev_app t "") = t.
Proof. unfold String.rev. by rewrite rev_app_rev_app, string_app_nil_r. Qed.

Lemma splitlines_go_text t : ∀ cur rest,
  no_break t = true →
  splitlines_go cur (t +:+ rest) = splitlines_go (String.rev_app t cur) rest.
Proof.
  induction t as [|c t IH]; intros cur rest Ht; [done|].
  cbn in Ht. apply andb_prop in Ht as [Hc Ht]. apply andb_prop in Hc as [H1 H2].
  apply negb_true_iff in H1, H2.
  change (String c t +:+ rest) with (String c (t +:+ rest)).
  simpl. rewrite H1, H2. by apply IH.
Qed.

Lemma splitlines_line t rest :
  no_break t = true →
  splitlines (t +:+ String LF rest) = t :: splitlines rest.
Proof.
  intros Ht. unfold splitlines. rewrite splitlines_go_text by done.
  cbn. by rewrite rev_rev_app.
Qed.

Lemma splitlines_last t :
  no_break t = true → t ≠ "" → splitlines t = [t].
Proof.
  intros Ht Hne. unfold splitlines.
  rewrite <- (string_app_nil_r t) at 1. rewrite splitlines_go_text by done.
  cbn. destruct (String.rev_app t "") eqn:E.
  - destruct t; [done|]. pose proof (rev_rev_app (String a t)) as H.
    rewrite E in H. done.
  - by rewrite <- E, rev_rev_app.
Qed.

(** [splitlines] gives back the texts joined by newlines, unless the last
    one is empty. *)
Lemma splitlines_join l :
  Forall (λ t, no_break t = true) l → last l ≠ Some "" →
  splitlines (join (String LF "") l) = l.
Proof.
  induction l as [|x [|y r] IH]; intros Hl Hlast; [done|..].
  - inversion Hl; subst. apply splitlines_last; [done|]. intros ->. by apply Hlast.
  - inversion Hl; subst.
    change (join (String LF "") (x :: y :: r))
      with (x +:+ String LF "" +:+ join (String LF "") (y :: r)).
    change (String LF "" +:+ join (String LF "") (y :: r))
      with (String LF (join (String LF "") (y :: r))).
    rewrite splitlines_line by done. f_equal. apply IH; [done|].
    by rewrite last_cons_cons in Hlast.
Qed.

Lemma join_empty_cons x l : join "" (x :: l) = x +:+ join "" l.
Proof. destruct l; cbn; [by rewrite string_app_nil_r|done]. Qed.

(** [splitlines] gives back the texts of lines that each end with a
    newline. *)
Lemma splitlines_lines l :
  Forall (λ t, no_break t = true) l →
  splitlines (join "" (ln <$> l)) = l.
Proof.
  induction l as [|x l IH]; intros Hl; [done|].
  inversion Hl; subst. rewrite fmap_cons, join_empty_cons. unfold ln at 1.
  rewrite string_app_assoc.
  change (String LF "" +:+ join "" (ln <$> l)) with (String LF (join "" (ln <$> l))).
  rewrite splitlines_line by done. f_equal. by apply IH.
Qed.

Lemma join_snoc_empty x l :
  join (String LF "") (x :: l ++ [""]) = join (String LF "") (x :: l) +:+ String LF "".
Proof.
  revert x. induction l as [|y l IH]; intros x.
  - simpl. by rewrite string_app_nil_r.
  - change (join (String LF "") (x :: (y :: l) ++ [""]))
      with (x +:+ String LF "" +:+ join (String LF "") (y :: l ++ [""])).
    rewrite IH.
    change (join (String LF "") (x :: y :: l))
      with (x +:+ String LF "" +:+ join (String LF "") (y :: l)).
    by rewrite !string_app_assoc.
Qed.

(** A newline at the end adds no line. *)
Lemma splitlines_join_newline l :
  Forall (λ t, no_break t = true) l → l ≠ [] →
  splitlines (join (String LF "") l +:+ String LF "") = l.
Proof.
  induction l as [|x [|y r] IH]; intros Hl Hne; [done|..].
  - inversion Hl; subst. simpl. by rewrite splitlines_line.
  - inversion Hl; subst.
    change (join (String LF "") (x :: y :: r))
      with (x +:+ String LF "" +:+ join (String LF "") (y :: r)).
    rewrite !string_app_assoc.
    change (String LF "" +:+ (join (String LF "") (y :: r) +:+ String LF ""))
      with (String LF (join (String LF "") (y :: r) +:+ String LF "")).
    rewrite splitlines_line by done. f_equal. by apply IH.
Qed.

(** The rows [create_report] adds for the entry of an image that exists:
    one per data row of the stored block, in the order of the block, each
    the project name, the dataset name, the image id and the base name of
    the image followed by the text of the row; the first line of the
    block (the column names, the label line) gives no row. This holds for
    a block of Grammar A whose texts hold no line break and whose last
    text is not empty, and for a block of Grammar B whose lines each end
    with a newline. A block of Grammar A that ends with an empty row text
    loses that row in the report. *)
Theorem report_rows_follow_data_rows (W : World) (id : Z) (img : Image) :
  getObject W id = Some img →
  let row := λ text,
    name_or_dash (project_name img) +:+ "," +:+ name_or_dash (dataset_name img)
      +:+ "," +:+ pretty id +:+ "," +:+ basename (getName img) +:+ "," +:+ text in
  (∀ columns texts,
     Forall (λ t, no_break t = true) (columns :: texts) →
     last (columns :: texts) ≠ Some "" →
     report_rows W (id, Colocalisation.block (columns :: texts)) = row <$> texts)
  ∧ (∀ label texts,
       Forall (λ t, no_break t = true) (label :: texts) →
       report_rows W (id, Correlation.block (ln label :: (ln <$> texts))) = row <$> texts)
  ∧ (∀ columns texts,
       Forall (λ t, no_break t = true) (columns :: texts) →
       report_rows W (id, Colocalisation.block (columns :: texts ++ [""]))
       = row <$> texts).
Proof.
  intros Himg row. unfold report_rows. simpl. rewrite Himg. split_and!.
  - intros columns texts Hc Hl. unfold Colocalisation.block.
    by rewrite splitlines_join.
  - intros label texts Hc. unfold Correlation.block.
    by rewrite <- fmap_cons, splitlines_lines.
  - intros columns texts Hc. unfold Colocalisation.block.
    by rewrite join_snoc_empty, splitlines_join_newline.
Qed.

(** Instance: the image 1 of the sample world. *)
Lemma report_rows_follow_data_rows_witness :
  let row := λ text, "P1,D1,1,a.tif," +:+ text in
  (∀ columns texts,
     Forall (λ t, no_break t = true) (columns :: texts) →
     last (columns :: texts) ≠ Some "" →
     report_rows two_images (1, Colocalisation.block (columns :: texts)) = row <$> texts)
  ∧ (∀ label texts,
       Forall (λ t, no_break t = true) (label :: texts) →
       report_rows two_images (1, Correlation.block (ln label :: (ln <$> texts)))
       = row <$> texts)
  ∧ (∀ columns texts,
       Forall (λ t, no_break t = true) (columns :: texts) →
       report_rows two_images (1, Colocalisation.block (columns :: texts ++ [""]))
       = row <$> texts).
Proof.
  apply (report_rows_follow_data_rows two_images 1 (image 1 ["c1"; "c2"])).
  reflexivity.
Defined.

(** ** What a run attaches and mails *)

Section Emits.
Context {A B : Type}.
Variable P : event → Prop.

Lemma emits_ret (x : A) : emits P (ret x).
Proof. intros st st' r [= <- <-]. exists []. by rewrite app_nil_r. Qed.

Lemma emits_raise (e : exn) : emits P (raise (A:=A) e).
Proof. intros st st' r [= <- <-]. exists []. by rewrite app_nil_r. Qed.

Lemma emits_bind (m : M A) (k : A → M B) :
  emits P m → (∀ x, emits P (k x)) → emits P (bind m k).
Proof.
  intros Hm Hk st st' r. unfold bind. destruct (m st) as [st1 [e|x]] eqn:E.
  - intros [= <- <-]. by apply (Hm _ _ _ E).
  - intros E'. destruct (Hm _ _ _ E) as (evs1 & T1 & F1).
    destruct (Hk x _ _ _ E') as (evs2 & T2 & F2).
    exists (evs1 ++ evs2). rewrite T2, T1, app_assoc. split; [done|].
    by apply Forall_app.
Qed.

Lemma emits_finally (m : M A) (f : M unit) :
  emits P m → emits P f → emits P (finally m f).
Proof.
  intros Hm Hf st st' r. unfold finally. destruct (m st) as [st1 r1] eqn:E.
  destruct (f st1) as [st2 [e|[]]] eqn:E'; intros [= <- <-];
    destruct (Hm _ _ _ E) as (evs1 & T1 & F1);
    destruct (Hf _ _ _ E') as (evs2 & T2 & F2);
    exists (evs1 ++ evs2); rewrite T2, T1, app_assoc; (split; [done|]);
    by apply Forall_app.
Qed.

Lemma emits_catch (e : exn) (m h : M A) :
  emits P m → emits P h → emits P (catch e m h).
Proof.
  intros Hm Hh st st' r. unfold catch. destruct (m st) as [st1 [e'|x]] eqn:E.
  - case_bool_decide.
    + intros E'. destruct (Hm _ _ _ E) as (evs1 & T1 & F1).
      destruct (Hh _ _ _ E') as (evs2 & T2 & F2).
      exists (evs1 ++ evs2). rewrite T2, T1, app_assoc. split; [done|].
      by apply Forall_app.
    + intros [= <- <-]. by apply (Hm _ _ _ E).
  - intros [= <- <-]. by apply (Hm _ _ _ E).
Qed.

End Emits.

Lemma emits_swallow P (m : M unit) : emits P m → emits P (swallow m).
Proof.
  intros Hm st st' r. unfold swallow. destruct (m st) as [st1 r1] eqn:E.
  intros [= <- <-]. by apply (Hm _ _ _ E).
Qed.

Lemma emits_emit (P : event → Prop) e : P e → emits P (emit e).
Proof. intros He st st' r [= <- <-]. exists [e]. split; [done|]. by constructor. Qed.

Lemma emits_create P name : emits P (create name).
Proof. intros st st' r [= <- <-]. exists []. by rewrite app_nil_r. Qed.

Lemma emits_unlink P name : emits P (unlink name).
Proof. intros st st' r [= <- <-]. exists []. by rewrite app_nil_r. Qed.

Lemma emits_set_dir P b : emits P (set_dir b).
Proof. intros st st' r [= <- <-]. exists []. by rewrite app_nil_r. Qed.

Lemma emits_listdir P : emits P listdir.
Proof. intros st st' r [= <- <-]. exists []. by rewrite app_nil_r. Qed.

Ltac emits_tac :=
  repeat first
    [ apply emits_ret | apply emits_raise | apply emits_create | apply emits_unlink
    | apply emits_listdir | apply emits_set_dir
    | apply emits_emit; first [exact I | done]
    | apply emits_bind; [|intro]
    | apply emits_finally | apply emits_catch | apply emits_swallow
    | match goal with
      | |- emits _ (match ?x with _ => _ end) => destruct x eqn:?
      | |- emits _ (let (_, _) := ?x in _) => destruct x eqn:?
      end
    | assumption ].

Section PipelineEmits.
Variable V : Variant.
Variable W : World.
Variable p : v_params V.

Let P := permitted V W p.

Lemma emits_export_loop images : ∀ names, emits P (export_loop W images names).
Proof.
  induction images as [|[img|] rest IH]; intros names; simpl; [emits_tac|..|apply IH].
  unfold export_image. emits_tac. apply IH.
Qed.

Lemma emits_write_all file blocks : emits P (write_all file blocks).
Proof. induction blocks; simpl; emits_tac. Qed.

Lemma emits_remove_loop names : emits P (remove_loop W names).
Proof. induction names; simpl; emits_tac. Qed.

Lemma emits_print_lines ls : emits P (print_lines ls).
Proof. induction ls; simpl; emits_tac. Qed.

Lemma emits_print_msgs ms : emits P (print_msgs ms).
Proof. induction ms; simpl; emits_tac. Qed.

Lemma emits_run_imagej images names : emits P (run_imagej V W images names p).
Proof.
  unfold run_imagej. destruct names; [emits_tac|].
  emits_tac; try apply emits_write_all; try apply emits_remove_loop.
Qed.

Lemma emits_upload_loop rs :
  p_upload V p = true → emits P (upload_loop W (v_create_result_name V p) rs).
Proof.
  intros Hu. induction rs as [|r rs IH]; simpl; [emits_tac|].
  apply emits_bind; [|intros _; apply IH].
  unfold upload_one. destruct (getObject W r.1) eqn:E; [|emits_tac].
  emits_tac.
Qed.

Lemma emits_distribute results names : emits P (distribute V W results names p).
Proof.
  unfold distribute, upload_results, email_results.
  case_bool_decide; [|emits_tac].
  apply emits_bind; [|intros _; apply emits_bind; [apply emits_print_lines|intros _]].
  - destruct (p_upload V p) eqn:Hu; simpl; [by apply emits_upload_loop|emits_tac].
  - destruct (p_email_results V p) eqn:He; simpl; [|emits_tac].
    destruct (smtp_ok W); [|emits_tac]. apply emits_emit. by split_and!.
Qed.

Lemma emits_run : emits P (run V W p).
Proof.
  unfold run. apply emits_bind; [emits_tac|intros _].
  destruct (p_ids V p); [emits_tac|].
  apply emits_bind; [apply emits_print_msgs|intros _].
  destruct (negb _); [emits_tac|].
  unfold analyse, extract_images, rmdir.
  emits_tac; try apply emits_export_loop; try apply emits_run_imagej;
    try apply emits_distribute.
  all: by apply emits_emit.
Qed.

End PipelineEmits.

(** Whatever the collaborators do and however the run ends, [run]
    attaches a file only when the upload of results is asked for, to an
    image that exists, under the name made of the image id, a dot and the
    result name; it sends mail only when e-mailing the results is asked
    for, to the address of the parameters, with the subject of the script
    and the parameter lines; and the only directory it makes or removes
    is the temporary one. With the upload switched off no file is
    attached, with e-mail switched off no mail is sent. *)
Theorem run_distributes_as_asked (V : Variant) (W : World) (p : v_params V)
    (st : machine) :
  ∃ evs, trace (run V W p st).1 = trace st ++ evs
    ∧ Forall (permitted V W p) evs
    ∧ (p_upload V p = false → ∀ id name text, Attach id name text ∉ evs)
    ∧ (p_email_results V p = false →
       ∀ recipient subj names parameters attachment,
         Sendmail recipient subj names parameters attachment ∉ evs).
Proof.
  destruct (run V W p st) as [st' r] eqn:E.
  destruct (emits_run V W p _ _ _ E) as (evs & T & F).
  exists evs. split_and!; [done..| |].
  - intros Hu id name text Hin. rewrite Forall_forall in F.
    destruct (F _ Hin) as [Hu' _]. congruence.
  - intros He recipient subj names parameters attachment Hin.
    rewrite Forall_forall in F. destruct (F _ Hin) as [He' _]. congruence.
Qed.

(** Instance: a run that uploads and does not mail. *)
Lemma run_distributes_as_asked_witness :
  ∃ evs,
    trace (run Correlation.variant two_images (corr_params [1; 2] true false) start).1
    = trace start ++ evs
    ∧ Forall (permitted Correlation.variant two_images (corr_params [1; 2] true false)) evs
    ∧ (∀ recipient subj names parameters attachment,
         Sendmail recipient subj names parameters attachment ∉ evs).
Proof.
  destruct (run_distributes_as_asked Correlation.variant two_images
              (corr_params [1; 2] true false) start) as (evs & T & F & _ & Hm).
  exists evs. split_and!; [exact T|exact F|]. apply Hm. reflexivity.
Defined.

Lemma upload_loop_ok W name rs : ∀ st,
  (∀ id, attach_ok W id = true) → (∀ f, remove_ok W f = true) →
  ∃ st', upload_loop W name rs st = (st', inr tt)
         ∧ trace st' = trace st ++ flat_map (upload_events W name) rs
         ∧ dir_exists st' = dir_exists st.
Proof.
  intros st Ha Hr. revert st. induction rs as [|r rs IH]; intros st.
  - exists st. simpl. by rewrite app_nil_r.
  - simpl. unfold bind, upload_one, upload_events.
    destruct (getObject W r.1) eqn:E.
    + unfold bind, create, emit, unlink. simpl. rewrite Ha, Hr. simpl.
      edestruct IH as (st' & -> & T & D). exists st'. split; [done|].
      rewrite T, D. simpl. by rewrite <- !app_assoc.
    + simpl. apply IH.
Qed.

(** When the annotation calls and the removal of files succeed,
    [upload_results] returns, and what it does is, for each entry of the
    map whose image exists, in the order of the map: attach the block of
    the entry to that image under the name made of the image id, a dot
    and the result name, then remove the temporary file. Entries whose
    image does not exist are passed over, and with the upload switched
    off nothing is done. *)
Theorem upload_attaches_every_block (V : Variant) (W : World)
    (results : gmap Z string) (p : v_params V) (st : machine) :
  (∀ id, attach_ok W id = true) → (∀ f, remove_ok W f = true) →
  ∃ st', upload_results V W results p st = (st', inr tt)
    ∧ dir_exists st' = dir_exists st
    ∧ trace st' = trace st ++
        if p_upload V p
        then flat_map (upload_events W (v_create_result_name V p)) (map_to_list results)
        else [].
Proof.
  intros Ha Hr. unfold upload_results. destruct (p_upload V p); simpl.
  - destruct (upload_loop_ok W (v_create_result_name V p) (map_to_list results) st Ha Hr)
      as (st' & E & T & D).
    by exists st'.
  - exists st. by rewrite app_nil_r.
Qed.

(** Instance: the blocks of the image 1, which exists, and of the image
    9, which does not. *)
Lemma upload_attaches_every_block_witness :
  ∃ st', upload_results Correlation.variant two_images
           {[ 1 := label_b "1"; 9 := label_b "9" ]} (corr_params [1; 2] true false) start
         = (st', inr tt)
    ∧ dir_exists st' = dir_exists start
    ∧ trace st' = trace start ++
        if p_upload Correlation.variant (corr_params [1; 2] true false)
        then flat_map (upload_events two_images
                         (v_create_result_name Correlation.variant
                            (corr_params [1; 2] true false)))
                      (map_to_list ({[ 1 := label_b "1"; 9 := label_b "9" ]} : gmap Z string))
        else [].
Proof.
  apply (upload_attaches_every_block Correlation.variant two_images); reflexivity.
Defined.

Lemma export_loop_none W images : ∀ names st,
  resolved images = [] → export_loop W images names st = (st, inr names).
Proof.
  induction images as [|[img|] rest IH]; intros names st Hr; [done|done|].
  simpl. by apply IH.
Qed.

(** A run whose parameters pass validation but whose selection holds no
    image (ids that resolve to nothing, datasets that do not exist or are
    empty) makes the temporary directory and removes it again, and
    returns 0: nothing is exported, no macro is written, ImageJ is not
    called, and nothing is printed, attached or mailed. No collaborator
    can make this run fail. *)
Theorem run_without_images (V : Variant) (W : World) (p : v_params V) (st : machine) :
  p_ids V p ≠ [] →
  (v_check_parameters V (select_images V W p) p).2 = true →
  resolved (select_images V W p) = [] →
  files st = [] →
  run V W p st
  = (Machine false []
       (trace (validated V W p st) ++ [Mkdtemp (tmp_dir W); Rmdir (tmp_dir W)]),
     inr 0).
Proof.
  intros Hids Hok Hres Hfiles. rewrite run_accepted by done.
  unfold analyse. unfold bind at 1. rewrite extract_images_unfold.
  rewrite export_loop_none by done.
  unfold bind at 1. unfold run_imagej at 1. unfold ret at 1.
  unfold distribute. rewrite bool_decide_false by (by intros []).
  unfold bind, ret. rewrite rmdir_run. simpl. rewrite Hfiles.
  by rewrite <- app_assoc.
Qed.

(** Instance: an id that resolves to no image. *)
Lemma run_without_images_witness :
  run Correlation.variant (world [None] 0 "") (corr_params [5] true false) start
  = (Machine false []
       (trace (validated Correlation.variant (world [None] 0 "")
                 (corr_params [5] true false) start)
          ++ [Mkdtemp (tmp_dir (world [None] 0 "")); Rmdir (tmp_dir (world [None] 0 ""))]),
     inr 0).
Proof.
  apply (run_without_images Correlation.variant (world [None] 0 "")
           (corr_params [5] true false) start).
  - discriminate.
  - reflexivity.
  - reflexivity.
  - reflexivity.
Defined.

(** ** Accepted e-mail addresses *)

Lemma first_some_Some {A B} (f : A → option B) l y :
  first_some f l = Some y → ∃ x, x ∈ l ∧ f x = Some y.
Proof.
  induction l as [|x l IH]; [done|]. simpl. destruct (f x) eqn:E.
  - intros [= <-]. exists x. split; [left|done].
  - intros H. destruct (IH H) as (x' & ? & ?). exists x'. split; [by right|done].
Qed.

Lemma elem_of_counts_down lo n k : k ∈ counts_down lo n → (lo ≤ k ≤ n)%nat.
Proof.
  unfold counts_down. rewrite list_elem_of_In, <- in_rev, in_seq. lia.
Qed.

Lemma take_chars_drop n s : take_chars n s +:+ drop n s = s.
Proof.
  revert s. induction n as [|n IH]; intros [|c s]; try done.
  simpl. change (String c (take_chars n s +:+ drop n s) = String c s). by rewrite IH.
Qed.

Lemma take_chars_span p n s : (n ≤ span p s)%nat → all_chars p (take_chars n s) = true.
Proof.
  revert s. induction n as [|n IH]; intros [|c s]; simpl; try done.
  destruct (p c); [|lia]. intros H. simpl. apply IH. lia.
Qed.

Lemma take_chars_nonempty p n s : (1 ≤ n ≤ span p s)%nat → take_chars n s ≠ "".
Proof. destruct n, s; simpl; try lia; done. Qed.

(** A match of a repetition followed by a character. *)
Lemma re_run_rep_chr p lo c r s pos m :
  re_run (Rep p lo None :: chr c :: r) s pos = Some m →
  ∃ k rest, (lo ≤ k)%nat ∧ all_chars p (take_chars k s) = true
    ∧ s = take_chars k s +:+ String c rest
    ∧ (1 ≤ lo → take_chars k s ≠ "")%nat.
Proof.
  simpl. intros H. apply first_some_Some in H as (k & Hk & H).
  apply elem_of_counts_down in Hk.
  destruct (drop k s) as [|d rest] eqn:E; [done|].
  destruct (Ascii.eqb_spec c d) as [->|]; [|done].
  exists k, rest. split_and!.
  - lia.
  - apply take_chars_span. lia.
  - by rewrite <- E, take_chars_drop.
  - intros Hlo. apply (take_chars_nonempty p). lia.
Qed.

Lemma span_length p s : (span p s ≤ String.length s)%nat.
Proof. induction s as [|c s IH]; simpl; [lia|]. destruct (p c); simpl; lia. Qed.

Lemma drop_length k s :
  (k ≤ String.length s → String.length (drop k s) = String.length s - k)%nat.
Proof.
  revert s. induction k as [|k IH]; intros [|c s]; simpl; try lia.
  intros H. apply IH. lia.
Qed.

(** A line that a pattern matches is at least as long as the pattern
    demands. *)
Lemma re_run_min_length r : ∀ s pos m,
  re_run r s pos = Some m → (min_length r ≤ String.length s)%nat.
Proof.
  induction r as [|[p|p lo hi| |] r IH]; intros s pos m; simpl.
  - lia.
  - destruct s as [|c s]; [done|]. destruct (p c); [|done].
    intros H%IH. simpl. lia.
  - intros H. apply first_some_Some in H as (k & Hk & H).
    apply elem_of_counts_down in Hk. apply IH in H.
    pose proof (span_length p s).
    assert (k ≤ String.length s)%nat by (destruct hi; lia).
    rewrite drop_length in H by done. lia.
  - destruct (re_run r s pos) eqn:E; [|done]. intros _. by eapply IH.
  - destruct (at_end s); [|done]. apply IH.
Qed.

(** When [validate_email] accepts, the address it stored in the
    parameters is the e-mail parameter if that is given and not empty,
    and the address of the profile otherwise (a given parameter is never
    replaced by the profile address); the address starts with one or more
    characters of the class of letters, digits, dot, underscore, percent
    and hyphen, followed by an at sign; and it has at least 6
    characters. So without a parameter and without a profile address
    nothing is accepted. *)
Theorem validate_email_accepted (profile param : option string) (addr : string) :
  Email.validate_email profile param = (addr, true) →
  addr = default "" (if truthy param then param else profile)
  ∧ (∃ name rest, addr = name +:+ String "@" rest ∧ name ≠ ""
                  ∧ all_chars Email.addr_char name = true)
  ∧ (6 ≤ String.length addr)%nat.
Proof.
  unfold Email.validate_email. intros [= Ha Hm].
  apply bool_decide_eq_true in Hm as [m Hm]. rewrite Ha in Hm. split_and!.
  - rewrite <- Ha. destruct (truthy param); [done|].
    destruct (truthy profile) eqn:E; [done|]. subst addr. done.
  - unfold re_match, Email.re_email in Hm.
    apply re_run_rep_chr in Hm as (k & rest & _ & Hall & Hs & Hne).
    exists (take_chars k addr), rest. split_and!; [done| |done]. apply Hne. lia.
  - apply re_run_min_length in Hm. exact Hm.
Qed.

(** Instance: an address given as parameter, with another address in the
    profile. *)
Lemma validate_email_accepted_witness :
  "user@example.org"
  = default "" (if truthy (Some "user@example.org")
                then Some "user@example.org" else Some "other@example.org")
  ∧ (∃ name rest, "user@example.org" = name +:+ String "@" rest ∧ name ≠ ""
                  ∧ all_chars Email.addr_char name = true)
  ∧ (6 ≤ String.length "user@example.org")%nat.
Proof.
  apply (validate_email_accepted (Some "other@example.org") (Some "user@example.org")).
  reflexivity.
Defined.

(** ** Accepted parameters *)

Lemma find_channel_index_range img c :
  -1 ≤ find_channel_index img c < Z.of_nat (length (getChannels img)).
Proof.
  unfold find_channel_index.
  destruct (find_channel_index_from_spec (getChannels img) c 0)
    as [[-> _]|(i & ch & -> & Hi & _)].
  - lia.
  - apply lookup_lt_Some in Hi. lia.
Qed.

Lemma ok_of_nil errs : Colocalisation.ok_of errs = true ↔ errs = [].
Proof. by destruct errs. Qed.

Lemma flat_map_nil {A B} (f : A → list B) l :
  flat_map f l = [] ↔ ∀ x, x ∈ l → f x = [].
Proof.
  induction l as [|a l IH]; simpl.
  - split; [|done]. intros _ x Hx. by apply elem_of_nil in Hx.
  - rewrite app_nil, IH. split.
    + intros [Ha Hl] x [->|Hx]%elem_of_cons; auto.
    + intros H. split; [apply H; left|intros x Hx; apply H; by right].
Qed.

Lemma channel_errors_nil img C :
  Colocalisation.channel_errors img C = [] ↔ ∀ c, c ∈ C → 0 ≤ find_channel_index img c.
Proof.
  unfold Colocalisation.channel_errors. rewrite flat_map_nil.
  split; intros H c Hc; specialize (H c Hc).
  - destruct (Z.ltb_spec (find_channel_index img c) 0); [done|lia].
  - destruct (Z.ltb_spec (find_channel_index img c) 0); [lia|done].
Qed.

Lemma image_errors_nil C images :
  Colocalisation.image_errors C images = []
  ↔ ∀ img c, Some img ∈ images → c ∈ C → 0 ≤ find_channel_index img c.
Proof.
  unfold Colocalisation.image_errors. rewrite flat_map_nil. split.
  - intros H img c Himg. specialize (H _ Himg). simpl in H.
    by apply channel_errors_nil.
  - intros H [img|] Hin; [|done]. apply channel_errors_nil. intros c. by apply H.
Qed.

(** [check_parameters] of the colocalisation script accepts exactly when
    every channel selector resolves, for every selected image that is not
    [None], to an index of one of its channels, the maximum shift is
    above the minimum shift, and the upload or the e-mail of the results
    is asked for; that of the correlation script accepts exactly when the
    upload or the e-mail is asked for, whatever the images. In both
    scripts the parameters are accepted exactly when no error line is
    printed. *)
Theorem check_parameters_accepts :
  (∀ (images : list (option Image)) (p : Colocalisation.params),
     (Colocalisation.check_parameters images p).2 = true
     ↔ (∀ img c, Some img ∈ images → c ∈ Colocalisation.selectors p →
          0 ≤ find_channel_index img c < Z.of_nat (length (getChannels img)))
       ∧ Colocalisation.Minimum_shift p < Colocalisation.Maximum_shift p
       ∧ (Colocalisation.Upload_results p = true
          ∨ Colocalisation.Email_results p = true))
  ∧ (∀ (images : list (option Image)) (p : Colocalisation.params),
       (Colocalisation.check_parameters images p).2 = true
       ↔ (Colocalisation.check_parameters images p).1 = [])
  ∧ (∀ (images : list (option Image)) (p : Correlation.params),
       ((Correlation.check_parameters images p).2 = true
        ↔ Correlation.Upload_results p = true ∨ Correlation.Email_results p = true)
       ∧ ((Correlation.check_parameters images p).2 = true
          ↔ (Correlation.check_parameters images p).1 = [])).
Proof.
  split_and!.
  - intros images p. rewrite Validation.check_parameters_eq. simpl.
    rewrite ok_of_nil, !app_nil, image_errors_nil.
    unfold Colocalisation.shift_errors, Colocalisation.option_errors.
    split.
    + intros (Hi & Hs & Ho). split_and!.
      * intros img c Himg Hc. pose proof (find_channel_index_range img c).
        specialize (Hi img c Himg Hc). lia.
      * destruct (Z.leb_spec (Colocalisation.Maximum_shift p)
                    (Colocalisation.Minimum_shift p)); [done|lia].
      * destruct (Colocalisation.Upload_results p),
          (Colocalisation.Email_results p); auto; done.
    + intros (Hi & Hs & Ho). split_and!.
      * intros img c Himg Hc. by apply Hi.
      * destruct (Z.leb_spec (Colocalisation.Maximum_shift p)
                    (Colocalisation.Minimum_shift p)); [lia|done].
      * destruct Ho as [-> | ->]; [done|]. by rewrite andb_false_r.
  - intros images p. rewrite Validation.check_parameters_eq. simpl. apply ok_of_nil.
  - intros images p. rewrite corr_check_parameters_eq.
    destruct (Correlation.Upload_results p), (Correlation.Email_results p); simpl;
      split; split; intros; try done; auto; by destruct_or?.
Qed.

(** ** The entry point *)

Section ScriptFacts.
Variable V : Variant.
Variable W : World.
Variable set_email : string → v_params V → v_params V.
Variable profile_email : option string.

(** What [run] returns is -1 or a count. *)
Lemma run_result p st count :
  (run V W p st).2 = inr count →
  (count = -1 ∧ (p_ids V p = [] ∨ (v_check_parameters V (select_images V W p) p).2 = false))
  ∨ (0 ≤ count ∧ p_ids V p ≠ []
     ∧ (v_check_parameters V (select_images V W p) p).2 = true).
Proof.
  destruct (decide (p_ids V p = [])) as [Hids|Hids].
  { rewrite run_no_ids by done. intros [= <-]. left. auto. }
  destruct (v_check_parameters V (select_images V W p) p).2 eqn:Hc.
  - rewrite run_accepted by done. intros H. right.
    destruct (analyse V W (select_images V W p) p (validated V W p st)) as [st' r] eqn:E.
    simpl in H. subst r.
    apply analyse_returns in E as (? & ? & ? & results & _ & _ & ->).
    split; [lia|done].
  - rewrite run_rejected by done. intros [= <-]. left. auto.
Qed.

Lemma mails_validated_of_set_email p st :
  (∀ a q, p_email V (set_email a q) = Some a) →
  (∀ a q, p_email_results V (set_email a q) = p_email_results V q) →
  mails_validated V W set_email profile_email p st.
Proof.
  intros Hmail Hres evs. unfold run_as_script, script_body, script_params.
  destruct (Email.validate_email profile_email (p_email V p)) as [addr ok] eqn:Ev.
  destruct (p_email_results V p) eqn:He; [destruct ok|]; cbn [fst snd andb negb].
  - set (q := set_email addr p).
    destruct (emits_run V W q st (run V W q st).1 (run V W q st).2) as (evs' & T & F);
      [by destruct (run V W q st)|].
    destruct (run V W q st) as [st' [e|count]]; cbn [fst snd] in *;
      intros T'; rewrite T in T'; apply app_inv_head in T'; subst evs';
      intros recipient subj names parameters attachment Hin;
      rewrite Forall_forall in F; destruct (F _ Hin) as (_ & -> & _);
      unfold q; by rewrite Hmail.
  - intros T. rewrite <- (app_nil_r (trace st)) in T at 1.
    apply app_inv_head in T. subst evs. intros ????? Hin. by apply elem_of_nil in Hin.
  - destruct (emits_run V W p st (run V W p st).1 (run V W p st).2) as (evs' & T & F);
      [by destruct (run V W p st)|].
    destruct (run V W p st) as [st' [e|count]]; cbn [fst snd] in *;
      intros T'; rewrite T in T'; apply app_inv_head in T'; subst evs';
      intros recipient subj names parameters attachment Hin;
      rewrite Forall_forall in F; destruct (F _ Hin) as (He' & _); congruence.
Qed.

End ScriptFacts.

(** [run_as_script] of either script closes the session exactly once, as
    its last step, also when [run] raises. When the results are to be
    mailed and no valid address is found, the message is that no valid
    e-mail address is there and [run] is not called: nothing is printed,
    exported or run. Otherwise [run] is called with the checked address
    stored in the parameters; when it raises, no message is set and the
    exception leaves the script; when it returns -1, which is when the
    ids are missing or the parameters are rejected, the message names
    errors in the input parameters; when it returns a count, the message
    is the count of processed images. *)
Theorem run_as_script_reports (V : Variant) (W : World)
    (set_email : string → v_params V → v_params V) (profile_email : option string)
    (p : v_params V) (st : machine) :
  let valid := (Email.validate_email profile_email (p_email V p)).2 in
  let q := script_params V set_email profile_email p in
  let out := run_as_script V W set_email profile_email p st in
  last out.1.2 = Some CloseSession
  ∧ length (filter (λ e, e = CloseSession) out.1.2) = 1%nat
  ∧ (p_email_results V p = true → valid = false →
     out = (st, [SetOutput no_email_message; CloseSession], inr tt))
  ∧ (p_email_results V p = false ∨ valid = true →
     out.1.1 = (run V W q st).1
     ∧ match (run V W q st).2 with
       | inl e => out.1.2 = [CloseSession] ∧ out.2 = inl e
       | inr count =>
           out.2 = inr tt
           ∧ ((p_ids V q = [] ∨ (v_check_parameters V (select_images V W q) q).2 = false)
              ∧ count = -1 ∧ out.1.2 = [SetOutput errors_message; CloseSession]
              ∨ (p_ids V q ≠ [] ∧ (v_check_parameters V (select_images V W q) q).2 = true)
                ∧ 0 ≤ count
                ∧ out.1.2 = [SetOutput (processed_message count); CloseSession])
       end).
Proof.
  intros valid q out. unfold out, run_as_script, script_body. fold q. fold valid.
  split_and!.
  - simpl. by rewrite last_snoc.
  - simpl. destruct (_ && _); [done|].
    destruct (run V W q st) as [st' [e|count]]; done.
  - intros -> ->. done.
  - intros Hv. assert (p_email_results V p && negb valid = false) as ->.
    { destruct Hv as [-> | ->]; [done|]. apply andb_false_r. }
    pose proof (run_result V W q st) as Hr.
    destruct (run V W q st) as [st' [e|count]]; simpl; [done|].
    split; [done|]. split; [done|].
    destruct (Hr count eq_refl) as [[-> H]|(H0 & H1 & H2)].
    + left. done.
    + right. split; [done|]. split; [done|].
      by rewrite (proj2 (Z.leb_le 0 count) H0).
Qed.

(** Every mail either script sends goes to the address that
    [validate_email] accepted: the e-mail parameter if it is given, the
    address of the profile otherwise. No mail is sent to an address that
    was not checked or that failed the check. *)
Theorem script_mails_validated_address (W : World) (profile_email : option string)
    (st : machine) :
  (∀ p, mails_validated Colocalisation.variant W coloc_set_email profile_email p st)
  ∧ (∀ p, mails_validated Correlation.variant W corr_set_email profile_email p st).
Proof.
  split; intros p; by apply mails_validated_of_set_email.
Qed.

(** Instances: the correlation script with no address at all, and with
    an address in the profile only. *)
Lemma run_as_script_reports_witness :
  corr_run_as_script two_images None
    (corr_set_email "" (corr_params [1; 2] true true)) start
  = (start, [SetOutput "No valid email address"; CloseSession], inr tt)
  ∧ (corr_run_as_script two_images (Some "user@example.org")
       (corr_set_email "" (corr_params [1; 2] true true)) start).1.2
    = [SetOutput "Processed 1 image"; CloseSession].
Proof.
  split.
  - destruct (run_as_script_reports Correlation.variant two_images corr_set_email None
                (corr_set_email "" (corr_params [1; 2] true true)) start)
      as (_ & _ & H & _).
    apply H; reflexivity.
  - destruct (run_as_script_reports Correlation.variant two_images corr_set_email
                (Some "user@example.org")
                (corr_set_email "" (corr_params [1; 2] true true)) start)
      as (_ & _ & _ & H).
    destruct H as [_ H]; [right; reflexivity|].
    vm_compute in H. destruct H as [_ [(_ & H & _)|(_ & _ & H)]]; [discriminate H|].
    vm_compute. exact H.
Defined.

(** Instance: the mail of a run of the correlation script goes to the
    address given as parameter, which is valid. *)
Lemma script_mails_validated_address_witness :
  p_email_results Correlation.variant (corr_params [1; 2] true true) = true
  ∧ Email.validate_email (Some "other@example.org")
      (p_email Correlation.variant (corr_params [1; 2] true true))
    = ("user@example.org", true).
Proof.
  destruct (script_mails_validated_address two_images (Some "other@example.org") start)
    as [_ H].
  eapply (H (corr_params [1; 2] true true)
            (trace (corr_run_as_script two_images (Some "other@example.org")
                      (corr_params [1; 2] true true) start).1.1)).
  - reflexivity.
  - vm_compute. repeat first [apply list_elem_of_here | apply list_elem_of_further].
Defined.

(** ** Byte counts in words *)

Import Bytes.

Lemma partition_loop_zero fuel base : partition_loop fuel 0 base = [].
Proof. by destruct fuel. Qed.

Lemma no_fuel_bound d : 0 ≤ d < 2 ^ Z.of_nat 0 → d = 0.
Proof. change (2 ^ Z.of_nat 0) with 1. lia. Qed.

Lemma half_bound d base f :
  2 ≤ base → 0 ≤ d < 2 ^ Z.of_nat (S f) → 0 ≤ d / base < 2 ^ Z.of_nat f.
Proof.
  intros Hb [H0 H1]. split; [apply Z.div_pos; lia|].
  rewrite Nat2Z.inj_succ, Z.pow_succ_r in H1 by lia.
  apply Z.div_lt_upper_bound; [lia|]. nia.
Qed.

Lemma partition_loop_fuel base : 2 ≤ base → ∀ f1 f2 d,
  0 ≤ d < 2 ^ Z.of_nat f1 → 0 ≤ d < 2 ^ Z.of_nat f2 →
  partition_loop f1 d base = partition_loop f2 d base.
Proof.
  intros Hb. induction f1 as [|f1 IH]; intros f2 d H1 H2.
  - assert (d = 0) as -> by (by apply no_fuel_bound). by rewrite !partition_loop_zero.
  - destruct f2 as [|f2].
    + assert (d = 0) as -> by (by apply no_fuel_bound). by rewrite !partition_loop_zero.
    + simpl. destruct (d =? 0); [done|]. f_equal.
      apply IH; by apply half_bound.
Qed.

Lemma partition_loop_digits base : 2 ≤ base → ∀ fuel d,
  0 ≤ d < 2 ^ Z.of_nat fuel →
  unpartition base (partition_loop fuel d base) = d
  ∧ Forall (λ part, 0 ≤ part < base) (partition_loop fuel d base)
  ∧ last (partition_loop fuel d base) ≠ Some 0.
Proof.
  intros Hb. induction fuel as [|fuel IH]; intros d Hd.
  - assert (d = 0) as -> by (by apply no_fuel_bound). done.
  - simpl. destruct (Z.eqb_spec d 0) as [->|Hne]; [done|].
    destruct (IH (d / base)) as (IH1 & IH2 & IH3); [by apply half_bound|].
    split_and!.
    + simpl. rewrite IH1. pose proof (Z.div_mod d base). lia.
    + constructor; [|done]. apply Z.mod_pos_bound. lia.
    + destruct (partition_loop fuel (d / base) base) as [|x l] eqn:E.
      * simpl. intros [= H]. simpl in IH1.
        pose proof (Z.div_mod d base). lia.
      * by rewrite last_cons_cons.
Qed.

Lemma log2_bound number base :
  0 ≤ number → 2 ≤ base →
  0 ≤ number / base < 2 ^ Z.of_nat (Z.to_nat (Z.log2 number)).
Proof.
  intros H0 Hb. split; [apply Z.div_pos; lia|].
  rewrite Z2Nat.id by apply Z.log2_nonneg.
  destruct (Z.eq_dec number 0) as [->|Hne].
  - rewrite Z.div_0_l by lia. simpl. lia.
  - pose proof (Z.log2_spec number) as [_ H]; [lia|].
    rewrite Z.pow_succ_r in H by apply Z.log2_nonneg.
    apply Z.div_lt_upper_bound; [lia|]. nia.
Qed.

(** [partition_number] of a number that is not negative, for a base of 2
    or more, yields the digits of the number in that base, lowest power
    first: the digits give the number back, each is at least 0 and below
    the base, and for a positive number the last one, of the highest
    power, is not 0. The loop ends by itself: any bound on its rounds
    that is large enough gives the same digits. *)
Theorem partition_number_digits (number base : Z) :
  0 ≤ number → 2 ≤ base →
  let parts := partition_number number base in
  unpartition base parts = number
  ∧ Forall (λ part, 0 ≤ part < base) parts
  ∧ (0 < number → last parts ≠ Some 0)
  ∧ (∀ fuel, 0 ≤ number / base < 2 ^ Z.of_nat fuel →
       (number mod base) :: partition_loop fuel (number / base) base = parts).
Proof.
  intros H0 Hb parts. unfold parts, partition_number.
  pose proof (log2_bound number base H0 Hb) as Hlog.
  destruct (partition_loop_digits base Hb _ _ Hlog) as (P1 & P2 & P3).
  split_and!.
  - simpl. rewrite P1. pose proof (Z.div_mod number base). lia.
  - constructor; [|done]. apply Z.mod_pos_bound. lia.
  - intros Hpos.
    destruct (partition_loop (Z.to_nat (Z.log2 number)) (number / base) base)
      as [|x l] eqn:E.
    + simpl. intros [= H]. simpl in P1. pose proof (Z.div_mod number base). lia.
    + by rewrite last_cons_cons.
  - intros fuel Hf. f_equal. by apply partition_loop_fuel.
Qed.

Lemma partition_loop_length base : 2 ≤ base → ∀ fuel d (k : nat),
  0 ≤ d < base ^ Z.of_nat k → (length (partition_loop fuel d base) ≤ k)%nat.
Proof.
  intros Hb. induction fuel as [|fuel IH]; intros d k Hd; simpl; [lia|].
  destruct (Z.eqb_spec d 0) as [->|Hne]; simpl; [lia|].
  destruct k as [|k]; [change (base ^ Z.of_nat 0) with 1 in Hd; lia|].
  apply le_n_S, IH. split; [apply Z.div_pos; lia|].
  rewrite Nat2Z.inj_succ, Z.pow_succ_r in Hd by lia.
  apply Z.div_lt_upper_bound; [lia|]. lia.
Qed.

Lemma partition_number_length number :
  0 ≤ number < 2 ^ 110 → (length (partition_number number (2 ^ 10)) ≤ 11)%nat.
Proof.
  intros Hn. unfold partition_number. simpl length. apply le_n_S.
  apply partition_loop_length; [lia|]. split; [apply Z.div_pos; lia|].
  apply Z.div_lt_upper_bound; [lia|].
  change (2 ^ 10 * (2 ^ 10) ^ Z.of_nat 10) with (2 ^ 110). lia.
Qed.

Lemma format_bytes_from_ok parts : ∀ power,
  (power + length parts ≤ 11)%nat →
  ∃ items, format_bytes_from power parts = inr items
    ∧ Forall2 (λ item pd, ∃ suffix, format_suffix pd.1 pd.2 = inr suffix
                 ∧ item = pretty pd.2 +:+ " " +:+ suffix)
        items (zip (seq power (length parts)) parts).
Proof.
  induction parts as [|d parts IH]; intros power Hp.
  - exists []. split; [done|constructor].
  - simpl in Hp. simpl. unfold format_suffix at 1.
    destruct (PREFIX !! power) as [prefix|] eqn:E.
    + destruct (IH (S power)) as (items & -> & F); [lia|].
      eexists. split; [done|]. constructor; [|done].
      eexists. split; [|done]. simpl. unfold format_suffix. by rewrite E.
    + apply lookup_ge_None in E. simpl in E. lia.
Qed.

Lemma format_bytes_from_fails parts : ∀ power e,
  format_bytes_from power parts = inl e → e = PrefixIndexError.
Proof.
  induction parts as [|d parts IH]; intros power e; simpl; [done|].
  unfold format_suffix. destruct (PREFIX !! power); [|by intros [= <-]].
  destruct (format_bytes_from (S power) parts) eqn:E; [|done].
  intros [= <-]. by eapply IH.
Qed.

Lemma select_items_take l : ∀ verbosity count,
  select_items verbosity count l
  = take (Z.to_nat (verbosity - count) + 1) (filter (λ item, starts_nonzero item = true) l).
Proof.
  induction l as [|item l IH]; intros verbosity count; [by rewrite filter_nil, take_nil|].
  simpl. rewrite filter_cons. destruct (starts_nonzero item) eqn:E.
  - rewrite decide_True by done. rewrite Nat.add_1_r. simpl. f_equal.
    destruct (Z.leb_spec verbosity count) as [H|H].
    + replace (Z.to_nat (verbosity - count)) with 0%nat by lia. done.
    + rewrite IH. f_equal. lia.
  - rewrite decide_False by done. apply IH.
Qed.

Lemma head_check_all : forallb head_check (seq 0 1024) = true.
Proof. vm_compute. reflexivity. Qed.

Lemma starts_nonzero_part d rest :
  0 ≤ d < 2 ^ 10 → starts_nonzero (pretty d +:+ rest) = negb (d =? 0).
Proof.
  intros Hd. pose proof head_check_all as H. rewrite forallb_forall in H.
  specialize (H (Z.to_nat d)). unfold head_check in H. rewrite Z2Nat.id in H by lia.
  destruct (pretty d) as [|c s].
  - discriminate H. apply in_seq. lia.
  - simpl. apply Bool.eqb_prop. apply H. apply in_seq. lia.
Qed.

Lemma Forall_zip_snd {A B} (P : B → Prop) (l : list A) : ∀ k,
  Forall P k → Forall (λ pd, P pd.2) (zip l k).
Proof.
  induction l as [|x l IH]; intros [|y k] Hk; simpl; try constructor.
  - by inversion Hk.
  - apply IH. by inversion Hk.
Qed.

Lemma Forall2_and_r {A B} (R : A → B → Prop) (Q : B → Prop) l k :
  Forall2 R l k → Forall Q k → Forall2 (λ x y, R x y ∧ Q y) l k.
Proof.
  induction 1 as [|x y l k HR _ IH]; intros HQ; constructor; inversion HQ; auto.
Qed.

(** [convert_readable] returns a text exactly when the raw format is
    asked for or the number is below 2^110 in absolute value; otherwise
    the assertion on the range fails. The lookup in [PREFIX] never fails:
    the assertion keeps the number of parts within the 11 prefixes, and
    2^110 is the first number whose parts go beyond them. *)
Theorem convert_readable_defined (number verbosity : Z) (raw_bytes : bool) :
  ((∃ text, convert_readable number verbosity raw_bytes = inr text)
   ↔ raw_bytes = true ∨ Z.abs number < 2 ^ 110)
  ∧ (∀ e, convert_readable number verbosity raw_bytes = inl e → e = AssertionError)
  ∧ format_bytes (partition_number (2 ^ 110) (2 ^ 10)) = inl PrefixIndexError.
Proof.
  split_and!; [| |vm_compute; reflexivity].
  - unfold convert_readable. destruct raw_bytes; [split; eauto|].
    destruct (Z.eqb_spec number 0) as [->|Hne].
    { split; [intros _; right; lia|eauto]. }
    set (n := if number <? 0 then - number else number).
    assert (n = Z.abs number) as Hn by (unfold n; destruct (Z.ltb_spec number 0); lia).
    destruct (Z.ltb_spec 0 n) as [Hpos|]; [|lia]. simpl.
    destruct (Z.ltb_spec n (2 ^ 110)) as [Hlt|Hge].
    + destruct (format_bytes_from_ok (partition_number n (2 ^ 10)) 0) as (items & E & _).
      { pose proof (partition_number_length n). lia. }
      unfold format_bytes. rewrite E. split; [intros _; right; lia|eauto].
    + split; [by intros [? ?]|]. intros [?|?]; [done|lia].
  - intros e. unfold convert_readable. destruct raw_bytes; [done|].
    destruct (number =? 0); [done|].
    set (n := if number <? 0 then - number else number).
    destruct ((0 <? n) && (n <? 2 ^ 110)) eqn:E; [|by intros [= <-]].
    apply andb_prop in E as [E1%Z.ltb_lt E2%Z.ltb_lt].
    destruct (format_bytes_from_ok (partition_number n (2 ^ 10)) 0) as (items & E & _).
    { pose proof (partition_number_length n). lia. }
    unfold format_bytes. by rewrite E.
Qed.

(** For a positive number below 2^110 [convert_readable] lists the parts
    of the number in base 1024 that are not 0, highest power first, each
    as the part, a space and the suffix of its power, separated by a
    comma and a space; the loop stops after the item that follows
    [verbosity] items, so at most [verbosity] + 1 items are listed. The
    text for the negated number is the same after a minus sign. *)
Theorem convert_readable_lists_parts (number verbosity : Z) :
  0 < number < 2 ^ 110 →
  let parts := partition_number number (2 ^ 10) in
  ∃ items,
    format_bytes parts = inr items
    ∧ Forall2 (λ item pd,
                 (∃ suffix, format_suffix pd.1 pd.2 = inr suffix
                            ∧ item = pretty pd.2 +:+ " " +:+ suffix)
                 ∧ starts_nonzero item = negb (pd.2 =? 0))
        items (zip (seq 0 (length parts)) parts)
    ∧ let listed := take (Z.to_nat verbosity + 1)
                      (filter (λ item, starts_nonzero item = true) (rev items)) in
      convert_readable number verbosity false = inr (join ", " listed)
      ∧ convert_readable (- number) verbosity false = inr ("-" +:+ join ", " listed).
Proof.
  intros Hn parts.
  destruct (format_bytes_from_ok parts 0) as (items & E & F).
  { pose proof (partition_number_length number). unfold parts. lia. }
  exists items. split; [done|]. split.
  - destruct (partition_number_digits number (2 ^ 10)) as (_ & Hd & _); [lia..|].
    eapply Forall2_impl.
    + apply (Forall2_and_r _ (λ pd, 0 ≤ pd.2 < 2 ^ 10) _ _ F).
      by apply (Forall_zip_snd (λ part, 0 ≤ part < 2 ^ 10)).
    + intros item pd [(suffix & Hs & ->) Hpd]. split; [by exists suffix|].
      by apply starts_nonzero_part.
  - intros listed. unfold convert_readable.
    destruct (Z.eqb_spec number 0); [lia|]. destruct (Z.eqb_spec (- number) 0); [lia|].
    destruct (Z.ltb_spec number 0); [lia|]. destruct (Z.ltb_spec (- number) 0); [|lia].
    rewrite Z.opp_involutive.
    destruct (Z.ltb_spec 0 number); [|lia]. destruct (Z.ltb_spec number (2 ^ 110)); [|lia].
    cbn [andb]. fold parts. unfold format_bytes.
    rewrite E, select_items_take, Z.sub_0_r. done.
Qed.

(** Instance: 1536 bytes. *)
Lemma convert_readable_lists_parts_witness :
  let parts := partition_number 1536 (2 ^ 10) in
  ∃ items,
    format_bytes parts = inr items
    ∧ Forall2 (λ item pd,
                 (∃ suffix, format_suffix pd.1 pd.2 = inr suffix
                            ∧ item = pretty pd.2 +:+ " " +:+ suffix)
                 ∧ starts_nonzero item = negb (pd.2 =? 0))
        items (zip (seq 0 (length parts)) parts)
    ∧ let listed := take (Z.to_nat 100 + 1)
                      (filter (λ item, starts_nonzero item = true) (rev items)) in
      convert_readable 1536 100 false = inr (join ", " listed)
      ∧ convert_readable (- 1536) 100 false = inr ("-" +:+ join ", " listed).
Proof. apply (convert_readable_lists_parts 1536 100). lia. Defined.

(** Instance: 1536 in base 1024. *)
Lemma partition_number_digits_witness :
  let parts := partition_number 1536 1024 in
  unpartition 1024 parts = 1536
  ∧ Forall (λ part, 0 ≤ part < 1024) parts
  ∧ (0 < 1536 → last parts ≠ Some 0)
  ∧ (∀ fuel, 0 ≤ 1536 / 1024 < 2 ^ Z.of_nat fuel →
       (1536 mod 1024) :: partition_loop fuel (1536 / 1024) 1024 = parts).
Proof. apply (partition_number_digits 1536 1024); lia. Defined.

(** Sample texts. *)
Example convert_readable_examples :
  convert_readable 1536 100 false = inr "1 Kilobyte, 512 Bytes"
  ∧ convert_readable 1048576 100 false = inr "1 Megabyte"
  ∧ convert_readable 1 100 false = inr "1 Byte"
  ∧ convert_readable (2 ^ 30 + 2 ^ 21 + 3) 0 false = inr "1 Gigabyte"
  ∧ convert_readable (2 ^ 30 + 2 ^ 21 + 3) 1 false = inr "1 Gigabyte, 2 Megabytes"
  ∧ convert_readable (-2048) 100 false = inr "-2 Kilobytes"
  ∧ convert_readable 5 100 true = inr "5 Bytes".
Proof. vm_compute. by split_and!. Qed.

(** ** The macro of a selection without [None] *)

(** When no image of the selection is [None], the macro of either script
    holds one block per image, in the order of the selection; the block
    of an image opens the file exported for that image and carries the
    sizes of that image, and in the colocalisation script the channel
    numbers resolved on that image, with no third channel when the
    parameters name none. The loop ends without an exception. *)
Theorem macro_has_block_per_image (W : World) (imgs : list Image) :
  (∀ p : Correlation.params,
     Correlation.write_blocks p (Some <$> imgs) (exported_names W (Some <$> imgs))
     = ((λ img, Correlation.image_block p (image_file W img) img) <$> imgs, None))
  ∧ (∀ p : Colocalisation.params,
       Colocalisation.write_blocks p (Some <$> imgs) (exported_names W (Some <$> imgs))
       = ((λ img, Colocalisation.own_block p (image_file W img) img) <$> imgs, None)).
Proof.
  unfold exported_names. rewrite resolved_fmap_Some. split; intros p.
  - unfold Correlation.write_blocks.
    rewrite (CorrelationMacro.corr_write_blocks_from_all p [] imgs);
      [|done|by rewrite length_fmap].
    by rewrite zip_with_fmap_diag.
  - unfold Colocalisation.write_blocks.
    rewrite (ColocalisationMacro.coloc_write_blocks_from_all p [] imgs);
      [|done|done|by rewrite length_fmap].
    by rewrite zip_with_fmap_diag.
Qed.

(** ** The mail *)

Lemma join_cons_nonempty sep x l : x ≠ "" → join sep (x :: l) ≠ "".
Proof. destruct x as [|c x]; [done|]. intros _. by destruct l. Qed.

Lemma email_results_report (V : Variant) (W : World) (results : gmap Z string)
    (p : v_params V) (st : machine) :
  report_header V ≠ "" → p_email_results V p = true →
  email_results V W results (create_report V W results) p st
  = if smtp_ok W
    then (Machine (dir_exists st) (files st)
            (trace st ++
               [Sendmail (default "" (p_email V p)) (subject V)
                  (list_image_names W results) (v_build_parameters V p)
                  (Some (join (String LF "") (create_report V W results)))]),
          inr tt)
    else (st, inl SMTPError).
Proof.
  intros Hh He. unfold email_results. rewrite He. cbn [negb].
  destruct (smtp_ok W); [|done].
  destruct (String.eqb_spec (join (String LF "") (create_report V W results)) "")
    as [E|_]; [|done].
  by apply join_cons_nonempty in E.
Qed.

(** When the results are to be mailed and the mail server accepts the
    message, [email_results], called with the report of [create_report] as
    [run] does, sends one mail: to the address of the parameters, with
    the subject of the script, one line per entry of the map whose image
    exists, the lines of the parameters, and always with the report as
    attachment, since the report starts with its header line and so is
    never empty; a map whose images are all gone still gives a mail, with
    the header line alone attached. When the server refuses, the
    exception leaves the function and nothing is recorded as sent. *)
Theorem mail_carries_report (W : World) (results : gmap Z string) (st : machine) :
  (∀ p : Correlation.params,
     Correlation.Email_results p = true →
     email_results Correlation.variant W results
       (create_report Correlation.variant W results) p st
     = if smtp_ok W
       then (Machine (dir_exists st) (files st)
               (trace st ++
                  [Sendmail (default "" (Correlation.Email p))
                     "[OMERO Job] Correlation analysis"
                     (list_image_names W results) (Correlation.build_parameters p)
                     (Some (join (String LF "")
                              (create_report Correlation.variant W results)))]),
             inr tt)
       else (st, inl SMTPError))
  ∧ (∀ p : Colocalisation.params,
       Colocalisation.Email_results p = true →
       email_results Colocalisation.variant W results
         (create_report Colocalisation.variant W results) p st
       = if smtp_ok W
         then (Machine (dir_exists st) (files st)
                 (trace st ++
                    [Sendmail (default "" (Colocalisation.Email p))
                       "[OMERO Job] Colocalisation analysis"
                       (list_image_names W results) (Colocalisation.build_parameters p)
                       (Some (join (String LF "")
                                (create_report Colocalisation.variant W results)))]),
               inr tt)
         else (st, inl SMTPError))
  ∧ length (list_image_names W results)
    = length (filter (λ r, is_Some (getObject W r.1)) (map_to_list results)).
Proof.
  split_and!.
  - intros p He. by apply (email_results_report Correlation.variant).
  - intros p He. by apply (email_results_report Colocalisation.variant).
  - unfold list_image_names. induction (map_to_list results) as [|r rs IH]; [done|].
    simpl. rewrite filter_cons, length_app, IH. unfold image_name_row.
    destruct (getObject W r.1) eqn:E.
    + rewrite decide_True by done. done.
    + rewrite decide_False by (by intros [? ?]). done.
Qed.

(** Instance: a map whose only entry names an image that does not exist. *)
Lemma mail_carries_report_witness :
  email_results Correlation.variant two_images {[ 9 := label_b "9" ]}
    (create_report Correlation.variant two_images {[ 9 := label_b "9" ]})
    (corr_params [1; 2] false true) start
  = if smtp_ok two_images
    then (Machine (dir_exists start) (files start)
            (trace start ++
               [Sendmail (default "" (Correlation.Email (corr_params [1; 2] false true)))
                  "[OMERO Job] Correlation analysis"
                  (list_image_names two_images {[ 9 := label_b "9" ]})
                  (Correlation.build_parameters (corr_params [1; 2] false true))
                  (Some (join (String LF "")
                           (create_report Correlation.variant two_images
                              {[ 9 := label_b "9" ]})))]),
          inr tt)
    else (start, inl SMTPError).
Proof.
  destruct (mail_carries_report two_images {[ 9 := label_b "9" ]} start) as [H _].
  apply H. reflexivity.
Defined.

(** ** The byte size of the selected images *)

Section ImageSizeFacts.

Import Bytes ImageSize SizeSamples.

Lemma remove_duplicates_spec images : ∀ seen,
  let kept := remove_duplicates seen images in
  NoDup ((getId ∘ image) <$> kept)
  ∧ sublist kept images
  ∧ (∀ x, x ∈ kept → getId (image x) ∉ seen)
  ∧ (∀ x, x ∈ images → getId (image x) ∉ seen →
       ∃ k, k ∈ kept ∧ getId (image k) = getId (image x))
  ∧ (∀ before x after, images = before ++ x :: after →
       getId (image x) ∉ seen →
       getId (image x) ∉ (getId ∘ image) <$> before → x ∈ kept).
Proof.
  induction images as [|y images IH]; intros seen kept.
  - split_and!; try done; [constructor|..].
    + intros x Hx. by apply elem_of_nil in Hx.
    + intros x Hx. by apply elem_of_nil in Hx.
    + intros [|??] ???; done.
  - unfold kept. simpl. case_bool_decide as Hy.
    + destruct (IH seen) as (I1 & I2 & I3 & I4 & I5). split_and!.
      * done.
      * by apply sublist_cons.
      * done.
      * intros x [->|Hx]%elem_of_cons Hs; [done|]. by apply I4.
      * intros [|b before] x after E Hs Hb; simplify_eq/=; [done|].
        apply (I5 before x after); [done..|].
        intros Hin. apply Hb. by right.
    + destruct (IH ({[getId (image y)]} ∪ seen)) as (I1 & I2 & I3 & I4 & I5). split_and!.
      * rewrite fmap_cons. apply NoDup_cons. split; [|done].
        intros (k & Hk & Hin)%list_elem_of_fmap. apply I3 in Hin.
        simpl in Hk. apply Hin, elem_of_union_l, elem_of_singleton. done.
      * by apply sublist_skip.
      * intros x [->|Hx]%elem_of_cons; [done|]. apply I3 in Hx.
        intros Hs. apply Hx. by apply elem_of_union_r.
      * intros x [->|Hx]%elem_of_cons Hs.
        { exists y. split; [left|done]. }
        destruct (decide (getId (image x) = getId (image y))) as [E|E].
        { exists y. split; [left|done]. }
        destruct (I4 x Hx) as (k & Hk & Ek).
        { intros [Hin%elem_of_singleton|Hin]%elem_of_union; done. }
        exists k. split; [by right|done].
      * intros [|b before] x after E Hs Hb; simplify_eq/=; [left|].
        right. apply not_elem_of_cons in Hb as [Hne Hb].
        apply (I5 before x after); [done| |done].
        intros [Hin%elem_of_singleton|Hin]%elem_of_union; done.
Qed.

Lemma process_image_bytes S p img ids r :
  process_image S p img ids = inr r → image_bytes img = inr (bytes r).
Proof.
  unfold process_image. destruct (image_bytes img) as [e|size]; [done|].
  destruct (convert S p size); [done|].
  destruct (Include_Archived p && getArchived img).
  - destruct (last (original_files img)).
    + destruct (convert S p (archive_size img)); [done|].
      case_bool_decide; by intros [= <-].
    + by intros [= <-].
  - by intros [= <-].
Qed.

Lemma size_loop_counts S p images : ∀ ids t lines t',
  size_loop S p images ids t = (lines, inr t') →
  ∃ sizes, Forall2 (λ img b, image_bytes img = inr b) images sizes
    ∧ count t' = count t + Z.of_nat (length (counted sizes))
    ∧ total t' = total t + sum_sizes (counted sizes)
    ∧ length lines = length images.
Proof.
  induction images as [|img images IH]; intros ids t lines t'; simpl.
  - intros [= <- <-]. exists []. split_and!; [constructor|simpl; lia..|done].
  - destruct (process_image S p img ids) as [e|r] eqn:E; [done|].
    destruct (size_loop S p images (ids_after r) _) as [out res] eqn:L.
    simpl. intros [= <- ->].
    apply IH in L as (sizes & F & C & T & Len).
    apply process_image_bytes in E.
    exists (bytes r :: sizes). split_and!.
    + by constructor.
    + rewrite C. unfold counted. rewrite filter_cons.
      destruct (Z.ltb_spec 0 (bytes r)).
      * rewrite decide_True by done. simpl. lia.
      * rewrite decide_False by lia. done.
    + rewrite T. unfold counted. rewrite filter_cons.
      destruct (Z.ltb_spec 0 (bytes r)).
      * rewrite decide_True by done. simpl. lia.
      * rewrite decide_False by lia. done.
    + simpl. by rewrite Len.
Qed.

Lemma counted_length sizes : (length (counted sizes) ≤ length sizes)%nat.
Proof. apply length_filter. Qed.

(** When [run] of Image_Size.py returns, every selected image has a
    known pixel type; the count is the number of selected images whose
    byte size is above 0 and the total is the sum of these sizes: an
    image of size 0 is listed but not counted. The count is at least 0
    and at most the number of selected images. One line is printed per
    image, after the two heading lines, and a closing rule follows when
    the count is not 0. Unless all images are asked for, no image id is
    processed twice. *)
Theorem run_counts_positive_sizes (S : Server) (p : params) (lines : list string)
    (t : totals) :
  run S p = (lines, inr t) →
  ∃ sizes,
    Forall2 (λ img b, image_bytes img = inr b) (selected S p) sizes
    ∧ count t = Z.of_nat (length (counted sizes))
    ∧ total t = sum_sizes (counted sizes)
    ∧ 0 ≤ count t ≤ Z.of_nat (length (selected S p))
    ∧ length lines
      = (2 + length (selected S p) + if (count t =? 0)%Z then 0 else 1)%nat
    ∧ (All_Images p = false → NoDup ((getId ∘ image) <$> selected S p)).
Proof.
  unfold run.
  destruct (size_loop S p (selected S p) ∅ _) as [out res] eqn:L. simpl.
  intros [= <- ->].
  apply size_loop_counts in L as (sizes & F & C & T & Len). simpl in C, T.
  exists sizes. split_and!.
  - done.
  - lia.
  - lia.
  - lia.
  - pose proof (counted_length sizes). apply Forall2_length in F. lia.
  - simpl. rewrite length_app, Len. destruct (count t =? 0); simpl; lia.
  - intros Ha. unfold selected. rewrite Ha.
    apply (remove_duplicates_spec _ ∅).
Qed.

Lemma sum_Permutation l k : l ≡ₚ k → sum_sizes l = sum_sizes k.
Proof. induction 1; simpl; lia. Qed.

Lemma sum_over_insert size (f : Z) (X : gset Z) :
  f ∉ X → sum_over size ({[ f ]} ∪ X) = size f + sum_over size X.
Proof.
  intros Hf. unfold sum_over.
  rewrite (sum_Permutation _ (size <$> f :: elements X)); [done|].
  apply fmap_Permutation. by apply elements_union_singleton.
Qed.

Lemma difference_seen (f : Z) (R ids : gset Z) :
  f ∈ ids → ({[f]} ∪ R) ∖ ids = R ∖ ids.
Proof.
  intros Hf. apply set_eq. intros x.
  rewrite !elem_of_difference, !elem_of_union, !elem_of_singleton.
  split; [intros [[->|?] ?]; done|intros [? ?]; auto].
Qed.

Lemma difference_new (f : Z) (R ids : gset Z) :
  f ∉ ids → ({[f]} ∪ R) ∖ ids = {[f]} ∪ (R ∖ ({[f]} ∪ ids)).
Proof.
  intros Hf. apply set_eq. intros x.
  rewrite !elem_of_union, !elem_of_difference, !elem_of_union, !elem_of_singleton.
  destruct (decide (x = f)) as [->|Hne]; tauto.
Qed.

Lemma size_loop_archived S p size images : ∀ files ids t lines t',
  Include_Archived p = true →
  Forall2 (single_source size) images files →
  size_loop S p images ids t = (lines, inr t') →
  total_archived t' = total_archived t + sum_over size (list_to_set files ∖ ids).
Proof.
  induction images as [|img images IH]; intros files ids t lines t' Hp F; simpl.
  - inversion F; subst. intros [= <- <-]. simpl.
    rewrite empty_difference_L. unfold sum_over. rewrite elements_empty. simpl. lia.
  - inversion F as [|? f ? files' (Ha & Ho & b & Hb & Hpos) F']; subst.
    destruct (process_image S p img ids) as [e|r] eqn:E; [done|].
    pose proof (process_image_bytes _ _ _ _ _ E) as Hr. rewrite Hb in Hr.
    injection Hr as ->.
    destruct (size_loop S p images (ids_after r) _) as [out res] eqn:L.
    simpl. intros [= <- ->].
    rewrite (proj2 (Z.ltb_lt 0 (bytes r)) Hpos) in L.
    apply (IH files') in L; [|done..]. rewrite L. simpl.
    unfold process_image in E. rewrite Hb, Hp, Ha, Ho in E. simpl in E.
    unfold archive_size in E. rewrite Ho in E. simpl in E. rewrite !Z.add_0_l in E.
    revert E. destruct (convert S p (bytes r)); [done|].
    destruct (convert S p (size f)); [done|].
    case_bool_decide as Hf; intros [= <-]; simpl.
    + rewrite difference_seen by done. lia.
    + rewrite difference_new by done. rewrite sum_over_insert; [lia|].
      rewrite elem_of_difference, elem_of_union, elem_of_singleton. tauto.
Qed.

(** When archived files are included and every selected image has a
    positive byte size and was archived from one original file, the
    archived total that [run] returns is the sum of the sizes of the
    distinct original files: a file that several images share is counted
    once. *)
Theorem archived_files_counted_once (S : Server) (p : params) (size : Z → Z)
    (files : list Z) (lines : list string) (t : totals) :
  Include_Archived p = true →
  Forall2 (single_source size) (selected S p) files →
  run S p = (lines, inr t) →
  total_archived t = sum_over size (list_to_set files).
Proof.
  intros Hp F. unfold run.
  destruct (size_loop S p (selected S p) ∅ _) as [out res] eqn:L. simpl.
  intros [= <- ->].
  apply (size_loop_archived _ _ size _ files) in L; [|done..].
  rewrite L. simpl. by rewrite difference_empty_L.
Qed.


(** The filter of [run] that removes duplicate images keeps, of the
    images with the same id, the first one and no other: the ids of the
    images kept are distinct, the images kept are a subsequence of the
    selection, every selected image has its id among them, and an image
    with no image of the same id before it is kept. *)
Theorem remove_duplicates_keeps_first (images : list SizedImage) :
  let kept := remove_duplicates ∅ images in
  NoDup ((getId ∘ image) <$> kept)
  ∧ sublist kept images
  ∧ (∀ x, x ∈ images → ∃ k, k ∈ kept ∧ getId (image k) = getId (image x))
  ∧ (∀ before x after, images = before ++ x :: after →
       getId (image x) ∉ (getId ∘ image) <$> before → x ∈ kept).
Proof.
  intros kept. destruct (remove_duplicates_spec images ∅) as (H1 & H2 & _ & H4 & H5).
  split_and!; [done|done| |].
  - intros x Hx. apply H4; [done|]. apply not_elem_of_empty.
  - intros before x after E Hb. apply (H5 before x after); [done| |done].
    apply not_elem_of_empty.
Qed.

(** Instance: two images of 512 x 512 pixels, of one and of two bytes
    per pixel, the first selected twice. *)
Lemma run_counts_positive_sizes_witness :
  ∃ sizes,
    Forall2 (λ img b, image_bytes img = inr b) (selected server twice) sizes
    ∧ 2 = Z.of_nat (length (counted sizes))
    ∧ 786432 = sum_sizes (counted sizes)
    ∧ 0 ≤ 2 ≤ Z.of_nat (length (selected server twice))
    ∧ length (run server twice).1
      = (2 + length (selected server twice) + if (2 =? 0)%Z then 0 else 1)%nat
    ∧ (All_Images twice = false →
       NoDup ((getId ∘ image) <$> selected server twice)).
Proof.
  apply (run_counts_positive_sizes server twice
           (run server twice).1
           {| count := 2; total := 786432; total_archived := 1000 |}).
  vm_compute. reflexivity.
Defined.

(** Instance: the two images share the original file 5 of 1000 bytes. *)
Lemma archived_files_counted_once_witness :
  1000 = sum_over (λ _, 1000) (list_to_set [5; 5]).
Proof.
  apply (archived_files_counted_once server twice (λ _, 1000) [5; 5]
           (run server twice).1
           {| count := 2; total := 786432; total_archived := 1000 |}).
  - reflexivity.
  - vm_compute. repeat constructor; eexists; (split; [reflexivity|reflexivity]).
  - vm_compute. reflexivity.
Defined.

End ImageSizeFacts.

